(** * An INDI client: device tree reducer, listener fan-out, waits and
    the command sequencer.

    Shallow embedding of [Indi.ts] (class [Vector], class
    [IndiConnection]) and of [IndiManager.ts] ([nextMessageUid],
    [refreshStatus], [setParam], [pulseParam]).

    Conventions.
    - A JavaScript object used as a dictionary is a [gmap string _]; the
      tests [has(obj, key)] of the source are lookups.  An attribute that
      the decoder did not set reads [undefined]: it is [None] here, and
      [key] gives the property name it indexes as.  An assignment
      [obj[k] = v] with [k] equal to "__proto__" sets the prototype of
      the object and creates no own property: see [assign].
    - Mutation of the connection, of the module variable
      [globalRevisionId], of the socket and of the event loop is explicit
      state passing over the record [World].
    - A thrown value is a [Thrown] completion; the state reached before the
      throw is kept.
    - The callbacks of other modules are closures the sources at hand do
      not hold.  A callback is named, and what it does to the connection
      when it is called is a parameter ([clients]): a sequence of calls,
      chosen from the state it finds, among those of [ClientCall].
      What a callback throws ends the dispatch pass that called it: the
      exception leaves the [nextTick] callback and is recorded in
      [uncaught].
    - A message listener is a closure of another module as well.  It is
      called while a message is handled, so of what it does the model
      keeps the calls of [removeMessageListener]; the listener of the
      manager stores the message in the manager's own list
      ([addMessage], [cleanupMessages]).
    - An [async] function is a resumption ([Step]): it runs to its next
      [await], and continues from the outcome of the awaited wait and from
      the world as it is at that moment. *)

From stdpp Require Import gmap strings list sorting.
From Stdlib Require Import ZArith NArith HexadecimalString HexadecimalN.

(** ** Values of the wire protocol *)

Inductive VectorKind := Text | Number | Switch | Light.

(** The element names the decoder is set up for (the [schema] of the
    source): [def<Kind>Vector], [set<Kind>Vector], [delProperty] and
    [message]. *)
Inductive MessageName :=
| defVector (k : VectorKind)
| setVector (k : VectorKind)
| delProperty
| message.

#[global] Instance VectorKind_eq_dec : EqDecision VectorKind.
Proof. solve_decision. Defined.
#[global] Instance MessageName_eq_dec : EqDecision MessageName.
Proof. solve_decision. Defined.

(** [obj[k]] with [k] undefined indexes the property named "undefined". *)
Definition key (k : option string) : string := default "undefined" k.

(** A child element ([defText], [oneSwitch], ...): [$name], [$label] and
    the text [$_]. *)
Record Child := {
  c_name : option string;
  c_label : option string;
  c_text : option string
}.

(** A decoded message.  [m_childs] is the array [message[childsProps]]
    (respectively [message['one' + kind]]), absent when the element had no
    child. *)
Record IndiMessage := {
  m_tag : MessageName;            (* $$ *)
  m_device : option string;       (* $device *)
  m_name : option string;         (* $name *)
  m_state : option string;        (* $state *)
  m_timeout : option string;      (* $timeout *)
  m_timestamp : option string;    (* $timestamp *)
  m_message : option string;      (* $message *)
  m_childs : option (list Child)
}.

(** A vector as it sits in the device tree: the definition message after
    [onMessage] has indexed its children. *)
Record VectorDef := {
  v_type : VectorKind;            (* $type *)
  v_state : option string;        (* $state *)
  v_timeout : option string;      (* $timeout *)
  v_timestamp : option string;    (* $timestamp *)
  v_message : option string;      (* $message *)
  v_rev : N;                      (* $rev *)
  childs : gmap string Child;
  childNames : list (option string)
}.

Abbreviation DeviceTree := (gmap string (gmap string VectorDef)).

Record Affectation := { a_name : string; a_value : string }.

#[global] Instance Affectation_eq_dec : EqDecision Affectation.
Proof. solve_decision. Defined.

(** The object handed to [toXml] by [Vector.setValues]. *)
Record OutMessage := {
  o_kind : VectorKind;            (* 'new' + $type + 'Vector', 'one' + $type *)
  o_device : string;
  o_name : string;
  o_ones : list Affectation
}.

(** Text written to the server.  The rendering of xmlbuilder is kept
    symbolic: [toXml msg] stands for the string it returns. *)
Inductive XmlText :=
| getProperties                   (* '<getProperties version="1.7"/>' *)
| toXml (msg : OutMessage).

(** ** Thrown values *)

Inductive Exn :=
| Error (msg : string)            (* throw new Error(msg) *)
| Raw (msg : string)              (* a string thrown or passed to next.error *)
| TypeError                       (* reading a property of undefined *)
| CancelledError.                 (* the rejection of a cancelled token *)

Inductive Completion (A : Type) :=
| Normal (a : A)
| Thrown (e : Exn).
Arguments Normal {A} a.
Arguments Thrown {A} e.

(** ** Listeners and waits *)

(** Listeners are closures compared with [===]; they are named here by
    where they were created. *)
Inductive Listener :=
| WaitListener (w : nat)          (* the closure built by the wait number w *)
| RefreshStatus                   (* IndiManager.lifecycle: ()=>{this.refreshStatus()} *)
| Client (id : nat).              (* any other callback *)

#[global] Instance Listener_eq_dec : EqDecision Listener.
Proof. solve_decision. Defined.

(** The callbacks of other modules, by where they are called from. *)
Inductive Callback :=
| Named (id : nat)                (* the listener [Client id] *)
| OnConnection (o : nat)          (* a connection listener of IndiManager *)
| Chained (w : nat).              (* what next.done, next.error or next.cancel
                                     of the wait number w runs before it
                                     returns *)

#[global] Instance Callback_eq_dec : EqDecision Callback.
Proof. solve_decision. Defined.

(** The listener during whose call a callback runs. *)
Definition listenerOf (cb : Callback) : Listener :=
  match cb with
  | Named id => Client id
  | OnConnection _ => RefreshStatus
  | Chained w => WaitListener w
  end.

(** What a callback does to the connection: one call. *)
Inductive ClientCall :=
| CallRemoveListener (f : Listener)     (* connection.removeListener(f) *)
| CallAddListener (f : Listener)        (* connection.addListener(f) *)
| CallRemoveConnectionListener (o : nat)
                                  (* indiManager.removeConnectionListener(o) *)
| CallAddConnectionListener (o : nat)
                                  (* indiManager.addConnectionListener(o) *)
| CallSetValues (device vectorId : string) (affectations : list Affectation)
    (* connection.getDevice(device).getVector(vectorId).setValues(...) *)
| CallThrow (e : Exn).                  (* throw e *)

(** A message listener, by what it does to the registry it is called
    from: the message listeners it unregisters. *)
Record MessageListener := {
  ml_id : nat;
  ml_unregisters : list nat
}.

(** The result of evaluating a predicate. *)
Inductive Verdict := Falsy | Truthy | Throws (e : Exn).

(** Predicates read the device tree and [isDead()]. *)
Definition IndiPredicate : Type := DeviceTree → bool → Verdict.

(** Modelled from the spec: the class [Promises.Cancelable] is not part of
    the sources at hand.  Per the wait engine's contract a wait produces
    at most one terminal outcome; [next.isActive()] holds from the start
    of the wait until that outcome. *)
Inductive Settlement :=
| NotStarted
| Active
| Done
| Failed (e : Exn)
| Cancelled.

Record Waiter := {
  w_predicate : IndiPredicate;
  w_allowDisconnectionState : bool;
  w_listener : option Listener;   (* the variable [listener] of the closure *)
  w_next : Settlement
}.

(** ** The state *)

Record World := {
  (* fields of IndiConnection *)
  deviceTree : DeviceTree;
  connected : bool;
  waiterId : nat;
  dead : bool;
  listeners : list Listener;
  messageListeners : list MessageListener;
  checkingListeners : option (list Listener);
  queue : list XmlText;
  (* the module variable *)
  globalRevisionId : N;
  (* the environment *)
  socket : list XmlText;          (* what socket.write received, oldest first *)
  nextTick : nat;                 (* callbacks handed to process.nextTick, not yet run *)
  delivered : list (nat * IndiMessage);  (* calls of message listeners *)
  waits : gmap nat Waiter;        (* the Cancelables made by wait() *)
  uncaught : list Exn;            (* what a nextTick callback threw *)
  (* fields of IndiManager *)
  connectionListener : list nat;  (* the Set, in insertion order *)
  status : string                 (* currentStatus.status *)
}.

Definition set_deviceTree (t : DeviceTree) (s : World) : World :=
  {| deviceTree := t; connected := connected s; waiterId := waiterId s;
     dead := dead s; listeners := listeners s;
     messageListeners := messageListeners s;
     checkingListeners := checkingListeners s; queue := queue s;
     globalRevisionId := globalRevisionId s; socket := socket s;
     nextTick := nextTick s; delivered := delivered s; waits := waits s;
     uncaught := uncaught s;
     connectionListener := connectionListener s; status := status s |}.

Definition set_connected (b : bool) (s : World) : World :=
  {| deviceTree := deviceTree s; connected := b; waiterId := waiterId s;
     dead := dead s; listeners := listeners s;
     messageListeners := messageListeners s;
     checkingListeners := checkingListeners s; queue := queue s;
     globalRevisionId := globalRevisionId s; socket := socket s;
     nextTick := nextTick s; delivered := delivered s; waits := waits s;
     uncaught := uncaught s;
     connectionListener := connectionListener s; status := status s |}.

Definition set_waiterId (n : nat) (s : World) : World :=
  {| deviceTree := deviceTree s; connected := connected s; waiterId := n;
     dead := dead s; listeners := listeners s;
     messageListeners := messageListeners s;
     checkingListeners := checkingListeners s; queue := queue s;
     globalRevisionId := globalRevisionId s; socket := socket s;
     nextTick := nextTick s; delivered := delivered s; waits := waits s;
     uncaught := uncaught s;
     connectionListener := connectionListener s; status := status s |}.

Definition set_dead (b : bool) (s : World) : World :=
  {| deviceTree := deviceTree s; connected := connected s;
     waiterId := waiterId s; dead := b; listeners := listeners s;
     messageListeners := messageListeners s;
     checkingListeners := checkingListeners s; queue := queue s;
     globalRevisionId := globalRevisionId s; socket := socket s;
     nextTick := nextTick s; delivered := delivered s; waits := waits s;
     uncaught := uncaught s;
     connectionListener := connectionListener s; status := status s |}.

Definition set_listeners (l : list Listener) (s : World) : World :=
  {| deviceTree := deviceTree s; connected := connected s;
     waiterId := waiterId s; dead := dead s; listeners := l;
     messageListeners := messageListeners s;
     checkingListeners := checkingListeners s; queue := queue s;
     globalRevisionId := globalRevisionId s; socket := socket s;
     nextTick := nextTick s; delivered := delivered s; waits := waits s;
     uncaught := uncaught s;
     connectionListener := connectionListener s; status := status s |}.

Definition set_checkingListeners (l : option (list Listener)) (s : World)
  : World :=
  {| deviceTree := deviceTree s; connected := connected s;
     waiterId := waiterId s; dead := dead s; listeners := listeners s;
     messageListeners := messageListeners s;
     checkingListeners := l; queue := queue s;
     globalRevisionId := globalRevisionId s; socket := socket s;
     nextTick := nextTick s; delivered := delivered s; waits := waits s;
     uncaught := uncaught s;
     connectionListener := connectionListener s; status := status s |}.

Definition set_queue (q : list XmlText) (s : World) : World :=
  {| deviceTree := deviceTree s; connected := connected s;
     waiterId := waiterId s; dead := dead s; listeners := listeners s;
     messageListeners := messageListeners s;
     checkingListeners := checkingListeners s; queue := q;
     globalRevisionId := globalRevisionId s; socket := socket s;
     nextTick := nextTick s; delivered := delivered s; waits := waits s;
     uncaught := uncaught s;
     connectionListener := connectionListener s; status := status s |}.

Definition set_globalRevisionId (r : N) (s : World) : World :=
  {| deviceTree := deviceTree s; connected := connected s;
     waiterId := waiterId s; dead := dead s; listeners := listeners s;
     messageListeners := messageListeners s;
     checkingListeners := checkingListeners s; queue := queue s;
     globalRevisionId := r; socket := socket s;
     nextTick := nextTick s; delivered := delivered s; waits := waits s;
     uncaught := uncaught s;
     connectionListener := connectionListener s; status := status s |}.

Definition set_socket (w : list XmlText) (s : World) : World :=
  {| deviceTree := deviceTree s; connected := connected s;
     waiterId := waiterId s; dead := dead s; listeners := listeners s;
     messageListeners := messageListeners s;
     checkingListeners := checkingListeners s; queue := queue s;
     globalRevisionId := globalRevisionId s; socket := w;
     nextTick := nextTick s; delivered := delivered s; waits := waits s;
     uncaught := uncaught s;
     connectionListener := connectionListener s; status := status s |}.

Definition set_nextTick (n : nat) (s : World) : World :=
  {| deviceTree := deviceTree s; connected := connected s;
     waiterId := waiterId s; dead := dead s; listeners := listeners s;
     messageListeners := messageListeners s;
     checkingListeners := checkingListeners s; queue := queue s;
     globalRevisionId := globalRevisionId s; socket := socket s;
     nextTick := n; delivered := delivered s; waits := waits s;
     uncaught := uncaught s;
     connectionListener := connectionListener s; status := status s |}.

Definition set_delivered (d : list (nat * IndiMessage)) (s : World) : World :=
  {| deviceTree := deviceTree s; connected := connected s;
     waiterId := waiterId s; dead := dead s; listeners := listeners s;
     messageListeners := messageListeners s;
     checkingListeners := checkingListeners s; queue := queue s;
     globalRevisionId := globalRevisionId s; socket := socket s;
     nextTick := nextTick s; delivered := d; waits := waits s;
     uncaught := uncaught s;
     connectionListener := connectionListener s; status := status s |}.

Definition set_waits (p : gmap nat Waiter) (s : World) : World :=
  {| deviceTree := deviceTree s; connected := connected s;
     waiterId := waiterId s; dead := dead s; listeners := listeners s;
     messageListeners := messageListeners s;
     checkingListeners := checkingListeners s; queue := queue s;
     globalRevisionId := globalRevisionId s; socket := socket s;
     nextTick := nextTick s; delivered := delivered s; waits := p;
     uncaught := uncaught s;
     connectionListener := connectionListener s; status := status s |}.

Definition set_status (st : string) (s : World) : World :=
  {| deviceTree := deviceTree s; connected := connected s;
     waiterId := waiterId s; dead := dead s; listeners := listeners s;
     messageListeners := messageListeners s;
     checkingListeners := checkingListeners s; queue := queue s;
     globalRevisionId := globalRevisionId s; socket := socket s;
     nextTick := nextTick s; delivered := delivered s; waits := waits s;
     uncaught := uncaught s;
     connectionListener := connectionListener s; status := st |}.

Definition set_uncaught (u : list Exn) (s : World) : World :=
  {| deviceTree := deviceTree s; connected := connected s;
     waiterId := waiterId s; dead := dead s; listeners := listeners s;
     messageListeners := messageListeners s;
     checkingListeners := checkingListeners s; queue := queue s;
     globalRevisionId := globalRevisionId s; socket := socket s;
     nextTick := nextTick s; delivered := delivered s; waits := waits s;
     uncaught := u;
     connectionListener := connectionListener s; status := status s |}.

Definition set_connectionListener (l : list nat) (s : World) : World :=
  {| deviceTree := deviceTree s; connected := connected s;
     waiterId := waiterId s; dead := dead s; listeners := listeners s;
     messageListeners := messageListeners s;
     checkingListeners := checkingListeners s; queue := queue s;
     globalRevisionId := globalRevisionId s; socket := socket s;
     nextTick := nextTick s; delivered := delivered s; waits := waits s;
     uncaught := uncaught s;
     connectionListener := l; status := status s |}.

Definition set_messageListeners (l : list MessageListener) (s : World)
  : World :=
  {| deviceTree := deviceTree s; connected := connected s;
     waiterId := waiterId s; dead := dead s; listeners := listeners s;
     messageListeners := l;
     checkingListeners := checkingListeners s; queue := queue s;
     globalRevisionId := globalRevisionId s; socket := socket s;
     nextTick := nextTick s; delivered := delivered s; waits := waits s;
     uncaught := uncaught s;
     connectionListener := connectionListener s; status := status s |}.

(** [new IndiConnection()], in a process whose revision counter stands at
    [rev]. *)
Definition newIndiConnection (rev : N) : World :=
  {| deviceTree := ∅; connected := false; waiterId := 0; dead := false;
     listeners := []; messageListeners := []; checkingListeners := None;
     queue := []; globalRevisionId := rev; socket := []; nextTick := 0;
     delivered := []; waits := ∅; uncaught := [];
     connectionListener := []; status := "connecting" |}.

(** Everything the client has asked to send, written or still queued. *)
Definition outbox (s : World) : list XmlText := socket s ++ queue s.

(** ** class Vector *)

Definition getVectorInTree (device vectorId : string) (s : World)
  : option VectorDef :=
  match deviceTree s !! device with
  | None => None
  | Some dev => dev !! vectorId
  end.

Definition notFound (device vectorId : string) : Exn :=
  Error ("Property not found: " +:+ device +:+ "/" +:+ vectorId).

Definition getExistingVectorInTree (device vectorId : string) (s : World)
  : Completion VectorDef :=
  match getVectorInTree device vectorId s with
  | None => Thrown (notFound device vectorId)
  | Some rslt => Normal rslt
  end.

Definition exists_ (device vectorId : string) (s : World) : bool :=
  bool_decide (is_Some (getVectorInTree device vectorId s)).

Definition getState (device vectorId : string) (s : World)
  : Completion (option string) :=
  match getExistingVectorInTree device vectorId s with
  | Normal v => Normal (v_state v)
  | Thrown e => Thrown e
  end.

Definition getRev (device vectorId : string) (s : World) : Completion N :=
  match getExistingVectorInTree device vectorId s with
  | Normal v => Normal (v_rev v)
  | Thrown e => Thrown e
  end.

Definition getPropertyValue (device vectorId name : string) (s : World)
  : Completion (option string) :=
  match getExistingVectorInTree device vectorId s with
  | Thrown e => Thrown e
  | Normal vecDef =>
      match childs vecDef !! name with
      | None =>
          Thrown (Error ("Property not found: " +:+ device +:+ "/"
                         +:+ vectorId +:+ "/" +:+ name))
      | Some prop => Normal (c_text prop)
      end
  end.

(** [null] is the outer [None]; a child without text is [Some None]. *)
Definition getPropertyValueIfExists (device vectorId name : string)
  (s : World) : option (option string) :=
  match getVectorInTree device vectorId s with
  | None => None
  | Some vecDef =>
      match childs vecDef !! name with
      | None => None
      | Some prop => Some (c_text prop)
      end
  end.

Definition set_v_state (st : option string) (v : VectorDef) : VectorDef :=
  {| v_type := v_type v; v_state := st; v_timeout := v_timeout v;
     v_timestamp := v_timestamp v; v_message := v_message v;
     v_rev := v_rev v; childs := childs v; childNames := childNames v |}.

(** Writing through the reference [deviceTree[device][vectorId]]. *)
Definition storeVector (device vectorId : string) (v : VectorDef)
  (t : DeviceTree) : DeviceTree :=
  <[device := <[vectorId := v]> (default ∅ (t !! device))]> t.

Definition flushQueue (s : World) : World :=
  if connected s
  then set_queue [] (set_socket (socket s ++ queue s) s)
  else s.

Definition queueMessage (msg : XmlText) (s : World) : World :=
  flushQueue (set_queue (queue s ++ [msg]) s).

Definition setValues (device vectorId : string)
  (affectations : list Affectation) (s : World) : Completion unit * World :=
  match getExistingVectorInTree device vectorId s with
  | Thrown e => (Thrown e, s)
  | Normal vecDef =>
      let msg := {| o_kind := v_type vecDef; o_device := device;
                    o_name := vectorId; o_ones := affectations |} in
      let s1 := set_deviceTree
                  (storeVector device vectorId
                     (set_v_state (Some "Busy") vecDef) (deviceTree s)) s in
      (Normal tt, queueMessage (toXml msg) s1)
  end.

(** ** class IndiConnection: listeners *)

(** [splice(i, 1)] at the first index holding [f]. *)
Fixpoint spliceFirst (f : Listener) (l : list Listener) : list Listener :=
  match l with
  | [] => []
  | g :: l' => if decide (g = f) then l' else g :: spliceFirst f l'
  end.

Definition addListener (f : Listener) (s : World) : World :=
  set_listeners (listeners s ++ [f]) s.

Definition removeListener (f : Listener) (s : World) : World :=
  let s1 := set_listeners (spliceFirst f (listeners s)) s in
  match checkingListeners s1 with
  | None => s1
  | Some cl => set_checkingListeners (Some (spliceFirst f cl)) s1
  end.

(** The synchronous part of [checkListeners]: the snapshot, and the
    callback handed to [process.nextTick] unless there is no listener. *)
Definition checkListeners (s : World) : World :=
  let s1 := set_checkingListeners (Some (listeners s)) s in
  match listeners s with
  | [] => s1
  | _ :: _ => set_nextTick (S (nextTick s1)) s1
  end.

(** *** wait *)

Definition set_w_listener (l : option Listener) (w : Waiter) : Waiter :=
  {| w_predicate := w_predicate w;
     w_allowDisconnectionState := w_allowDisconnectionState w;
     w_listener := l; w_next := w_next w |}.

Definition set_w_next (n : Settlement) (w : Waiter) : Waiter :=
  {| w_predicate := w_predicate w;
     w_allowDisconnectionState := w_allowDisconnectionState w;
     w_listener := w_listener w; w_next := n |}.

(** [next.done], [next.error], [next.cancel]: the first one wins. *)
Definition settle (w : nat) (n : Settlement) (s : World) : World :=
  match waits s !! w with
  | Some wt =>
      match w_next wt with
      | Active => set_waits (<[w := set_w_next n wt]> (waits s)) s
      | _ => s
      end
  | None => s
  end.

Definition dettach (w : nat) (s : World) : World :=
  match waits s !! w with
  | Some wt =>
      match w_listener wt with
      | Some l =>
          let s1 := removeListener l s in
          set_waits (<[w := set_w_listener None wt]> (waits s1)) s1
      | None => s
      end
  | None => s
  end.

(** [wait(predicate, allowDisconnectionState)]: takes the next waiter id
    and returns the Cancelable, not yet started. *)
Definition wait (predicate : IndiPredicate) (allowDisconnectionState : bool)
  (s : World) : nat * World :=
  let w := waiterId s in
  (w, set_waiterId (S w)
        (set_waits (<[w := {| w_predicate := predicate;
                              w_allowDisconnectionState :=
                                allowDisconnectionState;
                              w_listener := None;
                              w_next := NotStarted |}]> (waits s)) s)).

(** The function given to the Cancelable, run when the wait starts. *)
Definition start (w : nat) (s : World) : Completion unit * World :=
  match waits s !! w with
  | None => (Normal tt, s)
  | Some wt =>
      let s0 := set_waits (<[w := set_w_next Active wt]> (waits s)) s in
      if dead s0 && negb (w_allowDisconnectionState wt)
      then (Normal tt, settle w (Failed (Raw "Indi server disconnected")) s0)
      else
        match w_predicate wt (deviceTree s0) (dead s0) with
        | Throws e => (Thrown e, s0)
        | Truthy => (Normal tt, settle w Done s0)
        | Falsy =>
            let l := WaitListener w in
            (Normal tt,
             addListener l
               (set_waits (<[w := set_w_listener (Some l)
                                   (set_w_next Active wt)]> (waits s0)) s0))
        end
  end.

(** The cancel function installed by [next.setCancelFunc]. *)
Definition cancel (w : nat) (s : World) : World :=
  settle w Cancelled (dettach w s).

(** The listener closure of a wait. *)
Definition waitListener (w : nat) (s : World) : World :=
  match waits s !! w with
  | None => s
  | Some wt =>
      match w_next wt with
      | Active =>
          match w_predicate wt (deviceTree s) (dead s) with
          | Falsy => s
          | Throws e => settle w (Failed e) (dettach w s)
          | Truthy => settle w Done (dettach w s)
          end
      | _ => s
      end
  end.

(** *** Connection listeners of IndiManager *)

Fixpoint spliceFirstId (o : nat) (l : list nat) : list nat :=
  match l with
  | [] => []
  | g :: l' => if decide (g = o) then l' else g :: spliceFirstId o l'
  end.

(** [this.connectionListener.add(cb)]: a Set keeps one entry for a
    callback, at the place of its first insertion. *)
Definition addConnectionListener (o : nat) (s : World) : World :=
  if bool_decide (o ∈ connectionListener s) then s
  else set_connectionListener (connectionListener s ++ [o]) s.

(** [this.connectionListener.delete(cb)] *)
Definition removeConnectionListener (o : nat) (s : World) : World :=
  set_connectionListener (spliceFirstId o (connectionListener s)) s.

(** *** Callbacks, and the dispatch pass *)

Definition Clients : Type := Callback → World → list ClientCall.

Definition clientCall (c : ClientCall) (s : World) : Completion unit * World :=
  match c with
  | CallRemoveListener f => (Normal tt, removeListener f s)
  | CallAddListener f => (Normal tt, addListener f s)
  | CallRemoveConnectionListener o => (Normal tt, removeConnectionListener o s)
  | CallAddConnectionListener o => (Normal tt, addConnectionListener o s)
  | CallSetValues device vectorId affectations =>
      setValues device vectorId affectations s
  | CallThrow e => (Thrown e, s)
  end.

(** The calls of a callback, one after the other, up to the first that
    throws. *)
Fixpoint runCalls (calls : list ClientCall) (s : World)
  : Completion unit * World :=
  match calls with
  | [] => (Normal tt, s)
  | c :: calls' =>
      match clientCall c s with
      | (Normal _, s1) => runCalls calls' s1
      | (Thrown e, s1) => (Thrown e, s1)
      end
  end.

(** Whether the wait [w], not settled in [s], is settled in [s']. *)
Definition settledBy (w : nat) (s s' : World) : bool :=
  match w_next <$> waits s !! w, w_next <$> waits s' !! w with
  | Some (NotStarted | Active), Some (Done | Failed _ | Cancelled) => true
  | _, _ => false
  end.

Section Dispatch.

(** What each callback does when it is called in a given state. *)
Variable clients : Clients.

Definition call (cb : Callback) (s : World) : Completion unit * World :=
  runCalls (clients cb s) s.

(** [IndiManager.refreshStatus].  [connection] tells whether
    [this.connection] is set; it is this connection when it is.  The loop
    goes over a copy of the Set and skips a callback that was deleted
    meanwhile; what a callback throws is caught and logged. *)
Definition refreshStatus (connection : bool) (s : World) : World :=
  let s1 :=
    if negb connection then set_status "error" (set_deviceTree ∅ s)
    else if negb (connected s)
         then set_status "connecting" (set_deviceTree ∅ s)
         else set_status "connected" s in
  foldl (λ s o, if bool_decide (o ∈ connectionListener s)
                then (call (OnConnection o) s).2
                else s)
        s1 (connectionListener s1).

(** [todo()].  The closure of a wait ends with [next.done] or
    [next.error]: what is chained on the Cancelable and runs before these
    return, runs here. *)
Definition invoke (todo : Listener) (s : World) : Completion unit * World :=
  match todo with
  | WaitListener w =>
      let s1 := waitListener w s in
      if settledBy w s s1 then call (Chained w) s1 else (Normal tt, s1)
  | RefreshStatus => (Normal tt, refreshStatus true s)
  | Client id => call (Named id) s
  end.

(** The loop of the callback given to [process.nextTick]; [fuel] bounds
    its iterations.  Returns the listeners called, in call order.  The
    loop has no [try]: what a listener throws leaves the callback, with
    the rest of the snapshot still in [checkingListeners]. *)
Fixpoint checkingLoop (fuel : nat) (s : World)
  : option (list Listener * World) :=
  match checkingListeners s with
  | None => Some ([], s)
  | Some cl =>
      match last cl with
      | None => Some ([], s)
      | Some todo =>
          match fuel with
          | 0 => None
          | S fuel' =>
              let s1 := set_checkingListeners (Some (removelast cl)) s in
              match invoke todo s1 with
              | (Thrown e, s2) =>
                  Some ([todo], set_uncaught (uncaught s2 ++ [e]) s2)
              | (Normal _, s2) =>
                  match checkingLoop fuel' s2 with
                  | None => None
                  | Some (called, s3) => Some (todo :: called, s3)
                  end
              end
          end
      end
  end.

(** The event loop runs one pending [nextTick] callback. *)
Definition runNextTick (fuel : nat) (s : World)
  : option (list Listener * World) :=
  match nextTick s with
  | 0 => Some ([], s)
  | S n => checkingLoop fuel (set_nextTick n s)
  end.

End Dispatch.

(** *** The socket handlers of [connect] *)

Definition bump (s : World) : World :=
  set_globalRevisionId (globalRevisionId s + 1) s.

(** [socket.on('connect', ...)] *)
Definition onConnect (s : World) : World :=
  let s1 := set_connected true s in
  let s2 := set_socket (socket s1 ++ [getProperties]) s1 in
  bump (flushQueue s2).

(** [socket.on('close', ...)] *)
Definition onClose (s : World) : World :=
  let s1 := bump s in
  checkListeners (set_dead true (set_queue [] (set_connected false s1))).

(** *** onMessage *)

(** [splice(i, 1)] at the first index holding the closure [id]. *)
Fixpoint spliceFirstListener (id : nat) (l : list MessageListener)
  : list MessageListener :=
  match l with
  | [] => []
  | g :: l' =>
      if decide (ml_id g = id) then l' else g :: spliceFirstListener id l'
  end.

Definition addMessageListener (l : MessageListener) (s : World) : World :=
  set_messageListeners (messageListeners s ++ [l]) s.

Definition removeMessageListener (id : nat) (s : World) : World :=
  set_messageListeners (spliceFirstListener id (messageListeners s)) s.

(** The loop of [dispatchMessage] from the index [i] on: it reads
    [this.messageListeners] anew at each iteration.  What a listener
    throws is caught and logged.  [n] bounds the iterations: the array
    does not grow while the loop runs. *)
Fixpoint dispatchFrom (n i : nat) (m : IndiMessage) (s : World) : World :=
  match n with
  | 0 => s
  | S n' =>
      match messageListeners s !! i with
      | None => s
      | Some l =>
          let s1 := set_delivered (delivered s ++ [(ml_id l, m)]) s in
          let s2 := foldl (λ s id, removeMessageListener id s) s1
                      (ml_unregisters l) in
          dispatchFrom n' (S i) m s2
      end
  end.

Definition dispatchMessage (m : IndiMessage) (s : World) : World :=
  dispatchFrom (length (messageListeners s)) 0 m s.

(** [obj[k] = v], [v] an object, on the own properties of [obj]: the
    assignment to "__proto__" goes to the setter of [Object.prototype]
    and replaces the prototype of [obj].  The tests of the source are
    [hasOwnProperty] calls, which do not see the prototype. *)
Definition assign {A} (k : string) (v : A) (obj : gmap string A)
  : gmap string A :=
  if decide (k = "__proto__") then obj else <[k := v]> obj.

Definition indexChilds (cs : list Child) : gmap string Child :=
  foldl (λ m child, assign (key (c_name child)) child m) ∅ cs.

Definition set_c_text (t : option string) (c : Child) : Child :=
  {| c_name := c_name c; c_label := c_label c; c_text := t |}.

(** The loop over [updates] of the [set] branch. *)
Definition applyUpdates (updates : list Child) (cs : gmap string Child)
  : gmap string Child :=
  foldl (λ m update,
           match m !! key (c_name update) with
           | None => m
           | Some current =>
               <[key (c_name update) :=
                   set_c_text (Some (default "" (c_text update))) current]> m
           end) cs updates.

(** [getDeviceInTree(dev)[name] = message].  [getDeviceInTree] assigns
    an empty object to a device that is not there; for "__proto__" that
    object becomes the prototype of the tree, and the vector goes into
    it. *)
Definition defineVector (dev name : string) (v : VectorDef) (t : DeviceTree)
  : DeviceTree :=
  if decide (dev = "__proto__") then t
  else <[dev := assign name v (default ∅ (t !! dev))]> t.

Definition onMessage (m : IndiMessage) (s : World) : Completion unit * World :=
  let s := bump s in
  let rev := globalRevisionId s in
  match m_tag m with
  | message => (Normal tt, dispatchMessage m s)
  | defVector k =>
      match m_childs m with
      | None => (Thrown TypeError, s)     (* childs.length *)
      | Some cs =>
          let v := {| v_type := k; v_state := m_state m;
                      v_timeout := m_timeout m;
                      v_timestamp := m_timestamp m;
                      v_message := m_message m; v_rev := rev;
                      childs := indexChilds cs;
                      childNames := map c_name cs |} in
          (Normal tt,
           checkListeners
             (set_deviceTree
                (defineVector (key (m_device m)) (key (m_name m)) v
                   (deviceTree s)) s))
      end
  | delProperty =>
      match deviceTree s !! key (m_device m) with
      | None => (Normal tt, s)
      | Some dev =>
          match m_name m with
          | Some name =>
              match dev !! name with
              | None => (Normal tt, s)
              | Some _ =>
                  (Normal tt,
                   checkListeners
                     (set_deviceTree
                        (<[key (m_device m) := delete name dev]>
                           (deviceTree s)) s))
              end
          | None =>
              (Normal tt,
               checkListeners
                 (set_deviceTree (delete (key (m_device m)) (deviceTree s)) s))
          end
      end
  | setVector kind =>
      match deviceTree s !! key (m_device m) with
      | None => (Normal tt, s)
      | Some dev =>
          match dev !! key (m_name m) with
          | None => (Normal tt, s)
          | Some prop =>
              let prop1 :=
                {| v_type := v_type prop; v_state := m_state m;
                   v_timeout := Some (default "0" (m_timeout m));
                   v_timestamp := m_timestamp m;
                   v_message := match m_message m with
                                | Some txt => Some txt
                                | None => v_message prop
                                end;
                   v_rev := rev; childs := childs prop;
                   childNames := childNames prop |} in
              match m_childs m with
              | None =>
                  (Normal tt,
                   set_deviceTree
                     (storeVector (key (m_device m)) (key (m_name m)) prop1
                        (deviceTree s)) s)
              | Some updates =>
                  let prop2 :=
                    {| v_type := v_type prop1; v_state := v_state prop1;
                       v_timeout := v_timeout prop1;
                       v_timestamp := v_timestamp prop1;
                       v_message := v_message prop1; v_rev := v_rev prop1;
                       childs := applyUpdates updates (childs prop1);
                       childNames := childNames prop1 |} in
                  (Normal tt,
                   checkListeners
                     (set_deviceTree
                        (storeVector (key (m_device m)) (key (m_name m))
                           prop2 (deviceTree s)) s))
              end
          end
      end
  end.

(** The decoder feeds its messages one after the other; what a call throws
    is the decoder's to handle, the state stays as the call left it. *)
Definition feed (msgs : list IndiMessage) (s : World) : World :=
  foldl (λ s m, (onMessage m s).2) s msgs.

(** ** IndiManager: notification uids *)

(** [lastMessageStamp] and [lastMessageSerial]: both undefined, or both
    set by the previous call. *)
Definition UidState : Type := option (Z * N).

(** [serial.toString(16)] *)
Definition toString16 (serial : N) : string :=
  NilZero.string_of_uint (N.to_hex_uint serial).

Fixpoint repeatZ (n : nat) : string :=
  match n with
  | 0 => ""
  | S n' => "Z" +:+ repeatZ n'
  end.

Section Uid.

(** [new Date(now).toISOString()], the runtime's. *)
Variable toISOString : Z → string.

(** The end of [nextMessageUid]: the serial in hexadecimal, one "Z"
    before it for each digit after the first, behind the timestamp. *)
Definition formatUid (now : Z) (serial : N) : string :=
  let serialStr := toString16 serial in
  let prefix := repeatZ (String.length serialStr - 1) in
  toISOString now +:+ ":" +:+ prefix +:+ serialStr.

(** [clock] is what [new Date().getTime()] returns at the call. *)
Definition nextMessageUid (clock : Z) (st : UidState) : string * UidState :=
  let '(now, serial) :=
    match st with
    | Some (lastMessageStamp, lastMessageSerial) =>
        let now := if (lastMessageStamp >? clock)%Z
                   then lastMessageStamp else clock in
        if (lastMessageStamp =? now)%Z
        then (now, (lastMessageSerial + 1)%N)
        else (now, 0%N)
    | None => (clock, 0%N)
    end in
  (formatUid now serial, Some (now, serial)).

(** The uids of successive calls, at the given clock readings. *)
Fixpoint uids (clocks : list Z) (st : UidState) : list string :=
  match clocks with
  | [] => []
  | clock :: rest =>
      let '(uid, st') := nextMessageUid clock st in
      uid :: uids rest st'
  end.

End Uid.

(** [a < b] on JavaScript strings, for characters below U+0080. *)
Definition str_lt (a b : string) : bool := Stdlib.Strings.String.ltb a b.

(** ** IndiManager: the command sequencer *)

(** How an awaited wait ends; a cancelled token rejects with
    [CancelledError]. *)
Inductive WaitOutcome :=
| Resolved
| Rejected (e : Exn).

(** What an [await] of the sequencer waits for.  These are waits of the
    connection that take the cancellation token; how and when they end is
    up to the events that follow, and is an input of the continuation. *)
Inductive Awaited :=
| WaitForVectors (devId : string) (vectorIds : list string)
    (* this.waitForVectors(ct, devId, vectorIds) *)
| WaitNotBusy (cancellable : bool) (devId vectorId : string).
    (* connection.wait(ct, () => getVec().getState() !== "Busy"), with
       CancellationToken.CONTINUE when not cancellable *)

(** An [async] function, run up to its next [await] or to the settlement
    of its promise.  The continuation receives the outcome of the awaited
    wait and the state at the moment the function is resumed. *)
Inductive Step (S A : Type) :=
| Settled (r : Completion A) (s : S)
| Await (what : Awaited) (s : S) (k : WaitOutcome → S → Step S A).
Arguments Settled {S A} r s.
Arguments Await {S A} what s k.

(** The cancellation token given to a call. *)
Record Token := {
  isCancelled : bool;
  onCancelledHooks : list (string * string)
    (* the registered cancelators, by the device and vector they abort *)
}.

Definition getValidConnection (connection : bool) : Completion unit :=
  if connection then Normal tt
  else Thrown (Error "Indi server not connected").

(** The local function [getVec] of [setParam], [activate] and
    [pulseParam]. *)
Definition getVec (devId vectorId : string) (s : World) : Completion unit :=
  if bool_decide (vectorId ≠ "CONNECTION")
     && bool_decide (getPropertyValueIfExists devId "CONNECTION" "CONNECT" s
                     ≠ Some (Some "On"))
  then Thrown (Error ("Device is not connected : " +:+ devId))
  else Normal tt.

Definition isBusy (st : option string) : bool :=
  bool_decide (st = Some "Busy").

(** *** setParam *)

Abbreviation Values := (gmap string (option string)).

Inductive ValueProvider :=
| Static (value : Values)
| Computed (fn : World → Values).   (* reads the vector it is given *)

(** [Object.keys(value).sort()] *)
Definition sortedKeys (value : Values) : list string :=
  merge_sort String.le (map_to_list value).*1.

(** The loop filling [todo]. *)
Definition todoOf (force : bool) (devId vectorId : string) (value : Values)
  (s : World) : list Affectation :=
  omap (λ k,
          match value !! k with
          | Some (Some v) =>
              if force
                 || bool_decide (getPropertyValueIfExists devId vectorId k s
                                 ≠ Some (Some v))
              then Some {| a_name := k; a_value := v |}
              else None
          | _ => None
          end) (sortedKeys value).

Definition valueOf (valueProvider : ValueProvider) (s : World) : Values :=
  match valueProvider with
  | Static value => value
  | Computed fn => fn s
  end.

Definition register (hook : string * string) (ct : Token) : Token :=
  {| isCancelled := isCancelled ct;
     onCancelledHooks := onCancelledHooks ct ++ [hook] |}.

Fixpoint removeHook (hook : string * string) (l : list (string * string))
  : list (string * string) :=
  match l with
  | [] => []
  | h :: l' => if decide (h = hook) then l' else h :: removeHook hook l'
  end.

Definition unregister (hook : string * string) (ct : Token) : Token :=
  {| isCancelled := isCancelled ct;
     onCancelledHooks := removeHook hook (onCancelledHooks ct) |}.

(** [setParam] from [const vec = getVec()] on, that is once its first
    waits are over. *)
Definition setParam_set (devId vectorId : string)
  (valueProvider : ValueProvider) (force cancelator : bool)
  (st : World * Token) : Step (World * Token) (list Affectation) :=
  let '(s, ct) := st in
  match getVec devId vectorId s with
  | Thrown e => Settled (Thrown e) st
  | Normal _ =>
      match getState devId vectorId s with
      | Thrown e => Settled (Thrown e) st
      | Normal state =>
          if isBusy state then Settled (Thrown (Error "Device is busy")) st
          else
            let value := valueOf valueProvider s in
            let todo := todoOf force devId vectorId value s in
            match todo with
            | [] => Settled (Normal todo) st
            | _ :: _ =>
                match setValues devId vectorId todo s with
                | (Thrown e, s1) => Settled (Thrown e) (s1, ct)
                | (Normal _, s1) =>
                    if cancelator && isCancelled ct
                    then Settled (Thrown CancelledError) (s1, ct)
                    else
                      let hook := (devId, vectorId) in
                      let ct1 := if cancelator then register hook ct
                                 else ct in
                      Await (WaitNotBusy true devId vectorId) (s1, ct1)
                        (λ o st2,
                           let st3 :=
                             if cancelator
                             then (st2.1, unregister hook st2.2)
                             else st2 in
                           match o with
                           | Rejected e => Settled (Thrown e) st3
                           | Resolved =>
                               if cancelator && isCancelled st2.2
                               then Settled (Thrown CancelledError) st3
                               else Settled (Normal todo) st3
                           end)
                end
            end
      end
  end.

Definition setParam (connection : bool) (devId vectorId : string)
  (valueProvider : ValueProvider) (force nowait cancelator : bool)
  (st : World * Token) : Step (World * Token) (list Affectation) :=
  match getValidConnection connection with
  | Thrown e => Settled (Thrown e) st
  | Normal _ =>
      match getVec devId vectorId st.1 with
      | Thrown e => Settled (Thrown e) st
      | Normal _ =>
          Await (WaitForVectors devId [vectorId]) st
            (λ o1 st1,
               match o1 with
               | Rejected e => Settled (Thrown e) st1
               | Resolved =>
                   if nowait
                   then setParam_set devId vectorId valueProvider force
                          cancelator st1
                   else
                     Await (WaitNotBusy true devId vectorId) st1
                       (λ o2 st2,
                          match o2 with
                          | Rejected e => Settled (Thrown e) st2
                          | Resolved =>
                              setParam_set devId vectorId valueProvider
                                force cancelator st2
                          end)
               end)
      end
  end.

(** *** pulseParam *)

Definition propertyStopped (devId vectorId propId : string) : Exn :=
  Error ("Property stopped " +:+ devId +:+ "." +:+ vectorId +:+ "."
         +:+ propId).

(** The [try] and [finally] blocks of [pulseParam], from the outcome of
    the wait in the [try] block on. *)
Definition pulseParam_try (devId vectorId propId : string)
  (o3 : WaitOutcome) (s4 : World) : Step World unit :=
  match o3 with
  | Resolved =>
      (* selfStopped = true; throw; the finally block does nothing *)
      Settled (Thrown (propertyStopped devId vectorId propId)) s4
  | Rejected e =>
      (* finally, with selfStopped false *)
      match setValues devId vectorId
              [{| a_name := propId; a_value := "Off" |}] s4 with
      | (Thrown e', s5) => Settled (Thrown e') s5
      | (Normal _, s5) =>
          Await (WaitNotBusy false devId vectorId) s5 (λ o4 s6,
          match o4 with
          | Resolved => Settled (Thrown e) s6
          | Rejected e' => Settled (Thrown e') s6
          end)
      end
  end.

Definition pulseParam (connection : bool) (devId vectorId propId : string)
  (s : World) : Step World unit :=
  match getValidConnection connection with
  | Thrown e => Settled (Thrown e) s
  | Normal _ =>
  match getVec devId vectorId s with
  | Thrown e => Settled (Thrown e) s
  | Normal _ =>
  Await (WaitForVectors devId [vectorId]) s (λ o1 s1,
  match o1 with
  | Rejected e => Settled (Thrown e) s1
  | Resolved =>
  Await (WaitNotBusy true devId vectorId) s1 (λ o2 s2,
  match o2 with
  | Rejected e => Settled (Thrown e) s2
  | Resolved =>
  match getVec devId vectorId s2 with
  | Thrown e => Settled (Thrown e) s2
  | Normal _ =>
  match getState devId vectorId s2 with
  | Thrown e => Settled (Thrown e) s2
  | Normal state =>
  if isBusy state then Settled (Thrown (Error "Device is busy")) s2
  else
  (* let selfStopped = false *)
  match setValues devId vectorId
          [{| a_name := propId; a_value := "On" |}] s2 with
  | (Thrown e, s3) => Settled (Thrown e) s3
  | (Normal _, s3) =>
      Await (WaitNotBusy true devId vectorId) s3
        (pulseParam_try devId vectorId propId)
  end end end end) end) end end.

(** Resuming a suspended function; a settled one stays as it is. *)
Definition resume {S A} (st : Step S A) (o : WaitOutcome) (s : S)
  : Step S A :=
  match st with
  | Settled r s0 => Settled r s0
  | Await _ _ k => k o s
  end.

(** ** Runs of the connection *)

(** What happens to a connection over time: the events of its socket, a
    pending [nextTick] callback being run, and a client issuing a
    command.  What a [nextTick] callback throws reaches the event loop
    ([uncaught]); the run goes on from the state it left. *)
Inductive Event :=
| SocketConnect
| SocketClose
| SocketMessage (m : IndiMessage)   (* one decoded message *)
| Tick
| Command (device vectorId : string) (affectations : list Affectation).

Definition isSocketEvent (e : Event) : bool :=
  match e with
  | SocketConnect | SocketClose | SocketMessage _ => true
  | _ => false
  end.

Definition snapshotSize (s : World) : nat :=
  length (default [] (checkingListeners s)).

Definition perform (clients : Clients) (e : Event) (s : World)
  : World :=
  match e with
  | SocketConnect => onConnect s
  | SocketClose => onClose s
  | SocketMessage m => (onMessage m s).2
  | Tick =>
      match runNextTick clients (snapshotSize s) s with
      | Some (_, s') => s'
      | None => s
      end
  | Command device vectorId affectations =>
      (setValues device vectorId affectations s).2
  end.

Definition run (clients : Clients) (evs : list Event)
  (s : World) : World :=
  foldl (λ s e, perform clients e s) s evs.

(** ** Notions used by the statements *)

(** The child names a message defines for [device]/[vectorId], when it is
    a definition of that vector carrying its child array. *)
Definition definitionOf (device vectorId : string) (m : IndiMessage)
  : option (list string) :=
  match m_tag m, m_childs m with
  | defVector _, Some cs =>
      if bool_decide (key (m_device m) = device ∧ key (m_name m) = vectorId)
      then Some (map (λ c, key (c_name c)) cs)
      else None
  | _, _ => None
  end.

Definition latestDefinition (device vectorId : string)
  (msgs : list IndiMessage) : option (list string) :=
  last (omap (definitionOf device vectorId) msgs).

(** Whether [onMessage] runs to its last statement on [m]: not for a
    broadcast note, nor for a deletion or an update whose target is not in
    the tree, nor for an update or a definition without child array. *)
Definition reachesEnd (m : IndiMessage) (s : World) : bool :=
  match m_tag m with
  | message => false
  | defVector _ => bool_decide (is_Some (m_childs m))
  | delProperty =>
      match deviceTree s !! key (m_device m) with
      | None => false
      | Some dev =>
          match m_name m with
          | None => true
          | Some name => bool_decide (is_Some (dev !! name))
          end
      end
  | setVector _ =>
      match deviceTree s !! key (m_device m) with
      | None => false
      | Some dev =>
          bool_decide (is_Some (dev !! key (m_name m)))
          && bool_decide (is_Some (m_childs m))
      end
  end.

(** The entries of [value] that a call of [setParam] without [force] has
    to write: a string is provided and the vector does not hold it. *)
Definition differs (devId vectorId : string) (value : Values) (s : World)
  (a : Affectation) : Prop :=
  value !! a_name a = Some (Some (a_value a))
  ∧ getPropertyValueIfExists devId vectorId (a_name a) s
    ≠ Some (Some (a_value a)).

(** Strictly ascending keys. *)
Definition ascending (l : list Affectation) : Prop :=
  StronglySorted (λ a b, String.le (a_name a) (a_name b) ∧ a_name a ≠ a_name b)
    l.

(** The vector at [device]/[vectorId] in a tree, as [getVectorInTree]
    looks it up. *)
Definition vectorAt (t : DeviceTree) (device vectorId : string)
  : option VectorDef :=
  match t !! device with
  | None => None
  | Some dev => dev !! vectorId
  end.

(** Every vector of the tree has its children among the names of the
    latest definition of that vector. *)
Definition childrenDefined (msgs : list IndiMessage) (t : DeviceTree) : Prop :=
  ∀ device vectorId vecDef,
    vectorAt t device vectorId = Some vecDef →
    ∃ names, latestDefinition device vectorId msgs = Some names
             ∧ ∀ k, is_Some (childs vecDef !! k) → k ∈ names.

(** A state change that at most removes listeners from the snapshot of a
    running dispatch pass. *)
Definition shrinks (s s' : World) : Prop :=
  ∀ cl, checkingListeners s = Some cl →
        ∃ cl', checkingListeners s' = Some cl' ∧ cl' `sublist_of` cl.

(** The variable [listener] of each wait holds the closure of that wait. *)
Definition ownListeners (s : World) : Prop :=
  ∀ w wt l, waits s !! w = Some wt → w_listener wt = Some l →
            l = WaitListener w.

(** The callbacks that run during the call of a listener of the
    snapshot remove, if any listener at all, only that listener or
    listeners that are not part of the snapshot. *)
Definition removeOnlyThemselves (clients : Clients)
  (snapshot : list Listener) : Prop :=
  ∀ cb s f, listenerOf cb ∈ snapshot → CallRemoveListener f ∈ clients cb s →
            f = listenerOf cb ∨ f ∉ snapshot.

(** Calls that return normally, whatever the state. *)
Definition harmless (c : ClientCall) : Prop :=
  match c with
  | CallSetValues _ _ _ | CallThrow _ => False
  | _ => True
  end.

(** A callback gets to make the call [c]: nothing before it throws. *)
Definition reaches (c : ClientCall) (calls : list ClientCall) : Prop :=
  ∃ pre post, calls = pre ++ c :: post ∧ Forall harmless pre.

Definition isCommand (c : ClientCall) : bool :=
  match c with
  | CallSetValues _ _ _ => true
  | _ => false
  end.

(** No callback issues a command. *)
Definition noCommands (clients : Clients) : Prop :=
  ∀ cb s c, c ∈ clients cb s → isCommand c = false.

(** ** Further functions of the property model and of the connection *)

Definition isReadyForOrder (device vectorId : string) (s : World)
  : Completion bool :=
  match getState device vectorId s with
  | Normal state => Normal (negb (isBusy state))
  | Thrown e => Thrown e
  end.

Definition getPropertyLabelIfExists (device vectorId name : string)
  (s : World) : option (option string) :=
  match getVectorInTree device vectorId s with
  | None => None
  | Some vecDef =>
      match childs vecDef !! name with
      | None => None
      | Some prop => Some (c_label prop)
      end
  end.

(** The names of the children of a message. *)
Definition childKeys (cs : list Child) : list string :=
  map (λ c, key (c_name c)) cs.

(** The side of the state that faces the server. *)
Definition transport (s : World) : bool * bool * list XmlText * list XmlText :=
  (connected s, dead s, queue s, socket s).

(** Every vector of the tree carries a revision stamp taken after [rev0]
    and not ahead of the counter. *)
Definition stampsWithin (rev0 : N) (s : World) : Prop :=
  (rev0 ≤ globalRevisionId s)%N
  ∧ ∀ device vectorId vecDef,
      getVectorInTree device vectorId s = Some vecDef →
      (rev0 < v_rev vecDef ≤ globalRevisionId s)%N.

(** ** Notions about waits *)

(** The outcome of the wait number [w], if there is such a wait. *)
Definition outcomeOf (w : nat) (s : World) : option Settlement :=
  w_next <$> waits s !! w.

(** What the users of a connection and its socket do to it, one after
    the other: an event, a wait created and started, a wait cancelled. *)
Inductive Action :=
| Happens (e : Event)
| Waits (predicate : IndiPredicate) (allowDisconnectionState : bool)
| Cancels (w : nat).

(** What is chained on the Cancelable of the wait [w] runs when the wait
    settles; what it throws is the caller's to handle. *)
Definition thenChained (clients : Clients) (w : nat) (s s' : World) : World :=
  if settledBy w s s' then (call clients (Chained w) s').2 else s'.

Definition act (clients : Clients) (a : Action) (s : World)
  : World :=
  match a with
  | Happens e => perform clients e s
  | Waits predicate allowDisconnectionState =>
      let '(w, s1) := wait predicate allowDisconnectionState s in
      thenChained clients w s1 (start w s1).2
  | Cancels w => thenChained clients w s (cancel w s)
  end.

Definition acts (clients : Clients) (l : list Action)
  (s : World) : World :=
  foldl (λ s a, act clients a s) s l.

Definition isWaitListener (f : Listener) : bool :=
  match f with
  | WaitListener _ => true
  | _ => false
  end.

(** The callbacks of other modules register callbacks of their own kind
    only: the closure of a wait is known to that wait alone. *)
Definition addOnlyClients (clients : Clients) : Prop :=
  ∀ cb s f, CallAddListener f ∈ clients cb s → isWaitListener f = false.

(** The listeners of waits are registered once, for waits that are active
    and know them; waits are numbered below [waiterId]. *)
Definition waitsRegistered (s : World) : Prop :=
  ownListeners s
  ∧ NoDup (filter (λ f, isWaitListener f = true) (listeners s))
  ∧ (∀ w, WaitListener w ∈ listeners s →
          ∃ wt, waits s !! w = Some wt ∧ w_next wt = Active
                ∧ w_listener wt = Some (WaitListener w))
  ∧ (∀ w, is_Some (waits s !! w) → w < waiterId s).

(** The registrations of a connection. *)
Definition registry (s : World) : list Listener * gmap nat Waiter * nat :=
  (listeners s, waits s, waiterId s).

(** ** IndiManager: the notes kept in the status *)

(** The state [nextMessageUid] leaves after successive calls at the given
    clock readings. *)
Definition uidStateAfter (toISOString : Z → string) (clocks : list Z)
  (st : UidState) : UidState :=
  foldl (λ st clock, (nextMessageUid toISOString clock st).2) st clocks.

(** [(stamp, serial)] pairs, by stamp first. *)
Definition stampBefore (a b : Z * N) : Prop :=
  (a.1 < b.1)%Z ∨ (a.1 = b.1 ∧ (a.2 < b.2)%N).

(** [{...m, uid}] *)
Record Note := {
  n_message : IndiMessage;
  n_uid : string
}.

(** What [addMessage] reads and writes: [currentStatus.messages.byUid] and
    the two fields behind [nextMessageUid]. *)
Record Notes := {
  byUid : gmap string Note;
  lastMessage : UidState
}.

(** The constructor's. *)
Definition noNotes : Notes := {| byUid := ∅; lastMessage := None |}.

Definition maxMessages : nat := 100.

(** [cleanupMessages], on [byUid]: [Object.keys], sorted when there are
    too many, the first ones deleted. *)
Definition cleanupMessages (m : gmap string Note) : gmap string Note :=
  let keys := (map_to_list m).*1 in
  if maxMessages <? length keys
  then foldl (λ m k, delete k m) m
         (take (length keys - maxMessages) (merge_sort String.le keys))
  else m.

Definition addMessage (toISOString : Z → string) (clock : Z)
  (m : IndiMessage) (st : Notes) : Notes :=
  let '(uid, u) := nextMessageUid toISOString clock (lastMessage st) in
  {| byUid := cleanupMessages
                (<[uid := {| n_message := m; n_uid := uid |}]> (byUid st));
     lastMessage := u |}.

(** The message listener [lifecycle] registers: [addMessage], then
    [cleanupMessages] once more. *)
Definition onNote (toISOString : Z → string) (clock : Z) (m : IndiMessage)
  (st : Notes) : Notes :=
  let st1 := addMessage toISOString clock m st in
  {| byUid := cleanupMessages (byUid st1); lastMessage := lastMessage st1 |}.

(** At most [maxMessages] notes, each under the uid it carries. *)
Definition notesOk (st : Notes) : Prop :=
  size (byUid st) ≤ maxMessages
  ∧ ∀ k n, byUid st !! k = Some n → n_uid n = k.

(** ** Runs of a sequencer function *)

(** A suspended function resumed once for each input: the outcome of the
    wait it is suspended on, and the state when it runs again. *)
Definition resumeAll {S A} (st : Step S A) (inputs : list (WaitOutcome * S))
  : Step S A :=
  foldl (λ st i, resume st i.1 i.2) st inputs.

(** ** IndiManager: connectDevice and disconnectDevice *)

(** How these two functions begin: up to their first suspension, which is
    inside the [setParam] they call. *)
Inductive Order :=
| Refused (e : Exn)          (* thrown before anything was sent *)
| NothingToDo                (* return; *)
| Calls (call : Step (World * Token) (list Affectation)).
                             (* await this.setParam(ct, ...) *)

(** [connectDevice], up to the settlement of its first [setParam]; the
    [setParam] on CONFIG_PROCESS that follows is not part of it. *)
Definition connectDevice (connection : bool) (device : string)
  (st : World * Token) : Order :=
  match getValidConnection connection with
  | Thrown e => Refused e
  | Normal _ =>
      match isReadyForOrder device "CONNECTION" st.1 with
      | Thrown e => Refused e
      | Normal false => Refused (Raw "Connection already pending")
      | Normal true =>
          match getPropertyValue device "CONNECTION" "CONNECT" st.1 with
          | Thrown e => Refused e
          | Normal v =>
              if bool_decide (v = Some "On") then NothingToDo
              else Calls (setParam connection device "CONNECTION"
                            (Static {[ "CONNECT" := Some "On" ]})
                            false false false st)
          end
      end
  end.

Definition disconnectDevice (connection : bool) (device : string)
  (st : World * Token) : Order :=
  match getValidConnection connection with
  | Thrown e => Refused e
  | Normal _ =>
      match isReadyForOrder device "CONNECTION" st.1 with
      | Thrown e => Refused e
      | Normal false => Refused (Raw "Connection already pending")
      | Normal true =>
          match getPropertyValue device "CONNECTION" "CONNECT" st.1 with
          | Thrown e => Refused e
          | Normal v =>
              if bool_decide (v = Some "Off") then NothingToDo
              else Calls (setParam connection device "CONNECTION"
                            (Static {[ "DISCONNECT" := Some "On" ]})
                            false false false st)
          end
      end
  end.

(** The command that sets the single switch [name] of CONNECTION. *)
Definition connectionCommand (kind : VectorKind) (device name : string)
  : XmlText :=
  toXml {| o_kind := kind; o_device := device; o_name := "CONNECTION";
           o_ones := [{| a_name := name; a_value := "On" |}] |}.

(** ** IndiManager: the preferred device selector *)

(** What [params.read(id)] returns. *)
Record SelectorStatus := {
  available : list string;
  current : option string;     (* string|null *)
  prefered : option string     (* string|null *)
}.

Definition set_current (c : option string) (status : SelectorStatus)
  : SelectorStatus :=
  {| available := available status; current := c;
     prefered := prefered status |}.

(** A field of the object given to [params.set]: [string|null|undefined]. *)
Inductive Given := Unset | Null | Str (x : string).

#[global] Instance Given_eq_dec : EqDecision Given.
Proof. solve_decision. Defined.

Record Selection := {
  sel_current : Given;
  sel_prefered : Given
}.

(** [update(id)] of [createMultiPreferredDeviceSelector], from what
    [params.read(id)] returned: [None] when that was null; otherwise the
    status object as the function leaves it, and the argument of
    [params.set] when it is called. *)
Definition update (read : option SelectorStatus)
  : option (SelectorStatus * option Selection) :=
  match read with
  | None => None
  | Some status =>
      let '(newCurrent, newPrefered, status) :=
        match current status with
        | Some c =>
            if bool_decide (c ∈ available status)
            then (Unset,
                  if bool_decide (prefered status ≠ Some c)
                  then Str c else Unset,
                  status)
            else (Null, Unset, set_current None status)
        | None => (Unset, Unset, status)
        end in
      let '(newCurrent, status) :=
        match current status, prefered status with
        | None, Some p =>
            if bool_decide (p ∈ available status)
            then (Str p, set_current (Some p) status)
            else (newCurrent, status)
        | _, _ => (newCurrent, status)
        end in
      Some (status,
            if bool_decide (newCurrent ≠ Unset ∨ newPrefered ≠ Unset)
            then Some {| sel_current := newCurrent;
                         sel_prefered := newPrefered |}
            else None)
  end.

(** A field as a [set] callback that stores what it is given leaves it:
    an undefined field is not written. *)
Definition given (g : Given) (old : option string) : option string :=
  match g with
  | Unset => old
  | Null => None
  | Str x => Some x
  end.

Definition stored (call : option Selection) (status : SelectorStatus)
  : SelectorStatus :=
  match call with
  | None => status
  | Some sel =>
      {| available := available status;
         current := given (sel_current sel) (current status);
         prefered := given (sel_prefered sel) (prefered status) |}
  end.

(** ** Message listeners *)

(** The side of the state that faces the message listeners. *)
Definition inbox (s : World)
  : list MessageListener * list (nat * IndiMessage) :=
  (messageListeners s, delivered s).

(** The calls of the message listeners [ls] that an event is to cause:
    one for each of them, in their order, when the event is a decoded
    [message] element. *)
Definition notesOf (ls : list MessageListener) (e : Event)
  : list (nat * IndiMessage) :=
  match e with
  | SocketMessage m =>
      match m_tag m with
      | message => map (λ l, (ml_id l, m)) ls
      | _ => []
      end
  | _ => []
  end.

(** ** Sample states and messages *)

Definition ccdConnection : VectorDef :=
  {| v_type := Switch; v_state := Some "Idle"; v_timeout := None;
     v_timestamp := None; v_message := None; v_rev := 1;
     childs := {[ "CONNECT" := {| c_name := Some "CONNECT"; c_label := None;
                                  c_text := Some "Off" |} ]};
     childNames := [Some "CONNECT"] |}.

Definition setExposure : IndiMessage :=
  {| m_tag := setVector Number; m_device := Some "CCD";
     m_name := Some "CCD_EXPOSURE"; m_state := Some "Ok"; m_timeout := None;
     m_timestamp := None; m_message := None;
     m_childs := Some [{| c_name := Some "CCD_EXPOSURE_VALUE";
                          c_label := None; c_text := Some "1" |}] |}.

Definition ccdOnly : World :=
  set_deviceTree {[ "CCD" := {[ "CONNECTION" := ccdConnection ]} ]}
    (newIndiConnection 1).

Definition defConnection : IndiMessage :=
  {| m_tag := defVector Switch; m_device := Some "CCD";
     m_name := Some "CONNECTION"; m_state := Some "Idle"; m_timeout := None;
     m_timestamp := None; m_message := None;
     m_childs := Some [{| c_name := Some "CONNECT"; c_label := None;
                          c_text := Some "Off" |};
                       {| c_name := Some "DISCONNECT"; c_label := None;
                          c_text := Some "On" |}] |}.

Definition setConnection : IndiMessage :=
  {| m_tag := setVector Switch; m_device := Some "CCD";
     m_name := Some "CONNECTION"; m_state := Some "Ok"; m_timeout := None;
     m_timestamp := None; m_message := None;
     m_childs := Some [{| c_name := Some "CONNECT"; c_label := None;
                          c_text := Some "On" |};
                       {| c_name := Some "UNHEARD_OF"; c_label := None;
                          c_text := Some "On" |}] |}.

(** Two callbacks; the one registered last removes the other. *)
Definition rivals : Clients :=
  λ cb _, match cb with
          | Named 1 => [CallRemoveListener (Client 0)]
          | _ => []
          end.

Definition twoListeners : World :=
  addListener (Client 1) (addListener (Client 0) (newIndiConnection 0)).

(** Callbacks that remove themselves when called. *)
Definition oneShots : Clients :=
  λ cb _, match cb with
          | Named id => [CallRemoveListener (Client id)]
          | _ => []
          end.

(** [() => vector.getState() != "Busy"] *)
Definition notBusy (device vectorId : string) : IndiPredicate :=
  λ t _, match vectorAt t device vectorId with
         | None => Throws (notFound device vectorId)
         | Some vecDef => if isBusy (v_state vecDef) then Falsy else Truthy
         end.

Definition noClients : Clients := λ _ _, [].

(** A [message] element of the device CCD. *)
Definition ccdNote : IndiMessage :=
  {| m_tag := message; m_device := Some "CCD"; m_name := None;
     m_state := None; m_timeout := None; m_timestamp := None;
     m_message := Some "Exposure done"; m_childs := None |}.

(** Two message listeners that unregister nothing. *)
Definition loggers : list MessageListener :=
  [{| ml_id := 0; ml_unregisters := [] |};
   {| ml_id := 1; ml_unregisters := [] |}].

(** The manager's connection, connected, with the vector CCD/CONNECTION
    defined and its dispatch pass done. *)
Definition managed : World :=
  run noClients [SocketConnect; SocketMessage defConnection; Tick]
    (addListener RefreshStatus (newIndiConnection 0)).

(** A client asks for CONNECT=On and waits for the vector to leave Busy. *)
Definition waitingForConnect : World :=
  let s1 := run noClients
              [Command "CCD" "CONNECTION"
                 [{| a_name := "CONNECT"; a_value := "On" |}]] managed in
  let '(w, s2) := wait (notBusy "CCD" "CONNECTION") false s1 in
  (start w s2).2.

(** The socket closes, and the dispatch pass it schedules runs. *)
Definition afterClose : World :=
  run noClients [SocketClose; Tick] waitingForConnect.

Definition freshToken : Token :=
  {| isCancelled := false; onCancelledHooks := [] |}.

(** CONNECT is to become "On"; DISCONNECT is asked for the value it has;
    nothing is asked for CONFIG. *)
Definition connectValues : Values :=
  {[ "DISCONNECT" := Some "On"; "CONNECT" := Some "On"; "CONFIG" := None ]}.

Definition defMotion : IndiMessage :=
  {| m_tag := defVector Switch; m_device := Some "CCD";
     m_name := Some "TELESCOPE_MOTION_NS"; m_state := Some "Idle";
     m_timeout := None; m_timestamp := None; m_message := None;
     m_childs := Some [{| c_name := Some "MOTION_NORTH"; c_label := None;
                          c_text := Some "Off" |};
                       {| c_name := Some "MOTION_SOUTH"; c_label := None;
                          c_text := Some "Off" |}] |}.

(** The server reports the motion vector Ok again, MOTION_NORTH "On". *)
Definition setMotionOk : IndiMessage :=
  {| m_tag := setVector Switch; m_device := Some "CCD";
     m_name := Some "TELESCOPE_MOTION_NS"; m_state := Some "Ok";
     m_timeout := None; m_timestamp := None; m_message := None;
     m_childs := Some [{| c_name := Some "MOTION_NORTH"; c_label := None;
                          c_text := Some "On" |}] |}.

(** A connected device with a motion vector, idle. *)
Definition tracking : World :=
  run noClients
    [SocketConnect; SocketMessage defConnection; SocketMessage setConnection;
     SocketMessage defMotion; Tick]
    (addListener RefreshStatus (newIndiConnection 0)).

(** [pulseParam] on MOTION_NORTH, its first two waits resolved. *)
Definition pulsing : Step World unit :=
  resume
    (resume (pulseParam true "CCD" "TELESCOPE_MOTION_NS" "MOTION_NORTH"
               tracking) Resolved tracking)
    Resolved tracking.

Definition stateOf {A} (st : Step World A) : World :=
  match st with
  | Settled _ s => s
  | Await _ s _ => s
  end.

(** The update [setMotionOk] arrives while [pulsing] waits. *)
Definition stopped : World :=
  run noClients [SocketMessage setMotionOk; Tick] (stateOf pulsing).

Definition motionNorth (v : string) : XmlText :=
  toXml {| o_kind := Switch; o_device := "CCD";
           o_name := "TELESCOPE_MOTION_NS";
           o_ones := [{| a_name := "MOTION_NORTH"; a_value := v |}] |}.

(** The connection after the definition of CCD/CONNECTION, and that
    vector as the definition left it. *)
Definition justDefined : World :=
  (onMessage defConnection (newIndiConnection 0)).2.

Definition connectionAsDefined : VectorDef :=
  {| v_type := Switch; v_state := Some "Idle"; v_timeout := None;
     v_timestamp := None; v_message := None; v_rev := 1;
     childs := indexChilds
                 [{| c_name := Some "CONNECT"; c_label := None;
                     c_text := Some "Off" |};
                  {| c_name := Some "DISCONNECT"; c_label := None;
                     c_text := Some "On" |}];
     childNames := [Some "CONNECT"; Some "DISCONNECT"] |}.

(** An update of CCD/CONNECTION that carries no child element. *)
Definition busyWithoutChildren : IndiMessage :=
  {| m_tag := setVector Switch; m_device := Some "CCD";
     m_name := Some "CONNECTION"; m_state := Some "Busy"; m_timeout := None;
     m_timestamp := None; m_message := None; m_childs := None |}.

Definition delConnection : IndiMessage :=
  {| m_tag := delProperty; m_device := Some "CCD";
     m_name := Some "CONNECTION"; m_state := None; m_timeout := None;
     m_timestamp := None; m_message := None; m_childs := None |}.

Definition delDevice : IndiMessage :=
  {| m_tag := delProperty; m_device := Some "CCD"; m_name := None;
     m_state := None; m_timeout := None; m_timestamp := None;
     m_message := None; m_childs := None |}.

(** A tree holding CCD/CONNECTION alone, the device connected. *)
Definition connectOn : Child :=
  {| c_name := Some "CONNECT"; c_label := None; c_text := Some "On" |}.

Definition ccdConnectionOn : VectorDef :=
  {| v_type := Switch; v_state := Some "Ok"; v_timeout := None;
     v_timestamp := None; v_message := None; v_rev := 2;
     childs := {[ "CONNECT" := connectOn;
                  "DISCONNECT" := {| c_name := Some "DISCONNECT";
                                     c_label := None;
                                     c_text := Some "Off" |} ]};
     childNames := [Some "CONNECT"; Some "DISCONNECT"] |}.

Definition ccdConnected : World :=
  set_deviceTree {[ "CCD" := {[ "CONNECTION" := ccdConnectionOn ]} ]}
    (newIndiConnection 2).

(** * Properties *)

(** ** Helper facts on the state *)

Lemma checkListeners_deviceTree s :
  deviceTree (checkListeners s) = deviceTree s.
Proof. unfold checkListeners. destruct (listeners s); reflexivity. Qed.

Lemma checkListeners_globalRevisionId s :
  globalRevisionId (checkListeners s) = globalRevisionId s.
Proof. unfold checkListeners. destruct (listeners s); reflexivity. Qed.

Lemma checkListeners_snapshot s :
  checkingListeners (checkListeners s) = Some (listeners s).
Proof. unfold checkListeners. destruct (listeners s); reflexivity. Qed.

Lemma checkListeners_nextTick s :
  nextTick (checkListeners s)
  = match listeners s with [] => nextTick s | _ :: _ => S (nextTick s) end.
Proof. unfold checkListeners. destruct (listeners s); reflexivity. Qed.

Lemma flushQueue_globalRevisionId s :
  globalRevisionId (flushQueue s) = globalRevisionId s.
Proof. unfold flushQueue. destruct (connected s); reflexivity. Qed.

Lemma flushQueue_deviceTree s : deviceTree (flushQueue s) = deviceTree s.
Proof. unfold flushQueue. destruct (connected s); reflexivity. Qed.

Lemma flushQueue_outbox s : outbox (flushQueue s) = outbox s.
Proof.
  unfold flushQueue, outbox. destruct (connected s); simpl; [|reflexivity].
  by rewrite app_nil_r.
Qed.

Lemma queueMessage_outbox msg s :
  outbox (queueMessage msg s) = outbox s ++ [msg].
Proof.
  unfold queueMessage. rewrite flushQueue_outbox. unfold outbox. simpl.
  by rewrite app_assoc.
Qed.

(** [dispatchMessage] changes the message listeners and the record of
    their calls, nothing else. *)
Lemma dispatchFrom_shape n i m s :
  ∃ l d, dispatchFrom n i m s = set_delivered d (set_messageListeners l s).
Proof.
  revert i s. induction n as [|n IH]; intros i s.
  - exists (messageListeners s), (delivered s). by destruct s.
  - simpl. destruct (messageListeners s !! i) as [l|].
    + set (s1 := set_delivered _ s).
      assert (∀ ids s0 l0 d0, s0 = set_delivered d0 (set_messageListeners l0 s) →
                ∃ l' d', foldl (λ s id, removeMessageListener id s) s0 ids
                         = set_delivered d' (set_messageListeners l' s))
        as Hfold.
      { intros ids. induction ids as [|id ids IHids]; intros s0 l0 d0 ->.
        - by exists l0, d0.
        - simpl. eapply IHids. reflexivity. }
      destruct (Hfold (ml_unregisters l) s1 (messageListeners s)
                  (delivered s ++ [(ml_id l, m)])) as (l' & d' & Heq).
      { by destruct s. }
      rewrite Heq. destruct (IH (S i) (set_delivered d' (set_messageListeners l' s)))
        as (l'' & d'' & ->).
      by exists l'', d''.
    + exists (messageListeners s), (delivered s). by destruct s.
Qed.

Lemma dispatchMessage_shape m s :
  ∃ l d, dispatchMessage m s = set_delivered d (set_messageListeners l s).
Proof. apply dispatchFrom_shape. Qed.

(** ** Vector.setValues *)

(** C10. Calling [setValues] on a vector that is not in the tree (its
    device missing, or the vector missing under it) throws "Property not
    found: device/vector" and leaves the whole state as it was: no vector
    is marked Busy and nothing is queued or written. *)
Theorem setValues_absent_throws device vectorId affectations s :
  getVectorInTree device vectorId s = None →
  setValues device vectorId affectations s
  = (Thrown (Error ("Property not found: " +:+ device +:+ "/" +:+ vectorId)),
     s).
Proof.
  intros Habsent. unfold setValues, getExistingVectorInTree.
  rewrite Habsent. reflexivity.
Qed.

Lemma setValues_absent_throws_witness :
  setValues "CCD" "CONNECTION" [{| a_name := "CONNECT"; a_value := "On" |}]
    (newIndiConnection 0)
  = (Thrown (Error "Property not found: CCD/CONNECTION"),
     newIndiConnection 0).
Proof.
  apply (setValues_absent_throws "CCD" "CONNECTION"
           [{| a_name := "CONNECT"; a_value := "On" |}] (newIndiConnection 0)).
  reflexivity.
Defined.

(** What [setValues] does on a vector that is there. *)
Lemma setValues_present device vectorId affectations s vecDef :
  getVectorInTree device vectorId s = Some vecDef →
  ∃ s', setValues device vectorId affectations s = (Normal tt, s')
        ∧ outbox s'
          = outbox s ++ [toXml {| o_kind := v_type vecDef;
                                  o_device := device; o_name := vectorId;
                                  o_ones := affectations |}]
        ∧ getState device vectorId s' = Normal (Some "Busy").
Proof.
  intros Hin. unfold setValues, getExistingVectorInTree. rewrite Hin.
  eexists. split; [reflexivity|]. split.
  - by rewrite queueMessage_outbox.
  - unfold getState, getExistingVectorInTree, getVectorInTree, queueMessage.
    rewrite flushQueue_deviceTree. simpl. unfold storeVector.
    rewrite lookup_insert_eq. by rewrite lookup_insert_eq.
Qed.

Lemma setValues_globalRevisionId device vectorId affectations s :
  globalRevisionId (setValues device vectorId affectations s).2
  = globalRevisionId s.
Proof.
  unfold setValues. destruct (getExistingVectorInTree _ _ _); [|reflexivity].
  simpl. unfold queueMessage. by rewrite flushQueue_globalRevisionId.
Qed.

(** ** onMessage *)

(** C8. An update ([set<Kind>Vector]) whose device, or whose vector under
    that device, is not in the tree is ignored: [onMessage] returns
    normally, and the state it leaves differs from the one it found by the
    revision counter only; the device tree is unchanged. *)
Theorem onMessage_set_unknown_ignored m kind s :
  m_tag m = setVector kind →
  getVectorInTree (key (m_device m)) (key (m_name m)) s = None →
  onMessage m s = (Normal tt, bump s)
  ∧ deviceTree (onMessage m s).2 = deviceTree s.
Proof.
  intros Htag Hunknown.
  assert (onMessage m s = (Normal tt, bump s)) as Heq.
  { unfold onMessage. rewrite Htag.
    unfold getVectorInTree in Hunknown.
    change (deviceTree (bump s)) with (deviceTree s).
    destruct (deviceTree s !! key (m_device m)) as [dev|]; [|reflexivity].
    rewrite Hunknown. reflexivity. }
  rewrite Heq. split; reflexivity.
Qed.

Lemma onMessage_set_unknown_ignored_witness :
  onMessage setExposure ccdOnly = (Normal tt, bump ccdOnly)
  ∧ deviceTree (onMessage setExposure ccdOnly).2 = deviceTree ccdOnly.
Proof.
  apply (onMessage_set_unknown_ignored setExposure Number ccdOnly).
  - reflexivity.
  - vm_compute. reflexivity.
Defined.

Lemma onMessage_globalRevisionId m s :
  globalRevisionId (onMessage m s).2 = (globalRevisionId s + 1)%N.
Proof.
  unfold onMessage. change (deviceTree (bump s)) with (deviceTree s).
  destruct (m_tag m) as [k|k| |];
    [| | |simpl; by destruct (dispatchMessage_shape m (bump s))
                      as (l & d & ->)].
  - destruct (m_childs m); [|reflexivity].
    simpl. by rewrite checkListeners_globalRevisionId.
  - destruct (deviceTree s !! key (m_device m)) as [dev|]; [|reflexivity].
    destruct (dev !! key (m_name m)); [|reflexivity].
    destruct (m_childs m); [|reflexivity].
    simpl. by rewrite checkListeners_globalRevisionId.
  - destruct (deviceTree s !! key (m_device m)) as [dev|]; [|reflexivity].
    destruct (m_name m) as [name|].
    + destruct (dev !! name); [|reflexivity].
      simpl. by rewrite checkListeners_globalRevisionId.
    + simpl. by rewrite checkListeners_globalRevisionId.
Qed.

(** The messages that [onMessage] leaves before its end. *)
Lemma reachesEnd_ignored m s :
  (m_tag m = message → reachesEnd m s = false)
  ∧ (∀ kind, m_tag m = setVector kind →
       getVectorInTree (key (m_device m)) (key (m_name m)) s = None →
       reachesEnd m s = false)
  ∧ (m_tag m = delProperty →
       deviceTree s !! key (m_device m) = None
       ∨ (∃ name, m_name m = Some name
                  ∧ getVectorInTree (key (m_device m)) name s = None) →
       reachesEnd m s = false).
Proof.
  unfold reachesEnd, getVectorInTree. split; [by intros ->|]. split.
  - intros kind -> Hunknown.
    destruct (deviceTree s !! key (m_device m)) as [dev|]; [|reflexivity].
    rewrite Hunknown.
    by rewrite (bool_decide_eq_false_2 (is_Some None))
      by (intros [? ?]; discriminate).
  - intros -> [Hdev|(name & Hname & Hunknown)].
    + by rewrite Hdev.
    + rewrite Hname.
      destruct (deviceTree s !! key (m_device m)) as [dev|]; [|reflexivity].
      rewrite Hunknown.
      by rewrite bool_decide_eq_false_2 by (intros [? ?]; discriminate).
Qed.

(** C9. [onMessage] adds exactly one to the revision counter for every
    decoded message, whatever it is.  It calls [checkListeners] (snapshot
    of the listeners, and a dispatch pass scheduled when there is a
    listener) exactly for the messages on which it runs to its end;
    for the others (see [reachesEnd]: broadcast notes, updates and
    deletions of an unknown target) it returns before, so that the
    snapshot and the scheduled passes are as they were. *)
Theorem onMessage_revision_and_dispatch m s :
  globalRevisionId (onMessage m s).2 = (globalRevisionId s + 1)%N
  ∧ (if reachesEnd m s
     then ∃ s0, (onMessage m s).2 = checkListeners s0
                ∧ listeners s0 = listeners s
                ∧ nextTick s0 = nextTick s
     else checkingListeners (onMessage m s).2 = checkingListeners s
          ∧ nextTick (onMessage m s).2 = nextTick s
          ∧ listeners (onMessage m s).2 = listeners s)
  ∧ (m_tag m = message → reachesEnd m s = false)
  ∧ (∀ kind, m_tag m = setVector kind →
       getVectorInTree (key (m_device m)) (key (m_name m)) s = None →
       reachesEnd m s = false)
  ∧ (m_tag m = delProperty →
       deviceTree s !! key (m_device m) = None
       ∨ (∃ name, m_name m = Some name
                  ∧ getVectorInTree (key (m_device m)) name s = None) →
       reachesEnd m s = false).
Proof.
  split; [apply onMessage_globalRevisionId|].
  split; [|apply reachesEnd_ignored].
  unfold onMessage, reachesEnd.
  change (deviceTree (bump s)) with (deviceTree s).
  destruct (m_tag m) as [k|k| |].
  - (* definition *)
    destruct (m_childs m) as [cs|].
    + rewrite bool_decide_eq_true_2 by eauto. simpl.
      eexists. split; [reflexivity|]. split; reflexivity.
    + rewrite bool_decide_eq_false_2 by (intros [? ?]; discriminate).
      simpl. repeat split.
  - (* update *)
    destruct (deviceTree s !! key (m_device m)) as [dev|];
      [|simpl; repeat split].
    destruct (dev !! key (m_name m)) as [prop|].
    + rewrite (bool_decide_eq_true_2 (is_Some (Some prop))) by eauto.
      destruct (m_childs m) as [updates|].
      * rewrite bool_decide_eq_true_2 by eauto. simpl.
        eexists. split; [reflexivity|]. split; reflexivity.
      * rewrite bool_decide_eq_false_2 by (intros [? ?]; discriminate).
        simpl. repeat split.
    + rewrite (bool_decide_eq_false_2 (is_Some None))
        by (intros [? ?]; discriminate).
      simpl. repeat split.
  - (* deletion *)
    destruct (deviceTree s !! key (m_device m)) as [dev|];
      [|simpl; repeat split].
    destruct (m_name m) as [name|].
    + destruct (dev !! name) as [v|].
      * rewrite bool_decide_eq_true_2 by eauto. simpl.
        eexists. split; [reflexivity|]. split; reflexivity.
      * rewrite bool_decide_eq_false_2 by (intros [? ?]; discriminate).
        simpl. repeat split.
    + simpl. eexists. split; [reflexivity|]. split; reflexivity.
  - (* broadcast note *)
    simpl. destruct (dispatchMessage_shape m (bump s)) as (l & d & ->).
    repeat split.
Qed.


(** ** The revision counter *)

(** *** What every dispatch pass preserves

    A relation between the states before and after that holds across the
    steps a pass is made of holds across the pass, whatever the callbacks
    do with the calls that are [allowed]. *)
Section Preserved.

Variable clients : Clients.
Variable P : World → World → Prop.
Variable allowed : ClientCall → Prop.

Hypothesis P_refl : ∀ s, P s s.
Hypothesis P_trans : ∀ s1 s2 s3, P s1 s2 → P s2 s3 → P s1 s3.
Hypothesis P_clientCall : ∀ c s, allowed c → P s (clientCall c s).2.
Hypothesis P_waitListener : ∀ w s, P s (waitListener w s).
Hypothesis P_status : ∀ st s, P s (set_status st s).
Hypothesis P_clear : ∀ s, connected s = false → P s (set_deviceTree ∅ s).
Hypothesis P_pop :
  ∀ s cl, checkingListeners s = Some cl →
          P s (set_checkingListeners (Some (removelast cl)) s).
Hypothesis P_uncaught : ∀ u s, P s (set_uncaught u s).
Hypothesis P_nextTick : ∀ n s, P s (set_nextTick n s).

Lemma runCalls_preserved calls s :
  (∀ c, c ∈ calls → allowed c) → P s (runCalls calls s).2.
Proof.
  revert s. induction calls as [|c calls IH]; intros s Hcalls; [apply P_refl|].
  simpl. pose proof (P_clientCall c s) as Hc.
  destruct (clientCall c s) as [[[]|e] s1]; simpl in *.
  - eapply P_trans; [apply Hc, Hcalls; by left|].
    apply IH. intros c' Hc'. apply Hcalls. by right.
  - apply Hc, Hcalls. by left.
Qed.

Hypothesis allowed_all : ∀ cb s c, c ∈ clients cb s → allowed c.

Lemma call_preserved cb s : P s (call clients cb s).2.
Proof. apply runCalls_preserved. intros c. apply allowed_all. Qed.

Lemma connectionListeners_preserved os s :
  P s (foldl (λ s o, if bool_decide (o ∈ connectionListener s)
                     then (call clients (OnConnection o) s).2
                     else s) s os).
Proof.
  revert s. induction os as [|o os IH]; intros s; [apply P_refl|].
  simpl. eapply P_trans; [|apply IH].
  case_bool_decide; [apply call_preserved|apply P_refl].
Qed.

Lemma refreshStatus_preserved s : P s (refreshStatus clients true s).
Proof.
  unfold refreshStatus. simpl.
  eapply P_trans; [|apply connectionListeners_preserved].
  destruct (connected s) eqn:Hc; simpl; [apply P_status|].
  eapply P_trans; [by apply P_clear|apply P_status].
Qed.

Lemma invoke_preserved todo s : P s (invoke clients todo s).2.
Proof.
  destruct todo as [w| |id]; simpl.
  - destruct (settledBy w s (waitListener w s)); simpl.
    + eapply P_trans; [apply P_waitListener|apply call_preserved].
    + apply P_waitListener.
  - apply refreshStatus_preserved.
  - apply call_preserved.
Qed.

Lemma checkingLoop_preserved fuel s called s' :
  checkingLoop clients fuel s = Some (called, s') → P s s'.
Proof.
  revert s called s'. induction fuel as [|fuel IH]; intros s called s' Hrun.
  - simpl in Hrun. destruct (checkingListeners s) as [cl|];
      [destruct (last cl); [discriminate|]|]; simplify_eq; apply P_refl.
  - simpl in Hrun. destruct (checkingListeners s) as [cl|] eqn:Hcl;
      [|simplify_eq; apply P_refl].
    destruct (last cl) as [todo|]; [|simplify_eq; apply P_refl].
    pose proof (invoke_preserved todo
                  (set_checkingListeners (Some (removelast cl)) s)) as Hinv.
    destruct (invoke clients todo _) as [[[]|e] s2]; simpl in Hinv.
    + destruct (checkingLoop clients fuel s2) as [[called' s3]|] eqn:Hrec;
        [|discriminate].
      simplify_eq. eapply P_trans; [by apply P_pop|].
      eapply P_trans; [exact Hinv|]. by eapply IH.
    + simplify_eq. eapply P_trans; [by apply P_pop|].
      eapply P_trans; [exact Hinv|apply P_uncaught].
Qed.

Lemma tick_preserved s : P s (perform clients Tick s).
Proof.
  simpl. unfold runNextTick. destruct (nextTick s) as [|n]; [apply P_refl|].
  destruct (checkingLoop _ _ _) as [[called s']|] eqn:Hrun; [|apply P_refl].
  eapply P_trans; [apply (P_nextTick n)|].
  by eapply checkingLoop_preserved.
Qed.

End Preserved.

Lemma removeListener_globalRevisionId f s :
  globalRevisionId (removeListener f s) = globalRevisionId s.
Proof. unfold removeListener. simpl. destruct (checkingListeners s); reflexivity. Qed.

Lemma settle_globalRevisionId w n s :
  globalRevisionId (settle w n s) = globalRevisionId s.
Proof.
  unfold settle. destruct (waits s !! w) as [wt|]; [|reflexivity].
  destruct (w_next wt); reflexivity.
Qed.

Lemma dettach_globalRevisionId w s :
  globalRevisionId (dettach w s) = globalRevisionId s.
Proof.
  unfold dettach. destruct (waits s !! w) as [wt|]; [|reflexivity].
  destruct (w_listener wt); [|reflexivity].
  simpl. apply removeListener_globalRevisionId.
Qed.

Lemma waitListener_globalRevisionId w s :
  globalRevisionId (waitListener w s) = globalRevisionId s.
Proof.
  unfold waitListener. destruct (waits s !! w) as [wt|]; [|reflexivity].
  destruct (w_next wt); try reflexivity.
  destruct (w_predicate wt _ _); try reflexivity;
    by rewrite settle_globalRevisionId, dettach_globalRevisionId.
Qed.

Lemma clientCall_globalRevisionId c s :
  globalRevisionId (clientCall c s).2 = globalRevisionId s.
Proof.
  destruct c; simpl; try reflexivity.
  - apply removeListener_globalRevisionId.
  - unfold addConnectionListener. by case_bool_decide.
  - apply setValues_globalRevisionId.
Qed.

(** A dispatch pass leaves the counter alone, whatever its callbacks
    do. *)
Lemma tick_globalRevisionId clients s :
  globalRevisionId (perform clients Tick s) = globalRevisionId s.
Proof.
  apply (tick_preserved clients
           (λ s s', globalRevisionId s' = globalRevisionId s)
           (λ _, True)); try done.
  - intros s1 s2 s3 H12 H23. by rewrite H23.
  - intros c s0 _. apply clientCall_globalRevisionId.
  - apply waitListener_globalRevisionId.
Qed.

Lemma perform_globalRevisionId clients e s :
  globalRevisionId (perform clients e s)
  = (globalRevisionId s + if isSocketEvent e then 1 else 0)%N.
Proof.
  destruct e as [| |m| |device vectorId affectations].
  - reflexivity.
  - simpl. unfold onClose. by rewrite checkListeners_globalRevisionId.
  - apply onMessage_globalRevisionId.
  - simpl isSocketEvent. rewrite N.add_0_r. apply tick_globalRevisionId.
  - simpl. rewrite N.add_0_r. apply setValues_globalRevisionId.
Qed.

Lemma run_app clients evs1 evs2 s :
  run clients (evs1 ++ evs2) s = run clients evs2 (run clients evs1 s).
Proof. unfold run. apply foldl_app. Qed.

Lemma run_globalRevisionId clients evs s :
  globalRevisionId (run clients evs s)
  = (globalRevisionId s + N.of_nat (length (filter isSocketEvent evs)))%N.
Proof.
  revert s. induction evs as [|e evs IH]; intros s.
  - simpl. by rewrite N.add_0_r.
  - change (run clients (e :: evs) s)
      with (run clients evs (perform clients e s)).
    rewrite IH, perform_globalRevisionId, filter_cons.
    destruct (isSocketEvent e) eqn:He.
    + rewrite decide_True by done. simpl length. lia.
    + rewrite decide_False by (by intros []). lia.
Qed.

(** C5. The revision counter grows by exactly one at each socket event:
    the connect handler, the close handler and every decoded message
    (definition, update, deletion, and the others too); dispatch passes
    and commands leave it alone.  So along any run it never decreases, and
    it is strictly larger after any stretch of the run that contains a
    connect, a close or a message.  (The counter is a JavaScript number;
    it is exact, and [++] adds one, up to 2^53.) *)
Theorem globalRevisionId_strictly_increasing clients evs s :
  globalRevisionId (run clients evs s)
  = (globalRevisionId s + N.of_nat (length (filter isSocketEvent evs)))%N
  ∧ ∀ before e after,
      evs = before ++ e :: after →
      (globalRevisionId (run clients before s)
       ≤ globalRevisionId (run clients (before ++ [e]) s)
       ≤ globalRevisionId (run clients evs s))%N
      ∧ (isSocketEvent e = true →
         globalRevisionId (run clients (before ++ [e]) s)
         = (globalRevisionId (run clients before s) + 1)%N).
Proof.
  split; [apply run_globalRevisionId|].
  intros before e after ->.
  replace (before ++ e :: after) with ((before ++ [e]) ++ after)
    by (by rewrite <- app_assoc).
  rewrite (run_app clients (before ++ [e]) after).
  rewrite (run_globalRevisionId clients after).
  rewrite (run_app clients before [e]).
  change (run clients [e] (run clients before s))
    with (perform clients e (run clients before s)).
  rewrite perform_globalRevisionId.
  split; [destruct (isSocketEvent e); lia|].
  intros ->. reflexivity.
Qed.

(** ** The reducer and the latest definition *)

Lemma getVectorInTree_vectorAt device vectorId s :
  getVectorInTree device vectorId s = vectorAt (deviceTree s) device vectorId.
Proof. reflexivity. Qed.

Lemma vectorAt_storeVector d0 v0 x t d v :
  vectorAt (storeVector d0 v0 x t) d v
  = if decide (d = d0 ∧ v = v0) then Some x else vectorAt t d v.
Proof.
  unfold vectorAt, storeVector.
  destruct (decide (d = d0)) as [->|Hd].
  - rewrite lookup_insert_eq.
    destruct (decide (v = v0)) as [->|Hv].
    + rewrite lookup_insert_eq. by rewrite decide_True.
    + rewrite lookup_insert_ne by done.
      rewrite decide_False by (intros [_ ?]; done).
      destruct (t !! d0); [reflexivity|]. simpl. apply lookup_empty.
  - rewrite lookup_insert_ne by done.
    by rewrite decide_False by (intros [? _]; done).
Qed.

Lemma lookup_assign {A} k (x : A) (obj : gmap string A) k' :
  assign k x obj !! k'
  = if decide (k' = k ∧ k ≠ "__proto__") then Some x else obj !! k'.
Proof.
  unfold assign. destruct (decide (k = "__proto__")) as [->|Hk].
  - by rewrite decide_False by (intros [_ ?]; done).
  - destruct (decide (k' = k)) as [->|Hne].
    + by rewrite lookup_insert_eq, decide_True.
    + rewrite lookup_insert_ne by done.
      by rewrite decide_False by (intros [? _]; done).
Qed.

(** A definition under the names "__proto__" leaves no vector to find. *)
Lemma vectorAt_defineVector d0 v0 x t d v :
  vectorAt (defineVector d0 v0 x t) d v
  = if decide (d = d0 ∧ v = v0 ∧ d0 ≠ "__proto__" ∧ v0 ≠ "__proto__")
    then Some x else vectorAt t d v.
Proof.
  unfold vectorAt, defineVector.
  destruct (decide (d0 = "__proto__")) as [->|Hd0].
  { by rewrite decide_False by (intros (_ & _ & ? & _); done). }
  destruct (decide (d = d0)) as [->|Hd].
  - rewrite lookup_insert_eq, lookup_assign.
    destruct (decide (v = v0 ∧ v0 ≠ "__proto__")) as [[-> Hv0]|Hv].
    + by rewrite decide_True.
    + rewrite decide_False by (intros (_ & ? & _ & ?); by apply Hv).
      destruct (t !! d0); [reflexivity|]. simpl. apply lookup_empty.
  - rewrite lookup_insert_ne by done.
    by rewrite decide_False by (intros [? _]; done).
Qed.

Lemma vectorAt_delete_vector d0 name dev t d v :
  t !! d0 = Some dev →
  vectorAt (<[d0 := delete name dev]> t) d v
  = if decide (d = d0 ∧ v = name) then None else vectorAt t d v.
Proof.
  intros Hdev. unfold vectorAt.
  destruct (decide (d = d0)) as [->|Hd].
  - rewrite lookup_insert_eq, Hdev.
    destruct (decide (v = name)) as [->|Hv].
    + rewrite lookup_delete_eq. by rewrite decide_True.
    + rewrite lookup_delete_ne by done.
      by rewrite decide_False by (intros [_ ?]; done).
  - rewrite lookup_insert_ne by done.
    by rewrite decide_False by (intros [? _]; done).
Qed.

Lemma vectorAt_delete_device d0 t d v :
  vectorAt (delete d0 t) d v
  = if decide (d = d0) then None else vectorAt t d v.
Proof.
  unfold vectorAt. destruct (decide (d = d0)) as [->|Hd].
  - by rewrite lookup_delete_eq.
  - by rewrite lookup_delete_ne.
Qed.

Lemma indexChilds_keys_from cs (acc : gmap string Child) k :
  is_Some (foldl (λ m child, assign (key (c_name child)) child m) acc cs !! k) →
  is_Some (acc !! k) ∨ k ∈ map (λ c, key (c_name c)) cs.
Proof.
  revert acc. induction cs as [|c cs IH]; intros acc Hk; simpl in *.
  - by left.
  - apply IH in Hk as [Hk|Hk].
    + rewrite lookup_assign in Hk.
      destruct (decide (k = key (c_name c) ∧ _)) as [[-> _]|Hne].
      * right. apply list_elem_of_here.
      * by left.
    + right. by apply list_elem_of_further.
Qed.

Lemma indexChilds_keys cs k :
  is_Some (indexChilds cs !! k) → k ∈ map (λ c, key (c_name c)) cs.
Proof.
  intros Hk. apply indexChilds_keys_from in Hk as [Hk|Hk]; [|done].
  rewrite lookup_empty in Hk. by destruct Hk.
Qed.

(** Updates never add a key to the children of a vector, nor remove one. *)
Lemma applyUpdates_keys updates (cs : gmap string Child) k :
  is_Some (applyUpdates updates cs !! k) ↔ is_Some (cs !! k).
Proof.
  unfold applyUpdates. revert cs.
  induction updates as [|u updates IH]; intros cs; simpl; [done|].
  rewrite IH. destruct (cs !! key (c_name u)) as [current|] eqn:Hcur; [|done].
  destruct (decide (key (c_name u) = k)) as [<-|Hne].
  - rewrite lookup_insert_eq, Hcur. split; eauto.
  - by rewrite lookup_insert_ne.
Qed.

Lemma feed_snoc msgs m s :
  feed (msgs ++ [m]) s = (onMessage m (feed msgs s)).2.
Proof. unfold feed. by rewrite foldl_app. Qed.

Lemma latestDefinition_snoc device vectorId msgs m :
  latestDefinition device vectorId (msgs ++ [m])
  = match definitionOf device vectorId m with
    | Some names => Some names
    | None => latestDefinition device vectorId msgs
    end.
Proof.
  unfold latestDefinition. rewrite omap_app. simpl.
  destruct (definitionOf device vectorId m) as [names|].
  - by rewrite last_snoc.
  - by rewrite app_nil_r.
Qed.

Lemma definitionOf_not_def device vectorId m :
  (∀ k, m_tag m ≠ defVector k) → definitionOf device vectorId m = None.
Proof.
  intros Hnot. unfold definitionOf.
  destruct (m_tag m) as [k| | |]; try reflexivity. by destruct (Hnot k).
Qed.

(** No vector sits in the tree under the name "__proto__", nor under a
    device of that name. *)
Lemma onMessage_ownNames m s :
  (∀ device vectorId vecDef,
     vectorAt (deviceTree s) device vectorId = Some vecDef →
     device ≠ "__proto__" ∧ vectorId ≠ "__proto__") →
  ∀ device vectorId vecDef,
    vectorAt (deviceTree (onMessage m s).2) device vectorId = Some vecDef →
    device ≠ "__proto__" ∧ vectorId ≠ "__proto__".
Proof.
  intros Hinv device vectorId vecDef.
  unfold onMessage. change (deviceTree (bump s)) with (deviceTree s).
  destruct (m_tag m) as [k|k| |] eqn:Htag.
  - destruct (m_childs m) as [cs|]; simpl; [|apply Hinv].
    rewrite checkListeners_deviceTree. simpl. rewrite vectorAt_defineVector.
    destruct (decide _) as [(-> & -> & ? & ?)|_]; [done|apply Hinv].
  - destruct (deviceTree s !! key (m_device m)) as [dev|] eqn:Hdev;
      [|apply Hinv].
    destruct (dev !! key (m_name m)) as [prop|] eqn:Hprop; [|apply Hinv].
    assert (vectorAt (deviceTree s) (key (m_device m)) (key (m_name m))
            = Some prop) as Hat by (unfold vectorAt; by rewrite Hdev).
    destruct (m_childs m) as [updates|]; simpl;
      rewrite ?checkListeners_deviceTree; simpl;
      rewrite vectorAt_storeVector;
      (destruct (decide _) as [[-> ->]|_]; [|apply Hinv]);
      intros _; by apply (Hinv _ _ _ Hat).
  - destruct (deviceTree s !! key (m_device m)) as [dev|] eqn:Hdev;
      [|apply Hinv].
    destruct (m_name m) as [name|].
    + destruct (dev !! name) as [gone|]; [|apply Hinv].
      simpl. rewrite checkListeners_deviceTree. simpl.
      rewrite (vectorAt_delete_vector _ _ dev) by done.
      destruct (decide _); [discriminate|apply Hinv].
    + simpl. rewrite checkListeners_deviceTree. simpl.
      rewrite vectorAt_delete_device.
      destruct (decide _); [discriminate|apply Hinv].
  - simpl. destruct (dispatchMessage_shape m (bump s)) as (l & d & ->).
    apply Hinv.
Qed.

Lemma onMessage_childrenDefined msgs m s :
  (∀ device vectorId vecDef,
     vectorAt (deviceTree s) device vectorId = Some vecDef →
     device ≠ "__proto__" ∧ vectorId ≠ "__proto__") →
  childrenDefined msgs (deviceTree s) →
  childrenDefined (msgs ++ [m]) (deviceTree (onMessage m s).2).
Proof.
  intros Hown Hinv device vectorId vecDef. rewrite latestDefinition_snoc.
  unfold onMessage. change (deviceTree (bump s)) with (deviceTree s).
  destruct (m_tag m) as [k|k| |] eqn:Htag.
  - (* definition *)
    unfold definitionOf. rewrite Htag.
    destruct (m_childs m) as [cs|]; simpl.
    + rewrite checkListeners_deviceTree. simpl.
      rewrite vectorAt_defineVector.
      destruct (decide (device = key (m_device m)
                        ∧ vectorId = key (m_name m) ∧ _))
        as [(-> & -> & _)|Hother].
      * intros [= <-]. rewrite bool_decide_eq_true_2 by done.
        eexists. split; [reflexivity|]. simpl. apply indexChilds_keys.
      * intros Hat. destruct (Hown _ _ _ Hat) as [Hd Hv].
        rewrite bool_decide_eq_false_2; [by apply Hinv|].
        intros [<- <-]. by apply Hother.
    + apply Hinv.
  - (* update *)
    rewrite definitionOf_not_def by (intros k'; by rewrite Htag).
    destruct (deviceTree s !! key (m_device m)) as [dev|] eqn:Hdev;
      [|apply Hinv].
    destruct (dev !! key (m_name m)) as [prop|] eqn:Hprop; [|apply Hinv].
    assert (vectorAt (deviceTree s) (key (m_device m)) (key (m_name m))
            = Some prop) as Hat by (unfold vectorAt; by rewrite Hdev).
    destruct (m_childs m) as [updates|]; simpl;
      rewrite ?checkListeners_deviceTree; simpl;
      rewrite vectorAt_storeVector;
      (destruct (decide (device = key (m_device m)
                         ∧ vectorId = key (m_name m))) as [[-> ->]|Hother];
       [|apply Hinv]);
      intros [= <-]; simpl;
      destruct (Hinv _ _ _ Hat) as (names & Hlatest & Hsub);
      exists names; (split; [done|]); intros k' Hk'.
    + apply Hsub. by apply applyUpdates_keys in Hk'.
    + by apply Hsub.
  - (* deletion *)
    rewrite definitionOf_not_def by (intros k'; by rewrite Htag).
    destruct (deviceTree s !! key (m_device m)) as [dev|] eqn:Hdev;
      [|apply Hinv].
    destruct (m_name m) as [name|].
    + destruct (dev !! name) as [gone|]; [|apply Hinv].
      simpl. rewrite checkListeners_deviceTree. simpl.
      rewrite (vectorAt_delete_vector _ _ dev) by done.
      destruct (decide _); [discriminate|apply Hinv].
    + simpl. rewrite checkListeners_deviceTree. simpl.
      rewrite vectorAt_delete_device.
      destruct (decide _); [discriminate|apply Hinv].
  - (* broadcast note *)
    rewrite definitionOf_not_def by (intros k'; by rewrite Htag).
    simpl. destruct (dispatchMessage_shape m (bump s)) as (l & d & ->).
    apply Hinv.
Qed.

Lemma feed_childrenDefined msgs s :
  deviceTree s = ∅ →
  (∀ device vectorId vecDef,
     vectorAt (deviceTree (feed msgs s)) device vectorId = Some vecDef →
     device ≠ "__proto__" ∧ vectorId ≠ "__proto__")
  ∧ childrenDefined msgs (deviceTree (feed msgs s)).
Proof.
  intros Hempty. induction msgs as [|m msgs [IHown IH]] using rev_ind.
  - split; intros device vectorId vecDef; simpl; rewrite Hempty;
      unfold vectorAt; by rewrite lookup_empty.
  - rewrite feed_snoc. split.
    + by apply onMessage_ownNames.
    + by apply onMessage_childrenDefined.
Qed.

(** C4. Feed any sequence of decoded messages to a new connection.  Every
    vector then present in the tree was defined by a message of the
    sequence, and each key of its [childs] map is a child name of the
    latest such definition: updates naming other children add nothing.
    (A definition is a [def<Kind>Vector] message for that device and
    vector that carries its child array; without the array [onMessage]
    throws before it touches the tree.) *)
Theorem childs_within_latest_definition msgs rev device vectorId vecDef :
  getVectorInTree device vectorId (feed msgs (newIndiConnection rev))
  = Some vecDef →
  ∃ names, latestDefinition device vectorId msgs = Some names
           ∧ ∀ k, is_Some (childs vecDef !! k) → k ∈ names.
Proof.
  rewrite getVectorInTree_vectorAt.
  apply (feed_childrenDefined msgs (newIndiConnection rev)). reflexivity.
Qed.

Lemma childs_within_latest_definition_witness :
  ∃ vecDef,
    getVectorInTree "CCD" "CONNECTION"
      (feed [defConnection; setConnection] (newIndiConnection 0))
    = Some vecDef
    ∧ ∃ names,
        latestDefinition "CCD" "CONNECTION" [defConnection; setConnection]
        = Some names
        ∧ ∀ k, is_Some (childs vecDef !! k) → k ∈ names.
Proof.
  eexists. split.
  - vm_compute. reflexivity.
  - apply (childs_within_latest_definition [defConnection; setConnection] 0
             "CCD" "CONNECTION").
    vm_compute. reflexivity.
Defined.

(** ** Listener dispatch *)

Lemma spliceFirst_sublist f l : spliceFirst f l `sublist_of` l.
Proof.
  induction l as [|g l IH]; simpl; [constructor|].
  destruct (decide (g = f)).
  - by apply sublist_cons.
  - by apply sublist_skip.
Qed.

Lemma spliceFirst_not_in f l : f ∉ l → spliceFirst f l = l.
Proof.
  induction l as [|g l IH]; simpl; [done|]. intros Hnot.
  apply not_elem_of_cons in Hnot as [Hne Hnot].
  rewrite decide_False by done. by rewrite IH.
Qed.

Lemma shrinks_refl s : shrinks s s.
Proof. intros cl Hcl. by exists cl. Qed.

Lemma shrinks_trans s1 s2 s3 : shrinks s1 s2 → shrinks s2 s3 → shrinks s1 s3.
Proof.
  intros H12 H23 cl Hcl. destruct (H12 cl Hcl) as (cl2 & Hcl2 & Hsub2).
  destruct (H23 cl2 Hcl2) as (cl3 & Hcl3 & Hsub3).
  exists cl3. split; [done|]. by etrans.
Qed.

Lemma shrinks_same s s' :
  checkingListeners s' = checkingListeners s → shrinks s s'.
Proof. intros Hsame cl Hcl. exists cl. by rewrite Hsame. Qed.

Lemma removeListener_shrinks f s : shrinks s (removeListener f s).
Proof.
  intros cl Hcl. unfold removeListener. simpl. rewrite Hcl. simpl.
  eexists. split; [reflexivity|]. apply spliceFirst_sublist.
Qed.

Lemma settle_checkingListeners w n s :
  checkingListeners (settle w n s) = checkingListeners s.
Proof.
  unfold settle. destruct (waits s !! w) as [wt|]; [|reflexivity].
  destruct (w_next wt); reflexivity.
Qed.

Lemma dettach_shrinks w s : shrinks s (dettach w s).
Proof.
  unfold dettach. destruct (waits s !! w) as [wt|]; [|apply shrinks_refl].
  destruct (w_listener wt) as [l|]; [|apply shrinks_refl].
  eapply shrinks_trans; [apply (removeListener_shrinks l)|].
  by apply shrinks_same.
Qed.

Lemma waitListener_shrinks w s : shrinks s (waitListener w s).
Proof.
  unfold waitListener. destruct (waits s !! w) as [wt|]; [|apply shrinks_refl].
  destruct (w_next wt); try apply shrinks_refl.
  destruct (w_predicate wt _ _); try apply shrinks_refl;
    (eapply shrinks_trans; [apply dettach_shrinks|]);
    apply shrinks_same, settle_checkingListeners.
Qed.

Lemma clientCall_shrinks c s : shrinks s (clientCall c s).2.
Proof.
  destruct c; simpl; try apply shrinks_refl.
  - apply removeListener_shrinks.
  - by apply shrinks_same.
  - by apply shrinks_same.
  - unfold addConnectionListener. case_bool_decide; by apply shrinks_same.
  - unfold setValues. destruct (getExistingVectorInTree _ _ _); simpl;
      [|apply shrinks_refl].
    apply shrinks_same. unfold queueMessage, flushQueue. simpl.
    by destruct (connected s).
Qed.

Lemma invoke_shrinks clients todo s : shrinks s (invoke clients todo s).2.
Proof.
  apply (invoke_preserved clients shrinks (λ _, True)); try done.
  - apply shrinks_refl.
  - apply shrinks_trans.
  - intros c s0 _. apply clientCall_shrinks.
  - apply waitListener_shrinks.
  - intros st s0. by apply shrinks_same.
  - intros s0 _. by apply shrinks_same.
Qed.

Lemma sublist_of_reverse (l k : list Listener) :
  l `sublist_of` k → reverse l `sublist_of` reverse k.
Proof.
  induction 1 as [|x l k _ IH|x l k _ IH]; [constructor| |].
  - rewrite !reverse_cons. by apply sublist_app.
  - rewrite reverse_cons. by apply sublist_inserts_r.
Qed.

Lemma last_split (cl : list Listener) todo :
  last cl = Some todo → cl = removelast cl ++ [todo].
Proof.
  intros Hlast. apply last_Some in Hlast as [cl' ->].
  by rewrite removelast_last.
Qed.

(** A dispatch pass calls listeners of its snapshot only, the last of the
    snapshot first, none more often than the snapshot has it. *)
Lemma checkingLoop_called clients fuel s cl called s' :
  checkingListeners s = Some cl →
  checkingLoop clients fuel s = Some (called, s') →
  called `sublist_of` reverse cl.
Proof.
  revert s cl called s'. induction fuel as [|fuel IH];
    intros s cl called s' Hcl Hrun; simpl in Hrun; rewrite Hcl in Hrun.
  - destruct (last cl); [discriminate|]. simplify_eq. apply sublist_nil_l.
  - destruct (last cl) as [todo|] eqn:Hlast;
      [|simplify_eq; apply sublist_nil_l].
    pose proof (last_split cl todo Hlast) as Hsplit.
    set (s1 := set_checkingListeners (Some (removelast cl)) s) in *.
    destruct (invoke_shrinks clients todo s1 (removelast cl) eq_refl)
      as (cl' & Hcl' & Hsub).
    rewrite Hsplit, reverse_app. simpl.
    destruct (invoke clients todo s1) as [[[]|e] s2]; simpl in *.
    + destruct (checkingLoop clients fuel s2) as [[called' s3]|] eqn:Hrec;
        [|discriminate].
      simplify_eq. apply sublist_skip.
      etrans; [by eapply IH|]. by apply sublist_of_reverse.
    + simplify_eq. apply sublist_skip, sublist_nil_l.
Qed.

(** It ends within as many iterations as the snapshot has listeners. *)
Lemma checkingLoop_ends clients fuel s cl :
  checkingListeners s = Some cl →
  length cl ≤ fuel →
  is_Some (checkingLoop clients fuel s).
Proof.
  revert s cl. induction fuel as [|fuel IH]; intros s cl Hcl Hfuel.
  - destruct cl; [|simpl in Hfuel; lia].
    simpl. rewrite Hcl. simpl. eauto.
  - simpl. rewrite Hcl. destruct (last cl) as [todo|] eqn:Hlast; [|eauto].
    pose proof (last_split cl todo Hlast) as Hsplit.
    set (s1 := set_checkingListeners (Some (removelast cl)) s).
    destruct (invoke_shrinks clients todo s1 (removelast cl) eq_refl)
      as (cl' & Hcl' & Hsub).
    destruct (invoke clients todo s1) as [[[]|e] s2]; simpl in *; [|eauto].
    destruct (IH s2 cl' Hcl') as [[called s3] ->]; [|eauto].
    apply sublist_length in Hsub. rewrite Hsplit in Hfuel.
    rewrite length_app in Hfuel. simpl in Hfuel. lia.
Qed.

Lemma checkingLoop_sublist clients fuel s cl :
  checkingListeners s = Some cl →
  length cl ≤ fuel →
  ∃ called s',
    checkingLoop clients fuel s = Some (called, s')
    ∧ called `sublist_of` reverse cl.
Proof.
  intros Hcl Hfuel.
  destruct (checkingLoop_ends clients fuel s cl Hcl Hfuel)
    as [[called s'] Hrun].
  exists called, s'. split; [done|]. by eapply checkingLoop_called.
Qed.

(** The callback of a dispatch pass always runs to its end within as many
    iterations as the snapshot has listeners. *)
Lemma runNextTick_total clients s :
  is_Some (runNextTick clients (snapshotSize s) s).
Proof.
  unfold runNextTick, snapshotSize. destruct (nextTick s) as [|n]; [eauto|].
  destruct (checkingListeners s) as [cl|] eqn:Hcl.
  - by apply (checkingLoop_ends clients (length cl) (set_nextTick n s) cl).
  - destruct (length (default [] None)); simpl; rewrite Hcl; eauto.
Qed.

(** *** Uncaught exceptions *)

Lemma clientCall_uncaught c s : uncaught (clientCall c s).2 = uncaught s.
Proof.
  destruct c; simpl; try reflexivity.
  - unfold removeListener. simpl. by destruct (checkingListeners s).
  - unfold addConnectionListener. by case_bool_decide.
  - unfold setValues. destruct (getExistingVectorInTree _ _ _); simpl;
      [|reflexivity].
    unfold queueMessage, flushQueue. simpl. by destruct (connected s).
Qed.

Lemma settle_uncaught w n s : uncaught (settle w n s) = uncaught s.
Proof.
  unfold settle. destruct (waits s !! w) as [wt|]; [|reflexivity].
  destruct (w_next wt); reflexivity.
Qed.

Lemma dettach_uncaught w s : uncaught (dettach w s) = uncaught s.
Proof.
  unfold dettach. destruct (waits s !! w) as [wt|]; [|reflexivity].
  destruct (w_listener wt); [|reflexivity].
  simpl. unfold removeListener. simpl. by destruct (checkingListeners s).
Qed.

Lemma waitListener_uncaught w s : uncaught (waitListener w s) = uncaught s.
Proof.
  unfold waitListener. destruct (waits s !! w) as [wt|]; [|reflexivity].
  destruct (w_next wt); try reflexivity.
  destruct (w_predicate wt _ _); try reflexivity;
    by rewrite settle_uncaught, dettach_uncaught.
Qed.

(** Only the loop of a pass records an exception as uncaught. *)
Lemma invoke_uncaught clients todo s :
  uncaught (invoke clients todo s).2 = uncaught s.
Proof.
  apply (invoke_preserved clients (λ s s', uncaught s' = uncaught s)
           (λ _, True)); try done.
  - intros s1 s2 s3 H12 H23. by rewrite H23.
  - intros c s0 _. apply clientCall_uncaught.
  - apply waitListener_uncaught.
Qed.

(** A pass records at most one exception: the one that ended it. *)
Lemma checkingLoop_uncaught clients fuel s called s' :
  checkingLoop clients fuel s = Some (called, s') →
  uncaught s' = uncaught s ∨ ∃ e, uncaught s' = uncaught s ++ [e].
Proof.
  revert s called s'. induction fuel as [|fuel IH]; intros s called s' Hrun;
    simpl in Hrun.
  - destruct (checkingListeners s) as [cl|];
      [destruct (last cl); [discriminate|]|]; simplify_eq; by left.
  - destruct (checkingListeners s) as [cl|]; [|simplify_eq; by left].
    destruct (last cl) as [todo|]; [|simplify_eq; by left].
    set (s1 := set_checkingListeners (Some (removelast cl)) s) in *.
    pose proof (invoke_uncaught clients todo s1) as Hinv.
    destruct (invoke clients todo s1) as [[[]|e] s2]; simpl in *.
    + destruct (checkingLoop clients fuel s2) as [[called' s3]|] eqn:Hrec;
        [|discriminate].
      simplify_eq. apply IH in Hrec. by rewrite Hinv in Hrec.
    + simplify_eq. right. exists e. simpl. by rewrite Hinv.
Qed.

(** *** When no listener removes another one *)

Lemma removeListener_absent f s cl :
  checkingListeners s = Some cl → f ∉ cl →
  checkingListeners (removeListener f s) = Some cl.
Proof.
  intros Hcl Hnot. unfold removeListener. simpl. rewrite Hcl. simpl.
  by rewrite spliceFirst_not_in.
Qed.

Lemma removeListener_waits f s : waits (removeListener f s) = waits s.
Proof.
  unfold removeListener. simpl. destruct (checkingListeners s); reflexivity.
Qed.

Lemma settle_ownListeners w n s : ownListeners s → ownListeners (settle w n s).
Proof.
  intros Hown. unfold settle.
  destruct (waits s !! w) as [wt|] eqn:Hw; [|done].
  destruct (w_next wt); try done.
  intros w' wt' l. simpl. destruct (decide (w = w')) as [<-|Hne].
  - rewrite lookup_insert_eq. intros [= <-]. simpl. by apply Hown.
  - rewrite lookup_insert_ne by done. apply Hown.
Qed.

Lemma dettach_own w s cl :
  checkingListeners s = Some cl → ownListeners s → WaitListener w ∉ cl →
  checkingListeners (dettach w s) = Some cl ∧ ownListeners (dettach w s).
Proof.
  intros Hcl Hown Hnot. unfold dettach.
  destruct (waits s !! w) as [wt|] eqn:Hw; [|done].
  destruct (w_listener wt) as [l|] eqn:Hl; [|done].
  rewrite (Hown w wt l Hw Hl). split.
  - simpl. by apply removeListener_absent.
  - intros w' wt' l'. simpl. rewrite removeListener_waits.
    destruct (decide (w = w')) as [<-|Hne].
    + rewrite lookup_insert_eq. by intros [= <-].
    + rewrite lookup_insert_ne by done. apply Hown.
Qed.

Lemma waitListener_own w s cl :
  checkingListeners s = Some cl → ownListeners s → WaitListener w ∉ cl →
  checkingListeners (waitListener w s) = Some cl
  ∧ ownListeners (waitListener w s).
Proof.
  intros Hcl Hown Hnot. unfold waitListener.
  destruct (waits s !! w) as [wt|]; [|done].
  destruct (w_next wt); try done.
  destruct (dettach_own w s cl Hcl Hown Hnot) as [Hcl' Hown'].
  destruct (w_predicate wt _ _); try done;
    (split; [by rewrite settle_checkingListeners
            |by apply settle_ownListeners]).
Qed.

Lemma runCalls_own calls s cl :
  checkingListeners s = Some cl →
  (∀ f, CallRemoveListener f ∈ calls → f ∉ cl) →
  checkingListeners (runCalls calls s).2 = Some cl
  ∧ waits (runCalls calls s).2 = waits s.
Proof.
  revert s. induction calls as [|c calls IH]; intros s Hcl Hcalls; [done|].
  simpl.
  assert (checkingListeners (clientCall c s).2 = Some cl
          ∧ waits (clientCall c s).2 = waits s) as [Hcl1 Hwaits1].
  { destruct c as [f|f|o|o|device vectorId affectations|e]; simpl; try done.
    - split; [|apply removeListener_waits].
      apply removeListener_absent; [done|]. apply Hcalls. by left.
    - unfold addConnectionListener. by case_bool_decide.
    - unfold setValues. destruct (getExistingVectorInTree _ _ _); simpl;
        [|done].
      unfold queueMessage, flushQueue. simpl. by destruct (connected s). }
  destruct (clientCall c s) as [[[]|e] s1]; simpl in *; [|done].
  destruct (IH s1 Hcl1) as [Hcl' Hwaits'].
  { intros g Hg. apply Hcalls. by right. }
  split; [done|]. by rewrite Hwaits'.
Qed.

Lemma invoke_own clients todo s cl :
  checkingListeners s = Some cl → ownListeners s → todo ∉ cl →
  (∀ cb s0 f, listenerOf cb = todo →
              CallRemoveListener f ∈ clients cb s0 → f ∉ cl) →
  checkingListeners (invoke clients todo s).2 = Some cl
  ∧ ownListeners (invoke clients todo s).2.
Proof.
  intros Hcl Hown Hnot Hcalls.
  assert (∀ cb s0, listenerOf cb = todo →
            checkingListeners s0 = Some cl → ownListeners s0 →
            checkingListeners (call clients cb s0).2 = Some cl
            ∧ ownListeners (call clients cb s0).2) as Hcall.
  { intros cb s0 Hcb Hcl0 Hown0.
    destruct (runCalls_own (clients cb s0) s0 cl Hcl0) as [Hcl' Hwaits'].
    - intros f. by apply Hcalls.
    - split; [done|]. unfold ownListeners, call. rewrite Hwaits'.
      exact Hown0. }
  destruct todo as [w| |id]; simpl.
  - destruct (waitListener_own w s cl Hcl Hown Hnot) as [Hcl1 Hown1].
    destruct (settledBy w s (waitListener w s)); [|done].
    by apply Hcall.
  - unfold refreshStatus.
    set (s1 := if negb true then _ else _).
    assert (checkingListeners s1 = Some cl ∧ ownListeners s1) as [Hcl1 Hown1].
    { subst s1. simpl. by destruct (connected s). }
    generalize (connectionListener s1). intros os. clearbody s1.
    revert s1 Hcl1 Hown1. induction os as [|o os IH]; intros s1 Hcl1 Hown1;
      [done|].
    simpl. case_bool_decide; [|by apply IH].
    destruct (Hcall (OnConnection o) s1 eq_refl Hcl1 Hown1).
    by apply IH.
  - by apply Hcall.
Qed.

(** When the listeners of the snapshot are distinct and no callback
    removes another listener of the snapshot, the pass calls the snapshot
    in order, each listener once, up to the first that throws: the whole
    snapshot when nothing is thrown. *)
Lemma checkingLoop_exact clients fuel s cl called s' :
  checkingListeners s = Some cl →
  NoDup cl → ownListeners s → removeOnlyThemselves clients cl →
  checkingLoop clients fuel s = Some (called, s') →
  called `prefix_of` reverse cl
  ∧ (uncaught s' = uncaught s → called = reverse cl).
Proof.
  revert s cl called s'. induction fuel as [|fuel IH];
    intros s cl called s' Hcl Hnodup Hown Hself Hrun;
    simpl in Hrun; rewrite Hcl in Hrun.
  - destruct (last cl) eqn:Hlast; [discriminate|].
    apply last_None in Hlast as ->. by simplify_eq.
  - destruct (last cl) as [todo|] eqn:Hlast.
    2:{ apply last_None in Hlast as ->. by simplify_eq. }
    pose proof (last_split cl todo Hlast) as Hsplit.
    set (cl0 := removelast cl) in *.
    assert (NoDup cl0 ∧ todo ∉ cl0) as [Hnodup0 Htodo].
    { rewrite Hsplit in Hnodup. apply NoDup_app in Hnodup as (? & Hdis & _).
      split; [done|]. intros Hin. apply (Hdis todo Hin). by left. }
    set (s1 := set_checkingListeners (Some cl0) s) in *.
    destruct (invoke_own clients todo s1 cl0) as [Hcl1 Hown1];
      [done|exact Hown|done| |].
    { intros cb s0 f Hcb Hf. destruct (Hself cb s0 f) as [->|Hout]; [|done| |].
      - rewrite Hcb, Hsplit. apply elem_of_app. right. by left.
      - by rewrite Hcb.
      - intros Hin. apply Hout. rewrite Hsplit. apply elem_of_app. by left. }
    pose proof (invoke_uncaught clients todo s1) as Hunc.
    rewrite Hsplit, reverse_app. simpl.
    destruct (invoke clients todo s1) as [[[]|e] s2]; simpl in *.
    + destruct (checkingLoop clients fuel s2) as [[called' s3]|] eqn:Hrec;
        [|discriminate].
      simplify_eq.
      destruct (IH s2 cl0 called' s' Hcl1 Hnodup0 Hown1) as [Hpre Hall];
        [|done|].
      { intros cb s0 f Hcb Hf.
        destruct (Hself cb s0 f) as [->|Hout]; [|done|by left|].
        - rewrite Hsplit. apply elem_of_app. by left.
        - right. intros Hin. apply Hout. rewrite Hsplit.
          apply elem_of_app. by left. }
      split.
      * by apply prefix_cons.
      * intros Hsame. rewrite Hall; [done|]. by rewrite Hsame, Hunc.
    + simplify_eq. split.
      * apply prefix_cons, prefix_nil.
      * simpl. rewrite Hunc. intros Hsame. exfalso.
        apply (f_equal length) in Hsame. rewrite length_app in Hsame.
        simpl in Hsame. lia.
Qed.

(** *** A listener removed before its turn *)

Lemma clientCall_harmless c s : harmless c → (clientCall c s).1 = Normal tt.
Proof. by destruct c. Qed.

Lemma runCalls_app_harmless pre calls s :
  Forall harmless pre →
  runCalls (pre ++ calls) s = runCalls calls (runCalls pre s).2.
Proof.
  revert s. induction pre as [|c pre IH]; intros s Hpre; [done|].
  apply Forall_cons in Hpre as [Hc Hpre]. simpl.
  pose proof (clientCall_harmless c s Hc) as Hnormal.
  destruct (clientCall c s) as [[[]|e] s1]; simpl in *; [|discriminate].
  by apply IH.
Qed.

Lemma runCalls_shrinks calls s : shrinks s (runCalls calls s).2.
Proof.
  apply (runCalls_preserved shrinks (λ _, True)); try done.
  - apply shrinks_refl.
  - apply shrinks_trans.
  - intros c s0 _. apply clientCall_shrinks.
Qed.

(** Once a callback has removed a listener from a snapshot of distinct
    listeners, the listener is not in the snapshot any more. *)
Lemma runCalls_removes calls f s cl :
  reaches (CallRemoveListener f) calls →
  checkingListeners s = Some cl → NoDup cl →
  ∃ cl', checkingListeners (runCalls calls s).2 = Some cl'
         ∧ cl' `sublist_of` cl ∧ f ∉ cl'.
Proof.
  intros (pre & post & -> & Hpre) Hcl Hnodup.
  rewrite runCalls_app_harmless by done.
  destruct (runCalls_shrinks pre s cl Hcl) as (cl1 & Hcl1 & Hsub1).
  set (s1 := (runCalls pre s).2) in *. simpl.
  destruct (runCalls_shrinks post (removeListener f s1)
              (spliceFirst f cl1)) as (cl2 & Hcl2 & Hsub2).
  { unfold removeListener. simpl. by rewrite Hcl1. }
  exists cl2. split; [done|]. split.
  - etrans; [exact Hsub2|]. etrans; [apply spliceFirst_sublist|done].
  - intros Hin. assert (f ∈ spliceFirst f cl1) as Hin1.
    { by eapply elem_of_sublist. }
    assert (NoDup cl1) as Hnodup1 by by eapply sublist_NoDup.
    clear -Hin1 Hnodup1. induction cl1 as [|g cl1 IH]; simpl in *.
    + by apply elem_of_nil in Hin1.
    + apply NoDup_cons in Hnodup1 as [Hg Hnodup1].
      destruct (decide (g = f)) as [->|Hne]; [done|].
      apply elem_of_cons in Hin1 as [->|Hin1]; [done|]. by apply IH.
Qed.

Lemma checkingLoop_skips clients fuel s cl called s' :
  checkingListeners s = Some cl → NoDup cl →
  checkingLoop clients fuel s = Some (called, s') →
  ∀ i j id f,
    called !! i = Some (Client id) →
    (∀ s0, reaches (CallRemoveListener f) (clients (Named id) s0)) →
    i < j → called !! j ≠ Some f.
Proof.
  revert s cl called s'. induction fuel as [|fuel IH];
    intros s cl called s' Hcl Hnodup Hrun i j id f Hi Hremoves Hij;
    simpl in Hrun; rewrite Hcl in Hrun.
  - destruct (last cl); [discriminate|]. by simplify_eq.
  - destruct (last cl) as [todo|] eqn:Hlast; [|by simplify_eq].
    pose proof (last_split cl todo Hlast) as Hsplit.
    set (cl0 := removelast cl) in *.
    assert (NoDup cl0) as Hnodup0.
    { rewrite Hsplit in Hnodup. by apply NoDup_app in Hnodup as (? & _). }
    set (s1 := set_checkingListeners (Some cl0) s) in *.
    destruct (invoke_shrinks clients todo s1 cl0 eq_refl)
      as (cl1 & Hcl1 & Hsub1).
    destruct (invoke clients todo s1) as [[[]|e] s2] eqn:Hinvoke;
      simpl in *.
    + destruct (checkingLoop clients fuel s2) as [[called' s3]|] eqn:Hrec;
        [|discriminate].
      simplify_eq. destruct j as [|j]; [lia|]. simpl.
      destruct i as [|i]; simpl in Hi.
      * simplify_eq. simpl in Hinvoke. unfold call in Hinvoke.
        destruct (runCalls_removes (clients (Named id) s1) f s1 cl0)
          as (cl2 & Hcl2 & _ & Hgone); [done|done|done|].
        rewrite Hinvoke in Hcl2. simpl in Hcl2.
        pose proof (checkingLoop_called clients fuel s2 cl2 called' s'
                      Hcl2 Hrec) as Hsub.
        intros Hj. apply Hgone.
        apply elem_of_reverse. eapply elem_of_sublist; [|exact Hsub].
        by eapply list_elem_of_lookup_2.
      * eapply (IH s2 cl1 called' s' Hcl1); [|exact Hrec|exact Hi|done|lia].
        by eapply sublist_NoDup.
    + simplify_eq. destruct j as [|j]; [lia|]. by destruct j.
Qed.




(** ** Waits and disconnection *)

(** The listener of a wait never looks at [dead] nor at
    [allowDisconnectionState]: while its predicate stays false it does
    nothing, on a closed connection as on an open one. *)
Lemma waitListener_still_false w wt s :
  waits s !! w = Some wt →
  w_predicate wt (deviceTree s) (dead s) = Falsy →
  waitListener w s = s.
Proof.
  intros Hw Hfalse. unfold waitListener. rewrite Hw, Hfalse.
  destruct (w_next wt); reflexivity.
Qed.

(** A wait that starts on a dead connection, without
    [allowDisconnectionState], fails at once. *)
Lemma start_dead_fails predicate s :
  dead s = true →
  let '(w, s1) := wait predicate false s in
  w_next <$> waits (start w s1).2 !! w
  = Some (Failed (Raw "Indi server disconnected")).
Proof.
  intros Hdead. unfold wait, start. simpl. rewrite lookup_insert_eq.
  simpl. rewrite Hdead. simpl. unfold settle. simpl.
  rewrite lookup_insert_eq. simpl. rewrite lookup_insert_eq. reflexivity.
Qed.

(** C2, evaluated.  A wait with [allowDisconnectionState] false is pending
    on the vector CCD/CONNECTION being Busy when the socket closes.  The
    dispatch pass of the close handler calls its listener, then the
    manager's [refreshStatus], which empties the tree.  The wait is still
    active afterwards and its listener still registered, on a connection
    that is dead: it has not failed. *)
Theorem pending_wait_survives_close :
  w_next <$> waits waitingForConnect !! 0 = Some Active
  ∧ fst <$> runNextTick noClients 2 (onClose waitingForConnect)
    = Some [WaitListener 0; RefreshStatus]
  ∧ dead afterClose = true
  ∧ deviceTree afterClose = ∅
  ∧ w_next <$> waits afterClose !! 0 = Some Active
  ∧ listeners afterClose = [RefreshStatus; WaitListener 0]
  ∧ nextTick afterClose = 0.
Proof. vm_compute. repeat split; reflexivity. Qed.

(** ** Notification uids *)

Lemma ascii_compare_refl c : Ascii.compare c c = Eq.
Proof.
  pose proof (Ascii.compare_antisym c c) as Hanti.
  destruct (Ascii.compare c c); [reflexivity|discriminate|discriminate].
Qed.

Lemma compare_common_prefix p a b :
  Stdlib.Strings.String.compare (p +:+ a) (p +:+ b)
  = Stdlib.Strings.String.compare a b.
Proof.
  induction p as [|c p IH]; simpl; [reflexivity|].
  by rewrite ascii_compare_refl.
Qed.

Lemma str_lt_common_prefix p a b : str_lt (p +:+ a) (p +:+ b) = str_lt a b.
Proof.
  unfold str_lt, Stdlib.Strings.String.ltb. by rewrite compare_common_prefix.
Qed.

(** Calls within one millisecond count the serial up. *)
Lemma nextMessageUid_same_clock toISOString clock serial :
  nextMessageUid toISOString clock (Some (clock, serial))
  = (formatUid toISOString clock (serial + 1),
     Some (clock, (serial + 1)%N)).
Proof.
  unfold nextMessageUid.
  rewrite Z.gtb_ltb, Z.ltb_irrefl, Z.eqb_refl. reflexivity.
Qed.

Lemma uids_same_clock toISOString clock n serial :
  uids toISOString (replicate n clock) (Some (clock, serial))
  = map (λ i, formatUid toISOString clock (serial + 1 + N.of_nat i))
      (seq 0 n).
Proof.
  revert serial. induction n as [|n IH]; intros serial; [reflexivity|].
  cbn [replicate uids]. rewrite nextMessageUid_same_clock, IH.
  cbn [seq map]. rewrite N.add_0_r. f_equal.
  rewrite <- seq_shift, map_map. apply map_ext. intros i.
  f_equal. lia.
Qed.

(** C7, evaluated.  Seventeen calls within one millisecond, whatever the
    timestamp reads: the sixteenth uid ends in "f" (serial 15), the
    seventeenth in "Z10" (serial 16), and "Z" sorts before "f": the later
    uid is the smaller string. *)
Theorem nextMessageUid_order_breaks toISOString clock :
  ∃ earlier later,
    uids toISOString (replicate 17 clock) None !! 15 = Some earlier
    ∧ uids toISOString (replicate 17 clock) None !! 16 = Some later
    ∧ earlier = toISOString clock +:+ ":f"
    ∧ later = toISOString clock +:+ ":Z10"
    ∧ str_lt earlier later = false
    ∧ str_lt later earlier = true.
Proof.
  exists (toISOString clock +:+ ":f"), (toISOString clock +:+ ":Z10").
  change (uids toISOString (replicate 17 clock) None)
    with (formatUid toISOString clock 0
          :: uids toISOString (replicate 16 clock) (Some (clock, 0%N))).
  rewrite (uids_same_clock toISOString clock 16 0).
  rewrite !str_lt_common_prefix.
  repeat split; reflexivity.
Qed.

(** ** setParam *)

Lemma sortedKeys_elem_of (value : Values) k :
  k ∈ sortedKeys value ↔ is_Some (value !! k).
Proof.
  unfold sortedKeys. rewrite merge_sort_Permutation.
  rewrite list_elem_of_fmap. split.
  - intros [[k' v] [-> Hin]]. apply elem_of_map_to_list in Hin. simpl. eauto.
  - intros [v Hv]. exists (k, v). split; [done|].
    by apply elem_of_map_to_list.
Qed.

Lemma sortedKeys_ascending (value : Values) :
  StronglySorted (λ a b, String.le a b ∧ a ≠ b) (sortedKeys value).
Proof.
  assert (NoDup (sortedKeys value)) as Hnodup.
  { unfold sortedKeys. rewrite merge_sort_Permutation.
    apply NoDup_fst_map_to_list. }
  assert (StronglySorted String.le (sortedKeys value)) as Hsorted
    by apply (StronglySorted_merge_sort _).
  induction Hsorted as [|k l Hl IH Hall]; [constructor|].
  apply NoDup_cons in Hnodup as [Hk Hnodup].
  constructor; [by apply IH|].
  apply Forall_forall. intros k' Hk'. split.
  - by apply (proj1 (Forall_forall _ _) Hall).
  - intros ->. by apply Hk.
Qed.

Lemma omap_ascending (f : string → option Affectation) keys :
  (∀ k a, f k = Some a → a_name a = k) →
  StronglySorted (λ a b, String.le a b ∧ a ≠ b) keys →
  ascending (omap f keys).
Proof.
  intros Hname Hsorted. unfold ascending.
  induction Hsorted as [|k l Hl IH Hall]; [constructor|].
  simpl. destruct (f k) as [a|] eqn:Hfk; [|exact IH].
  constructor; [exact IH|].
  apply Forall_forall. intros b Hb.
  apply list_elem_of_omap in Hb as (k' & Hk' & Hfk').
  rewrite (Hname _ _ Hfk), (Hname _ _ Hfk').
  by apply (proj1 (Forall_forall _ _) Hall).
Qed.

(** Without [force], [todo] holds the provided entries that differ from
    the vector, by ascending key, each once. *)
Lemma todoOf_differs devId vectorId value s :
  ascending (todoOf false devId vectorId value s)
  ∧ ∀ a, a ∈ todoOf false devId vectorId value s
         ↔ differs devId vectorId value s a.
Proof.
  unfold todoOf. split.
  - apply omap_ascending; [|apply sortedKeys_ascending].
    intros k a Hk. destruct (value !! k) as [[v|]|]; try discriminate.
    simpl in Hk. case_bool_decide; [|discriminate]. by inversion Hk.
  - intros [name v]. rewrite list_elem_of_omap. unfold differs. simpl. split.
    + intros (k & _ & Hk).
      destruct (value !! k) as [[v'|]|] eqn:Hvalue; try discriminate.
      simpl in Hk. case_bool_decide as Hne; [|discriminate].
      inversion Hk; subst. done.
    + intros [Hvalue Hne]. exists name. split.
      * apply sortedKeys_elem_of. eauto.
      * rewrite Hvalue. simpl. by rewrite bool_decide_eq_true_2.
Qed.

Lemma getState_Normal devId vectorId s state :
  getState devId vectorId s = Normal state →
  ∃ vecDef, getVectorInTree devId vectorId s = Some vecDef.
Proof.
  unfold getState, getExistingVectorInTree.
  destruct (getVectorInTree devId vectorId s) as [vecDef|]; [eauto|].
  discriminate.
Qed.

(** [setParam], once its first waits are over. *)
Lemma setParam_set_writes devId vectorId valueProvider cancelator st :
  let todo := todoOf false devId vectorId (valueOf valueProvider st.1) st.1 in
  match setParam_set devId vectorId valueProvider false cancelator st with
  | Settled r st' =>
      (∀ l, r = Normal l → l = [] ∧ todo = [] ∧ st' = st)
      ∧ (todo = [] → st' = st)
      ∧ (todo = [] → getVec devId vectorId st.1 = Normal tt →
         getState devId vectorId st.1 ≠ Normal (Some "Busy") →
         is_Some (getVectorInTree devId vectorId st.1) →
         r = Normal [])
      ∧ (st' = st
         ∨ ∃ kind, outbox st'.1
                   = outbox st.1
                     ++ [toXml {| o_kind := kind; o_device := devId;
                                  o_name := vectorId; o_ones := todo |}])
  | Await what (s1, ct1) k =>
      todo ≠ []
      ∧ (∃ kind, outbox s1
                 = outbox st.1
                   ++ [toXml {| o_kind := kind; o_device := devId;
                                o_name := vectorId; o_ones := todo |}])
      ∧ ∀ o st3, ∃ r st4,
          k o st3 = Settled r st4
          ∧ st4.1 = st3.1
          ∧ (∀ l, r = Normal l → l = todo)
          ∧ (o = Resolved → cancelator && isCancelled st3.2 = false →
             r = Normal todo)
  end.
Proof.
  destruct st as [s ct]. unfold setParam_set. simpl fst.
  destruct (getVec devId vectorId s) as [[]|e] eqn:HgetVec.
  2:{ repeat split; try done. by left. }
  destruct (getState devId vectorId s) as [state|e] eqn:Hstate.
  2:{ repeat split; try done.
      - intros _ _ _ [vecDef Hv]. unfold getState, getExistingVectorInTree in Hstate.
        rewrite Hv in Hstate. discriminate.
      - by left. }
  destruct (isBusy state) eqn:Hbusy.
  { repeat split; try done.
    - intros _ _ Hnot _. unfold isBusy in Hbusy.
      apply bool_decide_eq_true_1 in Hbusy. by subst.
    - by left. }
  destruct (todoOf false devId vectorId (valueOf valueProvider s) s)
    as [|a todo] eqn:Htodo.
  { repeat split; try done; [by simplify_eq|by left]. }
  destruct (getState_Normal _ _ _ _ Hstate) as [vecDef HvecDef].
  destruct (setValues_present devId vectorId (a :: todo) s vecDef HvecDef)
    as (s1 & Hset & Hout & _).
  rewrite Hset.
  destruct (cancelator && isCancelled ct) eqn:Hcancel.
  { repeat split; try done. right. simpl. eauto. }
  split; [done|]. split; [eauto|].
  intros o [s3 ct3]. simpl.
  destruct o as [|e].
  - destruct (cancelator && isCancelled ct3) eqn:Hcancel3.
    + eexists _, _. split; [reflexivity|].
      split; [by destruct cancelator|]. split; [done|]. done.
    + eexists _, _. split; [reflexivity|].
      split; [by destruct cancelator|]. split; [by intros l [= <-]|]. done.
  - eexists _, _. split; [reflexivity|].
    split; [by destruct cancelator|]. split; done.
Qed.

(** [setParam], once its first waits are over and its checks pass: what
    it does with [todo]. *)
Lemma setParam_set_sends devId vectorId valueProvider cancelator s ct vecDef :
  let todo := todoOf false devId vectorId (valueOf valueProvider s) s in
  getVec devId vectorId s = Normal tt →
  getVectorInTree devId vectorId s = Some vecDef →
  isBusy (v_state vecDef) = false →
  match todo with
  | [] =>
      setParam_set devId vectorId valueProvider false cancelator (s, ct)
      = Settled (Normal []) (s, ct)
  | _ :: _ =>
      ∃ s1,
        setValues devId vectorId todo s = (Normal tt, s1)
        ∧ outbox s1
          = outbox s
            ++ [toXml {| o_kind := v_type vecDef; o_device := devId;
                         o_name := vectorId; o_ones := todo |}]
        ∧ if cancelator && isCancelled ct
          then setParam_set devId vectorId valueProvider false cancelator
                 (s, ct)
               = Settled (Thrown CancelledError) (s1, ct)
          else ∃ ct1 k,
              setParam_set devId vectorId valueProvider false cancelator
                (s, ct)
              = Await (WaitNotBusy true devId vectorId) (s1, ct1) k
              ∧ ∀ o st3, ∃ st4,
                  st4.1 = st3.1
                  ∧ k o st3
                    = Settled
                        match o with
                        | Rejected e => Thrown e
                        | Resolved =>
                            if cancelator && isCancelled st3.2
                            then Thrown CancelledError
                            else Normal todo
                        end st4
  end.
Proof.
  intros todo HgetVec Hvec Hbusy. unfold setParam_set.
  rewrite HgetVec. unfold getState, getExistingVectorInTree.
  rewrite Hvec, Hbusy. fold todo.
  destruct todo as [|a todo'] eqn:Htodo; [done|].
  destruct (setValues_present devId vectorId (a :: todo') s vecDef Hvec)
    as (s1 & Hset & Hout & _).
  exists s1. split; [done|]. split; [done|]. rewrite Hset.
  destruct (cancelator && isCancelled ct) eqn:Hct; [done|].
  eexists _, _. split; [reflexivity|].
  intros [|e] st3; simpl.
  - destruct cancelator; simpl.
    + destruct (isCancelled st3.2) eqn:Hc3; eexists; (split; [|reflexivity]);
        done.
    + by exists st3.
  - destruct cancelator; eexists; (split; [|reflexivity]); done.
Qed.



Example setParam_connect_todo :
  todoOf false "CCD" "CONNECTION" connectValues managed
  = [{| a_name := "CONNECT"; a_value := "On" |}].
Proof. vm_compute. reflexivity. Qed.

(** ** pulseParam *)

(** C1, as stated, fails on the exit by natural completion.  The property
    has been set "On"; the vector leaves Busy, the wait resolves, and the
    promise is rejected with "Property stopped ..." in the state it was
    resumed in: the only command ever sent is the "On" one. *)
Lemma pulseParam_self_stopped_sends_no_off :
  outbox (stateOf pulsing) = [getProperties; motionNorth "On"]
  ∧ getState "CCD" "TELESCOPE_MOTION_NS" stopped = Normal (Some "Ok")
  ∧ resume pulsing Resolved stopped
    = Settled (Thrown (Error
        "Property stopped CCD.TELESCOPE_MOTION_NS.MOTION_NORTH")) stopped
  ∧ outbox stopped = [getProperties; motionNorth "On"]
  ∧ motionNorth "Off" ∉ outbox stopped.
Proof.
  assert (outbox stopped = [getProperties; motionNorth "On"]) as Hout
    by (vm_compute; reflexivity).
  split; [vm_compute; reflexivity|]. split; [vm_compute; reflexivity|].
  split; [vm_compute; reflexivity|]. split; [exact Hout|].
  rewrite Hout. intros Hin.
  apply elem_of_cons in Hin as [Hin|Hin]; [discriminate|].
  apply elem_of_cons in Hin as [Hin|Hin]; [discriminate|].
  by apply elem_of_nil in Hin.
Qed.

(** The call gets to its [try] block when its checks pass. *)
Lemma pulseParam_reaches_try devId vectorId propId s0 s1 s2 vecDef :
  getVec devId vectorId s0 = Normal tt →
  getVec devId vectorId s2 = Normal tt →
  getVectorInTree devId vectorId s2 = Some vecDef →
  isBusy (v_state vecDef) = false →
  resume (resume (pulseParam true devId vectorId propId s0) Resolved s1)
    Resolved s2
  = Await (WaitNotBusy true devId vectorId)
      (setValues devId vectorId [{| a_name := propId; a_value := "On" |}]
         s2).2
      (pulseParam_try devId vectorId propId).
Proof.
  intros Hvec0 Hvec2 HvecDef Hidle. unfold pulseParam.
  simpl getValidConnection. rewrite Hvec0. simpl resume. rewrite Hvec2.
  unfold getState, getExistingVectorInTree. rewrite HvecDef, Hidle.
  unfold setValues, getExistingVectorInTree. rewrite HvecDef. reflexivity.
Qed.

(** C1 (amended). A call of [pulseParam] has set the property "On" and
    waits for the vector to leave Busy.  If that wait is rejected, by an
    error or by the cancellation of the token, and the vector is still in
    the tree, the call sends a command setting the property "Off" and
    waits again, before its promise is rejected with the reason of the
    first rejection (or with that of the second wait, should it fail
    too).  If the wait resolves, the promise is rejected with "Property
    stopped ..." and nothing is sent. *)
Theorem pulseParam_off_after_rejected_wait devId vectorId propId s0 s1 s2
  what s3 k :
  resume (resume (pulseParam true devId vectorId propId s0) Resolved s1)
    Resolved s2
  = Await what s3 k →
  (∃ kind, outbox s3
           = outbox s2
             ++ [toXml {| o_kind := kind; o_device := devId;
                          o_name := vectorId;
                          o_ones := [{| a_name := propId;
                                        a_value := "On" |}] |}])
  ∧ (∀ s4, k Resolved s4
           = Settled (Thrown (propertyStopped devId vectorId propId)) s4)
  ∧ ∀ e s4 vecDef,
      getVectorInTree devId vectorId s4 = Some vecDef →
      ∃ s5 k',
        k (Rejected e) s4 = Await (WaitNotBusy false devId vectorId) s5 k'
        ∧ outbox s5
          = outbox s4
            ++ [toXml {| o_kind := v_type vecDef; o_device := devId;
                         o_name := vectorId;
                         o_ones := [{| a_name := propId;
                                       a_value := "Off" |}] |}]
        ∧ (∀ s6, k' Resolved s6 = Settled (Thrown e) s6)
        ∧ (∀ e' s6, k' (Rejected e') s6 = Settled (Thrown e') s6).
Proof.
  unfold pulseParam. simpl getValidConnection.
  destruct (getVec devId vectorId s0) as [[]|e0]; [|discriminate].
  simpl resume.
  destruct (getVec devId vectorId s2) as [[]|e2]; [|discriminate].
  destruct (getState devId vectorId s2) as [state|e2] eqn:Hstate;
    [|discriminate].
  destruct (isBusy state); [discriminate|].
  destruct (getState_Normal _ _ _ _ Hstate) as [vecDef2 HvecDef2].
  destruct (setValues_present devId vectorId
              [{| a_name := propId; a_value := "On" |}] s2 vecDef2 HvecDef2)
    as (s3' & Hset & Hout & _).
  rewrite Hset. intros Heq. inversion Heq; subst. clear Heq.
  split; [eauto|]. split; [reflexivity|].
  intros e s4 vecDef HvecDef. unfold pulseParam_try.
  destruct (setValues_present devId vectorId
              [{| a_name := propId; a_value := "Off" |}] s4 vecDef HvecDef)
    as (s5 & Hset5 & Hout5 & _).
  rewrite Hset5. eexists s5, _. split; [reflexivity|].
  split; [exact Hout5|]. split; reflexivity.
Qed.

Lemma pulseParam_off_after_rejected_wait_witness :
  ∃ what s3 k,
    pulsing = Await what s3 k
    ∧ (∃ kind, outbox s3
               = outbox tracking
                 ++ [toXml {| o_kind := kind; o_device := "CCD";
                              o_name := "TELESCOPE_MOTION_NS";
                              o_ones := [{| a_name := "MOTION_NORTH";
                                            a_value := "On" |}] |}])
    ∧ (∀ s4, k Resolved s4
             = Settled (Thrown (propertyStopped "CCD" "TELESCOPE_MOTION_NS"
                                  "MOTION_NORTH")) s4)
    ∧ ∀ e s4 vecDef,
        getVectorInTree "CCD" "TELESCOPE_MOTION_NS" s4 = Some vecDef →
        ∃ s5 k',
          k (Rejected e) s4
          = Await (WaitNotBusy false "CCD" "TELESCOPE_MOTION_NS") s5 k'
          ∧ outbox s5
            = outbox s4
              ++ [toXml {| o_kind := v_type vecDef; o_device := "CCD";
                           o_name := "TELESCOPE_MOTION_NS";
                           o_ones := [{| a_name := "MOTION_NORTH";
                                         a_value := "Off" |}] |}]
          ∧ (∀ s6, k' Resolved s6 = Settled (Thrown e) s6)
          ∧ (∀ e' s6, k' (Rejected e') s6 = Settled (Thrown e') s6).
Proof.
  assert (∃ vecDef, getVectorInTree "CCD" "TELESCOPE_MOTION_NS" tracking
                    = Some vecDef
                    ∧ isBusy (v_state vecDef) = false)
    as (vecDef & HvecDef & Hidle)
    by (eexists; split; vm_compute; reflexivity).
  assert (getVec "CCD" "TELESCOPE_MOTION_NS" tracking = Normal tt) as Hvec
    by (vm_compute; reflexivity).
  pose proof (pulseParam_reaches_try "CCD" "TELESCOPE_MOTION_NS"
                "MOTION_NORTH" tracking tracking tracking vecDef
                Hvec Hvec HvecDef Hidle) as Heq.
  eexists _, _, _. split; [exact Heq|].
  exact (pulseParam_off_after_rejected_wait "CCD" "TELESCOPE_MOTION_NS"
           "MOTION_NORTH" tracking tracking tracking _ _ _ Heq).
Defined.

(** A cancelled pulse, evaluated: the "Off" command follows the "On"
    one. *)
Example pulseParam_cancelled_sends_off :
  outbox (stateOf (resume pulsing (Rejected CancelledError) (stateOf pulsing)))
  = [getProperties; motionNorth "On"; motionNorth "Off"].
Proof. vm_compute. reflexivity. Qed.

(** * Further properties *)

(** ** The reducer, message by message *)

Lemma indexChilds_snoc cs c :
  indexChilds (cs ++ [c]) = assign (key (c_name c)) c (indexChilds cs).
Proof. unfold indexChilds. by rewrite foldl_app. Qed.

Lemma childKeys_snoc cs c : childKeys (cs ++ [c]) = childKeys cs ++ [key (c_name c)].
Proof. unfold childKeys. by rewrite map_app. Qed.

Lemma indexChilds_lookup_distinct cs c :
  NoDup (childKeys cs) → c ∈ cs → key (c_name c) ≠ "__proto__" →
  indexChilds cs !! key (c_name c) = Some c.
Proof.
  induction cs as [|x cs IH] using rev_ind; intros Hnodup Hin Hname.
  - by apply elem_of_nil in Hin.
  - rewrite childKeys_snoc in Hnodup.
    apply NoDup_app in Hnodup as (Hnodup & Hfresh & _).
    rewrite indexChilds_snoc, lookup_assign.
    apply elem_of_app in Hin as [Hin|Hin].
    + rewrite decide_False; [by apply IH|].
      intros [Heq _]. apply (Hfresh (key (c_name c))).
      * unfold childKeys. apply list_elem_of_In, in_map_iff.
        exists c. split; [done|]. by apply list_elem_of_In.
      * rewrite Heq. by left.
    + apply list_elem_of_singleton in Hin as ->. by rewrite decide_True.
Qed.

Lemma indexChilds_lookup_other cs name :
  name ∉ childKeys cs → indexChilds cs !! name = None.
Proof.
  intros Hnot. destruct (indexChilds cs !! name) as [c|] eqn:Hc; [|done].
  destruct Hnot. apply indexChilds_keys. eauto.
Qed.

(** No child is indexed under "__proto__". *)
Lemma indexChilds_lookup_proto cs : indexChilds cs !! "__proto__" = None.
Proof.
  induction cs as [|x cs IH] using rev_ind; [done|].
  rewrite indexChilds_snoc, lookup_assign.
  by rewrite decide_False by (intros [-> ?]; done).
Qed.

(** X1. A definition message with its child array, its children named
    apart, for a device and a vector not named "__proto__": afterwards the
    vector exists under the device and name of the message, with the
    state of the message, stamped with the new value of the revision
    counter; each child not named "__proto__" reads back with its text
    and label under its name, in the order given by [childNames]; no
    other name reads, nor does "__proto__". *)
Theorem definition_reads_back m kind cs s :
  m_tag m = defVector kind →
  m_childs m = Some cs →
  NoDup (childKeys cs) →
  key (m_device m) ≠ "__proto__" →
  key (m_name m) ≠ "__proto__" →
  let device := key (m_device m) in
  let vectorId := key (m_name m) in
  let s' := (onMessage m s).2 in
  (onMessage m s).1 = Normal tt
  ∧ exists_ device vectorId s' = true
  ∧ getState device vectorId s' = Normal (m_state m)
  ∧ getRev device vectorId s' = Normal (globalRevisionId s + 1)%N
  ∧ (childNames <$> getVectorInTree device vectorId s')
    = Some (map c_name cs)
  ∧ (∀ c, c ∈ cs → key (c_name c) ≠ "__proto__" →
       getPropertyValueIfExists device vectorId (key (c_name c)) s'
       = Some (c_text c)
       ∧ getPropertyValue device vectorId (key (c_name c)) s'
         = Normal (c_text c)
       ∧ getPropertyLabelIfExists device vectorId (key (c_name c)) s'
         = Some (c_label c))
  ∧ (∀ name, name ∉ childKeys cs ∨ name = "__proto__" →
       getPropertyValueIfExists device vectorId name s' = None
       ∧ getPropertyLabelIfExists device vectorId name s' = None).
Proof.
  intros Htag Hchilds Hnodup Hdevice Hname device vectorId s'.
  assert (∃ vecDef, getVectorInTree device vectorId s' = Some vecDef
                    ∧ v_state vecDef = m_state m
                    ∧ v_rev vecDef = (globalRevisionId s + 1)%N
                    ∧ childNames vecDef = map c_name cs
                    ∧ childs vecDef = indexChilds cs
                    ∧ (onMessage m s).1 = Normal tt)
    as (vecDef & Hvec & Hstate & Hrev & Hnames & Hidx & Hreturn).
  { subst s'. unfold onMessage. rewrite Htag, Hchilds. simpl.
    rewrite getVectorInTree_vectorAt, checkListeners_deviceTree. simpl.
    rewrite vectorAt_defineVector.
    rewrite decide_True by done. eexists. split; [reflexivity|]. done. }
  split; [done|].
  unfold exists_, getState, getRev, getPropertyValueIfExists,
    getPropertyValue, getPropertyLabelIfExists, getExistingVectorInTree.
  rewrite Hvec. simpl. rewrite Hstate, Hrev, Hnames, Hidx.
  split; [done|].
  split; [done|]. split; [done|]. split; [done|]. split.
  - intros c Hc Hc'.
    by rewrite (indexChilds_lookup_distinct cs c Hnodup Hc Hc').
  - intros name [Hother| ->].
    + by rewrite indexChilds_lookup_other.
    + by rewrite indexChilds_lookup_proto.
Qed.

Lemma definition_reads_back_witness :
  let m := defConnection in
  let cs := [{| c_name := Some "CONNECT"; c_label := None;
                c_text := Some "Off" |};
             {| c_name := Some "DISCONNECT"; c_label := None;
                c_text := Some "On" |}] in
  let s := newIndiConnection 7 in
  let device := key (m_device m) in
  let vectorId := key (m_name m) in
  let s' := (onMessage m s).2 in
  (onMessage m s).1 = Normal tt
  ∧ exists_ device vectorId s' = true
  ∧ getState device vectorId s' = Normal (m_state m)
  ∧ getRev device vectorId s' = Normal (globalRevisionId s + 1)%N
  ∧ (childNames <$> getVectorInTree device vectorId s')
    = Some (map c_name cs)
  ∧ (∀ c, c ∈ cs → key (c_name c) ≠ "__proto__" →
       getPropertyValueIfExists device vectorId (key (c_name c)) s'
       = Some (c_text c)
       ∧ getPropertyValue device vectorId (key (c_name c)) s'
         = Normal (c_text c)
       ∧ getPropertyLabelIfExists device vectorId (key (c_name c)) s'
         = Some (c_label c))
  ∧ (∀ name, name ∉ childKeys cs ∨ name = "__proto__" →
       getPropertyValueIfExists device vectorId name s' = None
       ∧ getPropertyLabelIfExists device vectorId name s' = None).
Proof.
  intros m cs s.
  assert (m_tag m = defVector Switch) as Htag by reflexivity.
  assert (m_childs m = Some cs) as Hchilds by reflexivity.
  assert (NoDup (childKeys cs)) as Hnodup by compute_done.
  assert (key (m_device m) ≠ "__proto__") as Hdevice by done.
  assert (key (m_name m) ≠ "__proto__") as Hname by done.
  exact (definition_reads_back m Switch cs s Htag Hchilds Hnodup Hdevice
           Hname).
Defined.

Lemma applyUpdates_snoc updates u (cs : gmap string Child) :
  applyUpdates (updates ++ [u]) cs
  = match applyUpdates updates cs !! key (c_name u) with
    | None => applyUpdates updates cs
    | Some current =>
        <[key (c_name u) :=
            set_c_text (Some (default "" (c_text u))) current]>
          (applyUpdates updates cs)
    end.
Proof. unfold applyUpdates. by rewrite foldl_app. Qed.

Lemma applyUpdates_lookup_other updates (cs : gmap string Child) name :
  name ∉ childKeys updates → applyUpdates updates cs !! name = cs !! name.
Proof.
  induction updates as [|u updates IH] using rev_ind; intros Hnot; [done|].
  rewrite childKeys_snoc in Hnot. apply not_elem_of_app in Hnot as [Hnot Hu].
  rewrite applyUpdates_snoc.
  destruct (applyUpdates updates cs !! key (c_name u)); [|by apply IH].
  rewrite lookup_insert_ne; [by apply IH|].
  intros Heq. apply Hu. rewrite Heq. by left.
Qed.

Lemma applyUpdates_lookup_distinct updates (cs : gmap string Child) u current :
  NoDup (childKeys updates) → u ∈ updates →
  cs !! key (c_name u) = Some current →
  applyUpdates updates cs !! key (c_name u)
  = Some (set_c_text (Some (default "" (c_text u))) current).
Proof.
  induction updates as [|x updates IH] using rev_ind;
    intros Hnodup Hin Hcurrent.
  - by apply elem_of_nil in Hin.
  - rewrite childKeys_snoc in Hnodup.
    apply NoDup_app in Hnodup as (Hnodup & Hfresh & _).
    rewrite applyUpdates_snoc. apply elem_of_app in Hin as [Hin|Hin].
    + assert (key (c_name x) ≠ key (c_name u)) as Hne.
      { intros Heq. apply (Hfresh (key (c_name u))).
        - unfold childKeys. apply list_elem_of_In, in_map_iff.
          exists u. split; [done|]. by apply list_elem_of_In.
        - rewrite <- Heq. by left. }
      destruct (applyUpdates updates cs !! key (c_name x)); [|by apply IH].
      rewrite lookup_insert_ne by done. by apply IH.
    + apply list_elem_of_singleton in Hin as ->.
      rewrite applyUpdates_lookup_other.
      * rewrite Hcurrent. by rewrite lookup_insert_eq.
      * intros Hin. apply (Hfresh _ Hin). by left.
Qed.

(** X2. An update message with its child array, its children named apart,
    for a vector of the tree: it returns normally; the vector takes the
    state and timestamp of the message, the timeout of the message or 0,
    the new revision stamp, and keeps its type, its child names and, when
    the message has none, its message text.  A listed child that the
    vector has takes the text of the update (the empty string when the
    update has none) and keeps its name and label; the other children are
    as they were. *)
Theorem update_overwrites_listed_children m kind updates s prop :
  m_tag m = setVector kind →
  m_childs m = Some updates →
  NoDup (childKeys updates) →
  getVectorInTree (key (m_device m)) (key (m_name m)) s = Some prop →
  (onMessage m s).1 = Normal tt
  ∧ ∃ prop',
      getVectorInTree (key (m_device m)) (key (m_name m)) (onMessage m s).2
      = Some prop'
      ∧ v_state prop' = m_state m
      ∧ v_timestamp prop' = m_timestamp m
      ∧ v_timeout prop' = Some (default "0" (m_timeout m))
      ∧ v_rev prop' = (globalRevisionId s + 1)%N
      ∧ v_type prop' = v_type prop
      ∧ childNames prop' = childNames prop
      ∧ v_message prop'
        = match m_message m with Some txt => Some txt | None => v_message prop end
      ∧ (∀ u current,
           u ∈ updates → childs prop !! key (c_name u) = Some current →
           childs prop' !! key (c_name u)
           = Some {| c_name := c_name current; c_label := c_label current;
                     c_text := Some (default "" (c_text u)) |})
      ∧ (∀ name, name ∉ childKeys updates →
           childs prop' !! name = childs prop !! name).
Proof.
  intros Htag Hchilds Hnodup Hprop. unfold onMessage.
  rewrite Htag, Hchilds. change (deviceTree (bump s)) with (deviceTree s).
  unfold getVectorInTree in Hprop.
  destruct (deviceTree s !! key (m_device m)) as [dev|] eqn:Hdev;
    [|discriminate].
  rewrite Hprop. simpl. split; [done|].
  rewrite getVectorInTree_vectorAt, checkListeners_deviceTree. simpl.
  rewrite vectorAt_storeVector, decide_True by done.
  eexists. split; [reflexivity|]. simpl. repeat (split; [done|]). split.
  - intros u current Hu Hcurrent.
    by rewrite (applyUpdates_lookup_distinct updates _ u current).
  - intros name Hname. by apply applyUpdates_lookup_other.
Qed.

Lemma update_overwrites_listed_children_witness :
  let m := setConnection in
  let s := justDefined in
  let prop := connectionAsDefined in
  let updates := [{| c_name := Some "CONNECT"; c_label := None;
                     c_text := Some "On" |};
                  {| c_name := Some "UNHEARD_OF"; c_label := None;
                     c_text := Some "On" |}] in
  (onMessage m s).1 = Normal tt
  ∧ ∃ prop',
      getVectorInTree (key (m_device m)) (key (m_name m)) (onMessage m s).2
      = Some prop'
      ∧ v_state prop' = m_state m
      ∧ v_timestamp prop' = m_timestamp m
      ∧ v_timeout prop' = Some (default "0" (m_timeout m))
      ∧ v_rev prop' = (globalRevisionId s + 1)%N
      ∧ v_type prop' = v_type prop
      ∧ childNames prop' = childNames prop
      ∧ v_message prop'
        = match m_message m with Some txt => Some txt | None => v_message prop end
      ∧ (∀ u current,
           u ∈ updates → childs prop !! key (c_name u) = Some current →
           childs prop' !! key (c_name u)
           = Some {| c_name := c_name current; c_label := c_label current;
                     c_text := Some (default "" (c_text u)) |})
      ∧ (∀ name, name ∉ childKeys updates →
           childs prop' !! name = childs prop !! name).
Proof.
  assert (getVectorInTree (key (m_device setConnection))
            (key (m_name setConnection)) justDefined
          = Some connectionAsDefined) as Hprop by (vm_compute; reflexivity).
  assert (NoDup (childKeys
            [{| c_name := Some "CONNECT"; c_label := None;
                c_text := Some "On" |};
             {| c_name := Some "UNHEARD_OF"; c_label := None;
                c_text := Some "On" |}])) as Hnodup by compute_done.
  exact (update_overwrites_listed_children setConnection Switch _
           justDefined connectionAsDefined eq_refl eq_refl Hnodup Hprop).
Defined.

(** X3. An update message without child array, for a vector of the tree:
    the vector takes the state, the timestamp and the new revision stamp
    all the same and keeps its children, but [onMessage] returns at the
    test of [updates]: no dispatch pass is scheduled and the snapshot of
    the listeners is not renewed, so that no waiter is told. *)
Theorem update_without_children_wakes_nobody m kind s prop :
  m_tag m = setVector kind →
  m_childs m = None →
  getVectorInTree (key (m_device m)) (key (m_name m)) s = Some prop →
  (onMessage m s).1 = Normal tt
  ∧ (∃ prop',
       getVectorInTree (key (m_device m)) (key (m_name m)) (onMessage m s).2
       = Some prop'
       ∧ v_state prop' = m_state m
       ∧ v_timestamp prop' = m_timestamp m
       ∧ v_rev prop' = (globalRevisionId s + 1)%N
       ∧ childs prop' = childs prop)
  ∧ nextTick (onMessage m s).2 = nextTick s
  ∧ checkingListeners (onMessage m s).2 = checkingListeners s.
Proof.
  intros Htag Hchilds Hprop. unfold onMessage.
  rewrite Htag, Hchilds. change (deviceTree (bump s)) with (deviceTree s).
  unfold getVectorInTree in Hprop.
  destruct (deviceTree s !! key (m_device m)) as [dev|] eqn:Hdev;
    [|discriminate].
  rewrite Hprop. simpl. split; [done|]. split; [|done].
  rewrite getVectorInTree_vectorAt. simpl.
  rewrite vectorAt_storeVector, decide_True by done.
  eexists. split; [reflexivity|]. done.
Qed.

Lemma update_without_children_wakes_nobody_witness :
  let m := busyWithoutChildren in
  let s := justDefined in
  let prop := connectionAsDefined in
  (onMessage m s).1 = Normal tt
  ∧ (∃ prop',
       getVectorInTree (key (m_device m)) (key (m_name m)) (onMessage m s).2
       = Some prop'
       ∧ v_state prop' = m_state m
       ∧ v_timestamp prop' = m_timestamp m
       ∧ v_rev prop' = (globalRevisionId s + 1)%N
       ∧ childs prop' = childs prop)
  ∧ nextTick (onMessage m s).2 = nextTick s
  ∧ checkingListeners (onMessage m s).2 = checkingListeners s.
Proof.
  assert (getVectorInTree (key (m_device busyWithoutChildren))
            (key (m_name busyWithoutChildren)) justDefined
          = Some connectionAsDefined) as Hprop by (vm_compute; reflexivity).
  exact (update_without_children_wakes_nobody busyWithoutChildren Switch
           justDefined connectionAsDefined eq_refl eq_refl Hprop).
Defined.

(** X4. The deletion of a vector of the tree removes that vector and
    nothing else: every other vector, of this device or of another, is as
    it was, and the device stays, were it left without vector. *)
Theorem deletion_removes_the_vector m name s dev gone :
  m_tag m = delProperty →
  m_name m = Some name →
  deviceTree s !! key (m_device m) = Some dev →
  dev !! name = Some gone →
  (onMessage m s).1 = Normal tt
  ∧ getVectorInTree (key (m_device m)) name (onMessage m s).2 = None
  ∧ is_Some (deviceTree (onMessage m s).2 !! key (m_device m))
  ∧ ∀ device vectorId,
      (device, vectorId) ≠ (key (m_device m), name) →
      getVectorInTree device vectorId (onMessage m s).2
      = getVectorInTree device vectorId s.
Proof.
  intros Htag Hname Hdev Hgone. unfold onMessage.
  rewrite Htag, Hname. change (deviceTree (bump s)) with (deviceTree s).
  rewrite Hdev, Hgone. simpl. split; [done|].
  rewrite !getVectorInTree_vectorAt, checkListeners_deviceTree. simpl.
  split; [|split].
  - rewrite (vectorAt_delete_vector _ _ dev) by done.
    by rewrite decide_True.
  - rewrite lookup_insert_eq. eauto.
  - intros device vectorId Hother.
    rewrite !getVectorInTree_vectorAt, checkListeners_deviceTree. simpl.
    rewrite (vectorAt_delete_vector _ _ dev) by done.
    rewrite decide_False; [done|]. intros [-> ->]. by apply Hother.
Qed.

Lemma deletion_removes_the_vector_witness :
  let m := delConnection in
  let s := justDefined in
  (onMessage m s).1 = Normal tt
  ∧ getVectorInTree (key (m_device m)) "CONNECTION" (onMessage m s).2 = None
  ∧ is_Some (deviceTree (onMessage m s).2 !! key (m_device m))
  ∧ ∀ device vectorId,
      (device, vectorId) ≠ (key (m_device m), "CONNECTION") →
      getVectorInTree device vectorId (onMessage m s).2
      = getVectorInTree device vectorId s.
Proof.
  assert (deviceTree justDefined !! key (m_device delConnection)
          = Some {[ "CONNECTION" := connectionAsDefined ]}) as Hdev
    by (vm_compute; reflexivity).
  assert (({[ "CONNECTION" := connectionAsDefined ]}
             : gmap string VectorDef) !! "CONNECTION"
          = Some connectionAsDefined) as Hgone by apply lookup_singleton_eq.
  exact (deletion_removes_the_vector delConnection "CONNECTION" justDefined
           _ _ eq_refl eq_refl Hdev Hgone).
Defined.

(** X5. The deletion of a device of the tree (a [delProperty] without
    name) removes the device with all its vectors; the vectors of the
    other devices are as they were. *)
Theorem deletion_removes_the_device m s dev :
  m_tag m = delProperty →
  m_name m = None →
  deviceTree s !! key (m_device m) = Some dev →
  (onMessage m s).1 = Normal tt
  ∧ deviceTree (onMessage m s).2 !! key (m_device m) = None
  ∧ (∀ vectorId,
       getVectorInTree (key (m_device m)) vectorId (onMessage m s).2 = None)
  ∧ ∀ device vectorId,
      device ≠ key (m_device m) →
      getVectorInTree device vectorId (onMessage m s).2
      = getVectorInTree device vectorId s.
Proof.
  intros Htag Hname Hdev. unfold onMessage.
  rewrite Htag, Hname. change (deviceTree (bump s)) with (deviceTree s).
  rewrite Hdev. simpl. split; [done|].
  rewrite checkListeners_deviceTree. simpl. split; [|split].
  - apply lookup_delete_eq.
  - intros vectorId.
    rewrite getVectorInTree_vectorAt, checkListeners_deviceTree. simpl.
    rewrite vectorAt_delete_device. by rewrite decide_True.
  - intros device vectorId Hother.
    rewrite !getVectorInTree_vectorAt, checkListeners_deviceTree. simpl.
    rewrite vectorAt_delete_device. by rewrite decide_False.
Qed.

Lemma deletion_removes_the_device_witness :
  let m := delDevice in
  let s := justDefined in
  (onMessage m s).1 = Normal tt
  ∧ deviceTree (onMessage m s).2 !! key (m_device m) = None
  ∧ (∀ vectorId,
       getVectorInTree (key (m_device m)) vectorId (onMessage m s).2 = None)
  ∧ ∀ device vectorId,
      device ≠ key (m_device m) →
      getVectorInTree device vectorId (onMessage m s).2
      = getVectorInTree device vectorId s.
Proof.
  assert (deviceTree justDefined !! key (m_device delDevice)
          = Some {[ "CONNECTION" := connectionAsDefined ]}) as Hdev
    by (vm_compute; reflexivity).
  exact (deletion_removes_the_device delDevice justDefined _
           eq_refl eq_refl Hdev).
Defined.

(** X6. A deletion whose device is not in the tree, or whose vector is not
    under that device, is ignored: [onMessage] returns normally and only
    the revision counter has moved. *)
Theorem deletion_of_unknown_ignored m s :
  m_tag m = delProperty →
  deviceTree s !! key (m_device m) = None
  ∨ (∃ name, m_name m = Some name
             ∧ getVectorInTree (key (m_device m)) name s = None) →
  onMessage m s = (Normal tt, bump s).
Proof.
  intros Htag Hunknown. unfold onMessage. rewrite Htag.
  change (deviceTree (bump s)) with (deviceTree s).
  destruct Hunknown as [Hdev|(name & Hname & Hvec)].
  - by rewrite Hdev.
  - unfold getVectorInTree in Hvec. rewrite Hname.
    destruct (deviceTree s !! key (m_device m)) as [dev|]; [|done].
    by rewrite Hvec.
Qed.

Lemma deletion_of_unknown_ignored_witness :
  onMessage delConnection (newIndiConnection 3)
  = (Normal tt, bump (newIndiConnection 3)).
Proof.
  apply (deletion_of_unknown_ignored delConnection (newIndiConnection 3)).
  - reflexivity.
  - left. apply lookup_empty.
Defined.

(** X7. A message changes no vector but its own: the vectors of the other
    devices are as they were, and so are the other vectors of its device
    unless the message deletes the whole device. *)
Theorem onMessage_touches_its_vector_only m s device vectorId :
  device ≠ key (m_device m)
  ∨ (vectorId ≠ key (m_name m)
     ∧ ¬ (m_tag m = delProperty ∧ m_name m = None)) →
  getVectorInTree device vectorId (onMessage m s).2
  = getVectorInTree device vectorId s.
Proof.
  intros Hother.
  assert ((device, vectorId) ≠ (key (m_device m), key (m_name m))) as Hne.
  { intros [= -> ->]. destruct Hother as [?|[? _]]; done. }
  assert (¬ (device = key (m_device m) ∧ vectorId = key (m_name m))) as Hne'.
  { intros [-> ->]. by apply Hne. }
  rewrite !getVectorInTree_vectorAt. unfold onMessage.
  change (deviceTree (bump s)) with (deviceTree s).
  destruct (m_tag m) as [k|k| |] eqn:Htag.
  - destruct (m_childs m); [|done]. simpl.
    rewrite checkListeners_deviceTree. simpl.
    rewrite vectorAt_defineVector, decide_False; [done|].
    intros (? & ? & _). by apply Hne'.
  - destruct (deviceTree s !! key (m_device m)) as [dev|] eqn:Hdev; [|done].
    destruct (dev !! key (m_name m)) as [prop|]; [|done].
    destruct (m_childs m); simpl; rewrite ?checkListeners_deviceTree; simpl;
      by rewrite vectorAt_storeVector, decide_False.
  - destruct (deviceTree s !! key (m_device m)) as [dev|] eqn:Hdev; [|done].
    destruct (m_name m) as [name|] eqn:Hname.
    + destruct (dev !! name); [|done]. simpl.
      rewrite checkListeners_deviceTree. simpl.
      rewrite (vectorAt_delete_vector _ _ dev) by done.
      by rewrite decide_False.
    + simpl. rewrite checkListeners_deviceTree. simpl.
      rewrite vectorAt_delete_device. rewrite decide_False; [done|].
      intros ->. destruct Hother as [?|[_ Hnot]]; [done|]. by apply Hnot.
  - simpl. by destruct (dispatchMessage_shape m (bump s)) as (l & d & ->).
Qed.

Lemma onMessage_touches_its_vector_only_witness :
  getVectorInTree "CCD" "CONNECTION" (onMessage defMotion justDefined).2
  = getVectorInTree "CCD" "CONNECTION" justDefined.
Proof.
  apply (onMessage_touches_its_vector_only defMotion justDefined
           "CCD" "CONNECTION").
  right. split; [discriminate|]. intros [? _]. discriminate.
Defined.

(** ** What dispatch passes and messages leave alone *)

Lemma removeListener_frame f s :
  deviceTree (removeListener f s) = deviceTree s
  ∧ transport (removeListener f s) = transport s.
Proof. unfold removeListener. simpl. by destruct (checkingListeners s). Qed.

Lemma settle_frame w n s :
  deviceTree (settle w n s) = deviceTree s
  ∧ transport (settle w n s) = transport s
  ∧ listeners (settle w n s) = listeners s.
Proof.
  unfold settle. destruct (waits s !! w) as [wt|]; [|done].
  by destruct (w_next wt).
Qed.

Lemma dettach_frame w s :
  deviceTree (dettach w s) = deviceTree s
  ∧ transport (dettach w s) = transport s.
Proof.
  unfold dettach. destruct (waits s !! w) as [wt|]; [|done].
  destruct (w_listener wt) as [l|]; [|done]. simpl.
  apply removeListener_frame.
Qed.

Lemma waitListener_frame w s :
  deviceTree (waitListener w s) = deviceTree s
  ∧ transport (waitListener w s) = transport s.
Proof.
  unfold waitListener. destruct (waits s !! w) as [wt|]; [|done].
  destruct (w_next wt); try done.
  destruct (dettach_frame w s) as [Htree Htransport].
  destruct (w_predicate wt _ _); try done.
  - destruct (settle_frame w Done (dettach w s)) as (-> & -> & _). done.
  - destruct (settle_frame w (Failed e) (dettach w s)) as (-> & -> & _). done.
Qed.

Lemma transport_eq s s' :
  transport s' = transport s →
  connected s' = connected s ∧ dead s' = dead s
  ∧ queue s' = queue s ∧ socket s' = socket s.
Proof. unfold transport. intros [= -> -> -> ->]. done. Qed.

Lemma checkListeners_transport s : transport (checkListeners s) = transport s.
Proof. unfold checkListeners. by destruct (listeners s). Qed.

(** A call other than a command leaves the tree and the server side of
    the state alone. *)
Lemma clientCall_frame c s :
  isCommand c = false →
  deviceTree (clientCall c s).2 = deviceTree s
  ∧ transport (clientCall c s).2 = transport s.
Proof.
  destruct c; simpl; try done.
  - intros _. apply removeListener_frame.
  - intros _. unfold addConnectionListener. by case_bool_decide.
Qed.

(** A command of a callback: the flags stay, what was asked to be sent
    grows at its end. *)
Lemma clientCall_outbox c s :
  connected (clientCall c s).2 = connected s
  ∧ dead (clientCall c s).2 = dead s
  ∧ outbox s `prefix_of` outbox (clientCall c s).2.
Proof.
  destruct (isCommand c) eqn:Hc.
  - destruct c; try discriminate. simpl. unfold setValues.
    destruct (getExistingVectorInTree _ _ _) as [vecDef|]; simpl; [|done].
    rewrite queueMessage_outbox. unfold queueMessage, flushQueue. simpl.
    split; [destruct (connected s) eqn:Hcs; simpl; by rewrite ?Hcs|].
    split; [by destruct (connected s)|].
    change (outbox (set_deviceTree _ s)) with (outbox s).
    by apply prefix_app_r.
  - destruct (clientCall_frame c s Hc) as [_ Ht].
    destruct (transport_eq _ _ Ht) as (Hco & Hd & Hq & Hs).
    unfold outbox. by rewrite Hco, Hd, Hq, Hs.
Qed.

Lemma onMessage_transport m s : transport (onMessage m s).2 = transport s.
Proof.
  unfold onMessage. change (deviceTree (bump s)) with (deviceTree s).
  assert (∀ s0, transport (checkListeners s0) = transport s0) as Hcheck.
  { intros s0. unfold checkListeners. by destruct (listeners s0). }
  destruct (m_tag m) as [k|k| |];
    [| | |simpl; by destruct (dispatchMessage_shape m (bump s))
                      as (l & d & ->)].
  - destruct (m_childs m); [|done]. simpl. by rewrite Hcheck.
  - destruct (deviceTree s !! key (m_device m)) as [dev|]; [|done].
    destruct (dev !! key (m_name m)); [|done].
    destruct (m_childs m); [|done]. simpl. by rewrite Hcheck.
  - destruct (deviceTree s !! key (m_device m)) as [dev|]; [|done].
    destruct (m_name m) as [name|].
    + destruct (dev !! name); [|done]. simpl. by rewrite Hcheck.
    + simpl. by rewrite Hcheck.
Qed.

Lemma tick_outbox clients s :
  connected (perform clients Tick s) = connected s
  ∧ dead (perform clients Tick s) = dead s
  ∧ outbox s `prefix_of` outbox (perform clients Tick s).
Proof.
  apply (tick_preserved clients
           (λ s s', connected s' = connected s ∧ dead s' = dead s
                    ∧ outbox s `prefix_of` outbox s')
           (λ _, True)); try done.
  - intros s1 s2 s3 (Hc12 & Hd12 & Ho12) (Hc23 & Hd23 & Ho23).
    split; [congruence|]. split; [congruence|]. by etrans.
  - intros c s0 _. apply clientCall_outbox.
  - intros w s0. destruct (waitListener_frame w s0) as [_ Ht].
    destruct (transport_eq _ _ Ht) as (Hco & Hd & Hq & Hs).
    unfold outbox. by rewrite Hco, Hd, Hq, Hs.
Qed.

Lemma tick_transport clients s :
  noCommands clients →
  transport (perform clients Tick s) = transport s.
Proof.
  intros Hquiet.
  apply (tick_preserved clients (λ s s', transport s' = transport s)
           (λ c, isCommand c = false)); try done.
  - intros s1 s2 s3 H12 H23. by rewrite H23.
  - intros c s0 Hc0. by apply clientCall_frame.
  - intros w s0. apply waitListener_frame.
Qed.


Lemma tick_keeps_queue_flushed clients s :
  (connected s = true → queue s = []) →
  connected (perform clients Tick s) = true →
  queue (perform clients Tick s) = [].
Proof.
  apply (tick_preserved clients
           (λ s s', (connected s = true → queue s = []) →
                    connected s' = true → queue s' = [])
           (λ _, True)); try done.
  - intros s1 s2 s3 H12 H23 H1. by apply H23, H12.
  - intros c s0 _. destruct (isCommand c) eqn:Hc.
    + destruct c; try discriminate. simpl. unfold setValues.
      destruct (getExistingVectorInTree _ _ _); [|done].
      simpl. unfold queueMessage, flushQueue. simpl.
      destruct (connected s0) eqn:Hc0; simpl; [done|congruence].
    + destruct (clientCall_frame c s0 Hc) as [_ Ht].
      destruct (transport_eq _ _ Ht) as (-> & _ & -> & _). done.
  - intros w s0. destruct (waitListener_frame w s0) as [_ Ht].
    destruct (transport_eq _ _ Ht) as (-> & _ & -> & _). done.
Qed.

Lemma perform_keeps_queue_flushed clients e s :
  (connected s = true → queue s = []) →
  connected (perform clients e s) = true → queue (perform clients e s) = [].
Proof.
  intros Hinv. destruct e as [| |m| |device vectorId affectations].
  - done.
  - simpl. unfold onClose.
    destruct (transport_eq _ _ (checkListeners_transport
                (set_dead true (set_queue [] (set_connected false (bump s))))))
      as (-> & _ & -> & _).
    done.
  - simpl.
    destruct (transport_eq _ _ (onMessage_transport m s)) as (-> & _ & -> & _).
    done.
  - by apply tick_keeps_queue_flushed.
  - simpl. unfold setValues. destruct (getExistingVectorInTree _ _ _); [|done].
    simpl. unfold queueMessage, flushQueue. simpl.
    destruct (connected s) eqn:Hc; simpl; [done|congruence].
Qed.

Lemma run_keeps_queue_flushed clients evs s :
  (connected s = true → queue s = []) →
  connected (run clients evs s) = true →
  queue (run clients evs s) = [].
Proof.
  revert s. induction evs as [|e evs IH]; intros s Hinv; [done|].
  change (run clients (e :: evs) s)
    with (run clients evs (perform clients e s)).
  apply IH. by apply perform_keeps_queue_flushed.
Qed.

(** X9. While the connection is connected nothing stays in the queue:
    after any events, commands and passes, whatever the callbacks do.  A
    command issued on a connected connection is written to the socket at
    once; what was queued before the connection is written by the connect
    handler, behind the discovery request; and an event other than the
    connect and close handlers drops nothing of what was asked to be
    sent. *)
Theorem connected_leaves_nothing_queued clients evs s :
  (connected s = true → queue s = []) →
  let s' := run clients evs s in
  (connected s' = true → queue s' = [])
  ∧ socket (perform clients SocketConnect s')
    = socket s' ++ [getProperties] ++ queue s'
  ∧ queue (perform clients SocketConnect s') = []
  ∧ (∀ device vectorId affectations vecDef,
       connected s' = true →
       getVectorInTree device vectorId s' = Some vecDef →
       socket (perform clients (Command device vectorId affectations) s')
       = socket s' ++ [toXml {| o_kind := v_type vecDef; o_device := device;
                                o_name := vectorId;
                                o_ones := affectations |}]
       ∧ queue (perform clients (Command device vectorId affectations) s')
         = [])
  ∧ (∀ e, e ≠ SocketConnect → e ≠ SocketClose →
          outbox s' `prefix_of` outbox (perform clients e s')).
Proof.
  intros Hinv s'.
  assert (connected s' = true → queue s' = []) as Hinv'
    by by apply run_keeps_queue_flushed.
  split; [done|]. split.
  { simpl. unfold onConnect, flushQueue. simpl. by rewrite <- app_assoc. }
  split; [done|]. split.
  - intros device vectorId affectations vecDef Hc Hvec. simpl.
    unfold setValues, getExistingVectorInTree. rewrite Hvec. simpl.
    unfold queueMessage, flushQueue. simpl. rewrite Hc. simpl.
    rewrite (Hinv' Hc). done.
  - intros e Hconnect Hclose.
    destruct e as [| |m| |device vectorId affectations]; try done.
    + destruct (transport_eq _ _ (onMessage_transport m s'))
        as (_ & _ & Hq & Hs).
      simpl. unfold outbox. by rewrite Hq, Hs.
    + by destruct (tick_outbox clients s') as (_ & _ & ?).
    + simpl. unfold setValues.
      destruct (getExistingVectorInTree _ _ _); simpl; [|done].
      rewrite queueMessage_outbox. by apply prefix_app_r.
Qed.

Lemma connected_leaves_nothing_queued_witness :
  let clients := noClients in
  let evs := [SocketMessage defConnection;
              Command "CCD" "CONNECTION"
                [{| a_name := "CONNECT"; a_value := "On" |}];
              SocketConnect] in
  let s := newIndiConnection 0 in
  let s' := run clients evs s in
  (connected s' = true → queue s' = [])
  ∧ socket (perform clients SocketConnect s')
    = socket s' ++ [getProperties] ++ queue s'
  ∧ queue (perform clients SocketConnect s') = []
  ∧ (∀ device vectorId affectations vecDef,
       connected s' = true →
       getVectorInTree device vectorId s' = Some vecDef →
       socket (perform clients (Command device vectorId affectations) s')
       = socket s' ++ [toXml {| o_kind := v_type vecDef; o_device := device;
                                o_name := vectorId;
                                o_ones := affectations |}]
       ∧ queue (perform clients (Command device vectorId affectations) s')
         = [])
  ∧ (∀ e, e ≠ SocketConnect → e ≠ SocketClose →
          outbox s' `prefix_of` outbox (perform clients e s')).
Proof.
  intros clients evs s.
  assert (connected s = true → queue s = []) as Hinv by done.
  exact (connected_leaves_nothing_queued clients evs s Hinv).
Defined.

(** ** Revision stamps *)

Lemma onMessage_vector_origin m s device vectorId vecDef :
  getVectorInTree device vectorId (onMessage m s).2 = Some vecDef →
  getVectorInTree device vectorId s = Some vecDef
  ∨ v_rev vecDef = (globalRevisionId s + 1)%N.
Proof.
  rewrite !getVectorInTree_vectorAt. unfold onMessage.
  change (deviceTree (bump s)) with (deviceTree s).
  destruct (m_tag m) as [k|k| |] eqn:Htag.
  - destruct (m_childs m); [|by left]. simpl.
    rewrite checkListeners_deviceTree. simpl.
    rewrite vectorAt_defineVector. destruct (decide _); [|by left].
    intros [= <-]. by right.
  - destruct (deviceTree s !! key (m_device m)) as [dev|] eqn:Hdev;
      [|by left].
    destruct (dev !! key (m_name m)) as [prop|]; [|by left].
    destruct (m_childs m); simpl; rewrite ?checkListeners_deviceTree; simpl;
      rewrite vectorAt_storeVector; (destruct (decide _); [|by left]);
      intros [= <-]; by right.
  - destruct (deviceTree s !! key (m_device m)) as [dev|] eqn:Hdev;
      [|by left].
    destruct (m_name m) as [name|].
    + destruct (dev !! name); [|by left]. simpl.
      rewrite checkListeners_deviceTree. simpl.
      rewrite (vectorAt_delete_vector _ _ dev) by done.
      destruct (decide _); [discriminate|by left].
    + simpl. rewrite checkListeners_deviceTree. simpl.
      rewrite vectorAt_delete_device.
      destruct (decide _); [discriminate|by left].
  - simpl. destruct (dispatchMessage_shape m (bump s)) as (l & d & ->).
    by left.
Qed.

Lemma setValues_vector_origin device0 vectorId0 affectations s
  device vectorId vecDef :
  getVectorInTree device vectorId
    (setValues device0 vectorId0 affectations s).2 = Some vecDef →
  ∃ before, getVectorInTree device vectorId s = Some before
            ∧ v_rev vecDef = v_rev before
            ∧ childs vecDef = childs before.
Proof.
  unfold setValues, getExistingVectorInTree.
  destruct (getVectorInTree device0 vectorId0 s) as [target|] eqn:Htarget;
    [|eauto].
  simpl. rewrite !getVectorInTree_vectorAt. unfold queueMessage.
  rewrite flushQueue_deviceTree. simpl. rewrite vectorAt_storeVector.
  destruct (decide _) as [[-> ->]|]; [|eauto].
  intros [= <-]. exists target. by rewrite <- getVectorInTree_vectorAt.
Qed.

(** A dispatch pass defines no vector and restamps none, whatever its
    callbacks do. *)
Lemma tick_vector_origin clients s :
  ∀ device vectorId vecDef,
    getVectorInTree device vectorId (perform clients Tick s) = Some vecDef →
    ∃ before, getVectorInTree device vectorId s = Some before
              ∧ v_rev vecDef = v_rev before.
Proof.
  apply (tick_preserved clients
           (λ s s', ∀ device vectorId vecDef,
              getVectorInTree device vectorId s' = Some vecDef →
              ∃ before, getVectorInTree device vectorId s = Some before
                        ∧ v_rev vecDef = v_rev before)
           (λ _, True)); try (by eauto).
  - intros s1 s2 s3 H12 H23 device vectorId vecDef Hvec.
    destruct (H23 _ _ _ Hvec) as (mid & Hmid & ->). by apply H12.
  - intros c s0 _ device vectorId vecDef. destruct (isCommand c) eqn:Hc.
    + destruct c; try discriminate. simpl. intros Hvec.
      apply setValues_vector_origin in Hvec as (before & Hvec & -> & _).
      eauto.
    + destruct (clientCall_frame c s0 Hc) as [Htree _].
      rewrite !getVectorInTree_vectorAt, Htree. eauto.
  - intros w s0 device vectorId vecDef.
    destruct (waitListener_frame w s0) as [Htree _].
    rewrite !getVectorInTree_vectorAt, Htree. eauto.
Qed.

Lemma perform_stampsWithin clients rev0 e s :
  stampsWithin rev0 s → stampsWithin rev0 (perform clients e s).
Proof.
  intros [Hrev Hstamps]. unfold stampsWithin.
  rewrite perform_globalRevisionId.
  split; [destruct (isSocketEvent e); lia|].
  intros device vectorId vecDef.
  destruct e as [| |m| |device0 vectorId0 affectations].
  - simpl. intros Hvec. apply Hstamps in Hvec. lia.
  - simpl. unfold onClose.
    rewrite getVectorInTree_vectorAt, checkListeners_deviceTree.
    intros Hvec. apply Hstamps in Hvec. lia.
  - simpl. intros Hvec.
    apply onMessage_vector_origin in Hvec as [Hvec| ->]; [|lia].
    apply Hstamps in Hvec. lia.
  - intros Hvec.
    apply tick_vector_origin in Hvec as (before & Hvec & ->).
    apply Hstamps in Hvec. simpl. lia.
  - simpl. intros Hvec.
    apply setValues_vector_origin in Hvec as (before & Hvec & -> & _).
    apply Hstamps in Hvec. lia.
Qed.

(** X10. On a connection created when the revision counter stood at
    [rev], after any events, passes and commands: the revision stamp of
    every vector of the tree is larger than [rev] and at most the current
    value of the counter.  Stamps never run ahead of the counter, and
    commands (the optimistic Busy mark) do not restamp. *)
Theorem stamps_follow_the_counter clients evs rev device vectorId vecDef :
  getVectorInTree device vectorId (run clients evs (newIndiConnection rev))
  = Some vecDef →
  (rev < v_rev vecDef
   ≤ globalRevisionId (run clients evs (newIndiConnection rev)))%N.
Proof.
  assert (stampsWithin rev (run clients evs (newIndiConnection rev)))
    as [_ Hstamps]; [|apply Hstamps].
  induction evs as [|e evs IH] using rev_ind.
  - split; [simpl; lia|]. intros d v vd. by rewrite getVectorInTree_vectorAt.
  - rewrite run_app. by apply perform_stampsWithin.
Qed.

Lemma stamps_follow_the_counter_witness :
  ∃ vecDef,
    getVectorInTree "CCD" "CONNECTION" (run noClients
      [SocketConnect; SocketMessage defConnection; SocketMessage defMotion;
       Command "CCD" "CONNECTION" [{| a_name := "CONNECT"; a_value := "On" |}]]
      (newIndiConnection 5)) = Some vecDef
    ∧ (5 < v_rev vecDef
       ≤ globalRevisionId (run noClients
           [SocketConnect; SocketMessage defConnection;
            SocketMessage defMotion;
            Command "CCD" "CONNECTION"
              [{| a_name := "CONNECT"; a_value := "On" |}]]
           (newIndiConnection 5)))%N.
Proof.
  eexists. split; [vm_compute; reflexivity|].
  apply (stamps_follow_the_counter noClients _ 5 "CCD" "CONNECTION").
  vm_compute. reflexivity.
Defined.

(** ** The property model *)

(** X11. [setValues] on a vector of the tree returns normally, marks the
    vector Busy and leaves its revision stamp, its children and every
    other vector as they were.  It issues one command, of the type of the
    vector, for the given affectations in the given order (an empty list
    included): written to the socket at once, behind anything still
    queued, when the connection is connected; appended to the queue, the
    socket untouched, when it is not. *)
Theorem setValues_marks_busy_and_sends device vectorId affectations s vecDef :
  getVectorInTree device vectorId s = Some vecDef →
  let command := toXml {| o_kind := v_type vecDef; o_device := device;
                          o_name := vectorId; o_ones := affectations |} in
  let s' := (setValues device vectorId affectations s).2 in
  (setValues device vectorId affectations s).1 = Normal tt
  ∧ getVectorInTree device vectorId s'
    = Some (set_v_state (Some "Busy") vecDef)
  ∧ (∀ device' vectorId',
       (device', vectorId') ≠ (device, vectorId) →
       getVectorInTree device' vectorId' s'
       = getVectorInTree device' vectorId' s)
  ∧ (if connected s
     then socket s' = socket s ++ queue s ++ [command] ∧ queue s' = []
     else socket s' = socket s ∧ queue s' = queue s ++ [command])
  ∧ globalRevisionId s' = globalRevisionId s
  ∧ listeners s' = listeners s
  ∧ nextTick s' = nextTick s.
Proof.
  intros Hvec command s'. subst s'. unfold setValues, getExistingVectorInTree.
  rewrite Hvec. simpl. split; [done|].
  unfold queueMessage, flushQueue. simpl.
  destruct (connected s) eqn:Hc; simpl;
    rewrite !getVectorInTree_vectorAt; simpl;
    (split; [by rewrite vectorAt_storeVector, decide_True|]);
    (split; [intros device' vectorId' Hother;
             rewrite !getVectorInTree_vectorAt; simpl;
             rewrite vectorAt_storeVector, decide_False; [done|];
             intros [-> ->]; by apply Hother|]).
  - done.
  - done.
Qed.

Lemma setValues_marks_busy_and_sends_witness :
  let device := "CCD" in
  let vectorId := "CONNECTION" in
  let affectations := [{| a_name := "CONNECT"; a_value := "On" |}] in
  let s := justDefined in
  let vecDef := connectionAsDefined in
  let command := toXml {| o_kind := v_type vecDef; o_device := device;
                          o_name := vectorId; o_ones := affectations |} in
  let s' := (setValues device vectorId affectations s).2 in
  (setValues device vectorId affectations s).1 = Normal tt
  ∧ getVectorInTree device vectorId s'
    = Some (set_v_state (Some "Busy") vecDef)
  ∧ (∀ device' vectorId',
       (device', vectorId') ≠ (device, vectorId) →
       getVectorInTree device' vectorId' s'
       = getVectorInTree device' vectorId' s)
  ∧ (if connected s
     then socket s' = socket s ++ queue s ++ [command] ∧ queue s' = []
     else socket s' = socket s ∧ queue s' = queue s ++ [command])
  ∧ globalRevisionId s' = globalRevisionId s
  ∧ listeners s' = listeners s
  ∧ nextTick s' = nextTick s.
Proof.
  assert (getVectorInTree "CCD" "CONNECTION" justDefined
          = Some connectionAsDefined) as Hvec by (vm_compute; reflexivity).
  exact (setValues_marks_busy_and_sends "CCD" "CONNECTION"
           [{| a_name := "CONNECT"; a_value := "On" |}] justDefined
           connectionAsDefined Hvec).
Defined.

(** X12. The Busy mark of a command is optimistic and the next update of
    the vector replaces it: after [setValues] the vector is not ready for
    order, and after any update message for that device and vector it is
    ready again exactly when the state of the update is not "Busy",
    whether the update carries children or not. *)
Theorem busy_until_the_server_answers device vectorId affectations s vecDef
  m kind :
  getVectorInTree device vectorId s = Some vecDef →
  m_tag m = setVector kind →
  key (m_device m) = device →
  key (m_name m) = vectorId →
  let s1 := (setValues device vectorId affectations s).2 in
  isReadyForOrder device vectorId s1 = Normal false
  ∧ isReadyForOrder device vectorId (onMessage m s1).2
    = Normal (negb (isBusy (m_state m))).
Proof.
  intros Hvec Htag <- <- s1.
  assert (getVectorInTree (key (m_device m)) (key (m_name m)) s1
          = Some (set_v_state (Some "Busy") vecDef)) as Hbusy.
  { subst s1. unfold setValues, getExistingVectorInTree. rewrite Hvec. simpl.
    rewrite getVectorInTree_vectorAt. unfold queueMessage.
    rewrite flushQueue_deviceTree. simpl.
    by rewrite vectorAt_storeVector, decide_True. }
  split.
  - unfold isReadyForOrder, getState, getExistingVectorInTree.
    by rewrite Hbusy.
  - unfold isReadyForOrder, getState, getExistingVectorInTree.
    rewrite getVectorInTree_vectorAt. unfold onMessage. rewrite Htag.
    change (deviceTree (bump s1)) with (deviceTree s1).
    unfold getVectorInTree in Hbusy.
    destruct (deviceTree s1 !! key (m_device m)) as [dev|]; [|discriminate].
    rewrite Hbusy.
    destruct (m_childs m); simpl; rewrite ?checkListeners_deviceTree; simpl;
      by rewrite vectorAt_storeVector, decide_True.
Qed.

Lemma busy_until_the_server_answers_witness :
  let s1 := (setValues "CCD" "CONNECTION"
               [{| a_name := "CONNECT"; a_value := "On" |}] justDefined).2 in
  isReadyForOrder "CCD" "CONNECTION" s1 = Normal false
  ∧ isReadyForOrder "CCD" "CONNECTION" (onMessage setConnection s1).2
    = Normal (negb (isBusy (m_state setConnection))).
Proof.
  assert (getVectorInTree "CCD" "CONNECTION" justDefined
          = Some connectionAsDefined) as Hvec by (vm_compute; reflexivity).
  exact (busy_until_the_server_answers "CCD" "CONNECTION"
           [{| a_name := "CONNECT"; a_value := "On" |}] justDefined
           connectionAsDefined setConnection Switch Hvec eq_refl eq_refl
           eq_refl).
Defined.

(** X13. The two ways of reading a property agree: [getPropertyValue]
    returns what [getPropertyValueIfExists] returns when that is not
    null, and throws "Property not found: ..." exactly when it is null,
    naming the vector when the vector is missing and the property when
    the vector is there without that child. *)
Theorem getPropertyValue_agrees device vectorId name s :
  match getPropertyValueIfExists device vectorId name s with
  | Some text => getPropertyValue device vectorId name s = Normal text
  | None =>
      getPropertyValue device vectorId name s
      = Thrown (Error
          (if exists_ device vectorId s
           then "Property not found: " +:+ device +:+ "/" +:+ vectorId
                +:+ "/" +:+ name
           else "Property not found: " +:+ device +:+ "/" +:+ vectorId))
  end.
Proof.
  unfold getPropertyValueIfExists, getPropertyValue, getExistingVectorInTree,
    exists_.
  destruct (getVectorInTree device vectorId s) as [vecDef|].
  - rewrite bool_decide_eq_true_2 by eauto.
    by destruct (childs vecDef !! name).
  - by rewrite bool_decide_eq_false_2 by (intros [? ?]; discriminate).
Qed.

(** ** The wait engine *)

Lemma spliceFirst_snoc_fresh f l : f ∉ l → spliceFirst f (l ++ [f]) = l.
Proof.
  induction l as [|g l IH]; simpl; intros Hnot.
  - by rewrite decide_True.
  - apply not_elem_of_cons in Hnot as [Hne Hnot].
    rewrite decide_False by done. by rewrite IH.
Qed.

(** X14. A wait whose predicate is true when it starts (on a live
    connection, or with [allowDisconnectionState]) is done at once: it
    takes the next waiter id and registers no listener, schedules no pass
    and leaves the snapshot alone. *)
Theorem wait_already_true predicate allow s :
  dead s && negb allow = false →
  predicate (deviceTree s) (dead s) = Truthy →
  let w := (wait predicate allow s).1 in
  let s' := (start w (wait predicate allow s).2).2 in
  w = waiterId s
  ∧ waiterId s' = S (waiterId s)
  ∧ outcomeOf w s' = Some Done
  ∧ (start w (wait predicate allow s).2).1 = Normal tt
  ∧ listeners s' = listeners s
  ∧ checkingListeners s' = checkingListeners s
  ∧ nextTick s' = nextTick s
  ∧ deviceTree s' = deviceTree s.
Proof.
  intros Hlive Htrue w s'. subst w s'. unfold wait, start, outcomeOf.
  simpl. rewrite lookup_insert_eq. simpl. rewrite Hlive, Htrue.
  unfold settle. simpl. rewrite lookup_insert_eq. simpl.
  by rewrite lookup_insert_eq.
Qed.

Lemma wait_already_true_witness :
  let predicate := λ (t : DeviceTree) (d : bool),
                     if d then Truthy else Falsy in
  let s := set_dead true (newIndiConnection 0) in
  let w := (wait predicate true s).1 in
  let s' := (start w (wait predicate true s).2).2 in
  w = waiterId s
  ∧ waiterId s' = S (waiterId s)
  ∧ outcomeOf w s' = Some Done
  ∧ (start w (wait predicate true s).2).1 = Normal tt
  ∧ listeners s' = listeners s
  ∧ checkingListeners s' = checkingListeners s
  ∧ nextTick s' = nextTick s
  ∧ deviceTree s' = deviceTree s.
Proof.
  exact (wait_already_true (λ _ d, if d then Truthy else Falsy) true
           (set_dead true (newIndiConnection 0)) eq_refl eq_refl).
Defined.

(** X15. A wait that starts on a dead connection without
    [allowDisconnectionState] fails at once with 'Indi server
    disconnected': whatever its predicate, which is not evaluated, and
    without registering a listener. *)
Theorem wait_on_dead_connection_fails predicate s :
  dead s = true →
  let w := (wait predicate false s).1 in
  let s' := (start w (wait predicate false s).2).2 in
  outcomeOf w s' = Some (Failed (Raw "Indi server disconnected"))
  ∧ (start w (wait predicate false s).2).1 = Normal tt
  ∧ listeners s' = listeners s
  ∧ nextTick s' = nextTick s.
Proof.
  intros Hdead w s'. subst w s'. unfold wait, start, outcomeOf.
  simpl. rewrite lookup_insert_eq. simpl. rewrite Hdead. simpl.
  unfold settle. simpl. rewrite lookup_insert_eq. simpl.
  by rewrite lookup_insert_eq.
Qed.

Lemma wait_on_dead_connection_fails_witness :
  let predicate := λ (t : DeviceTree) (d : bool), Truthy in
  let s := afterClose in
  let w := (wait predicate false s).1 in
  let s' := (start w (wait predicate false s).2).2 in
  outcomeOf w s' = Some (Failed (Raw "Indi server disconnected"))
  ∧ (start w (wait predicate false s).2).1 = Normal tt
  ∧ listeners s' = listeners s
  ∧ nextTick s' = nextTick s.
Proof.
  assert (dead afterClose = true) as Hdead by (vm_compute; reflexivity).
  exact (wait_on_dead_connection_fails (λ _ _, Truthy) afterClose Hdead).
Defined.

Lemma waitListener_settled w s n :
  outcomeOf w s = Some n → n ≠ Active → waitListener w s = s.
Proof.
  unfold outcomeOf, waitListener. destruct (waits s !! w) as [wt|]; [|done].
  simpl. intros [= <-] Hn. by destruct (w_next wt) eqn:Hnext.
Qed.

Lemma cancel_settled w s wt :
  waits s !! w = Some wt → w_listener wt = None → w_next wt ≠ Active →
  cancel w s = s.
Proof.
  intros Hw Hl Hn. unfold cancel, dettach. rewrite Hw, Hl.
  unfold settle. rewrite Hw. by destruct (w_next wt) eqn:Hnext.
Qed.

(** X16. A wait whose predicate is false when it starts is active and
    has its listener registered last.  Cancelling it takes the listener
    out of the listeners again, and out of the snapshot of a pass, and
    makes the wait cancelled; after that its listener, were it still
    called, and a second cancellation change nothing. *)
Theorem cancel_undoes_registration predicate allow s :
  dead s && negb allow = false →
  predicate (deviceTree s) (dead s) = Falsy →
  WaitListener (waiterId s) ∉ listeners s →
  let w := waiterId s in
  let s1 := (start w (wait predicate allow s).2).2 in
  let s2 := cancel w s1 in
  outcomeOf w s1 = Some Active
  ∧ listeners s1 = listeners s ++ [WaitListener w]
  ∧ outcomeOf w s2 = Some Cancelled
  ∧ listeners s2 = listeners s
  ∧ checkingListeners s2
    = spliceFirst (WaitListener w) <$> checkingListeners s
  ∧ waitListener w s2 = s2
  ∧ cancel w s2 = s2.
Proof.
  intros Hlive Hfalse Hfresh w s1 s2.
  set (wt := {| w_predicate := predicate; w_allowDisconnectionState := allow;
                w_listener := Some (WaitListener w); w_next := Active |}).
  assert (waits s1 !! w = Some wt
          ∧ listeners s1 = listeners s ++ [WaitListener w]
          ∧ checkingListeners s1 = checkingListeners s)
    as (Hw1 & Hl1 & Hc1).
  { subst s1 w. unfold wait, start. simpl. rewrite lookup_insert_eq. simpl.
    rewrite Hlive, Hfalse. simpl. by rewrite lookup_insert_eq. }
  assert (waits s2 !! w = Some (set_w_next Cancelled (set_w_listener None wt))
          ∧ listeners s2 = listeners s
          ∧ checkingListeners s2
            = spliceFirst (WaitListener w) <$> checkingListeners s)
    as (Hw2 & Hl2 & Hc2).
  { subst s2. unfold cancel, dettach. rewrite Hw1. simpl.
    unfold settle. simpl. rewrite removeListener_waits, lookup_insert_eq.
    simpl. rewrite lookup_insert_eq. unfold removeListener. simpl.
    rewrite Hl1, Hc1, spliceFirst_snoc_fresh by done.
    by destruct (checkingListeners s). }
  unfold outcomeOf. rewrite Hw1, Hw2. simpl.
  repeat (split; [done|]). split.
  - apply (waitListener_settled w s2 Cancelled); [|done].
    unfold outcomeOf. by rewrite Hw2.
  - by apply (cancel_settled w s2 _ Hw2).
Qed.

Lemma cancel_undoes_registration_witness :
  let predicate := notBusy "CCD" "CONNECTION" in
  let allow := false in
  let s := (setValues "CCD" "CONNECTION"
              [{| a_name := "CONNECT"; a_value := "On" |}] managed).2 in
  let w := waiterId s in
  let s1 := (start w (wait predicate allow s).2).2 in
  let s2 := cancel w s1 in
  outcomeOf w s1 = Some Active
  ∧ listeners s1 = listeners s ++ [WaitListener w]
  ∧ outcomeOf w s2 = Some Cancelled
  ∧ listeners s2 = listeners s
  ∧ checkingListeners s2
    = spliceFirst (WaitListener w) <$> checkingListeners s
  ∧ waitListener w s2 = s2
  ∧ cancel w s2 = s2.
Proof.
  assert (∃ s, s = (setValues "CCD" "CONNECTION"
                      [{| a_name := "CONNECT"; a_value := "On" |}] managed).2
               ∧ dead s && negb false = false
               ∧ notBusy "CCD" "CONNECTION" (deviceTree s) (dead s) = Falsy
               ∧ WaitListener (waiterId s) ∉ listeners s)
    as (s & -> & Hlive & Hfalse & Hfresh).
  { eexists. split; [reflexivity|]. split; [vm_compute; reflexivity|].
    split; [vm_compute; reflexivity|].
    assert (listeners (setValues "CCD" "CONNECTION"
              [{| a_name := "CONNECT"; a_value := "On" |}] managed).2
            = [RefreshStatus]) as -> by (vm_compute; reflexivity).
    intros Hin. apply list_elem_of_singleton in Hin. discriminate. }
  exact (cancel_undoes_registration (notBusy "CCD" "CONNECTION") false _
           Hlive Hfalse Hfresh).
Defined.

(** X17. The listener of an active wait: while the predicate is false it
    changes nothing; when the predicate is true the wait is done, when it
    throws the wait has failed with what was thrown, and in both cases
    the listener is taken out of the listeners and out of the snapshot of
    a running pass; the tree is not touched. *)
Theorem wait_listener_settles w wt s :
  waits s !! w = Some wt →
  w_next wt = Active →
  w_listener wt = Some (WaitListener w) →
  let s' := waitListener w s in
  match w_predicate wt (deviceTree s) (dead s) with
  | Falsy => s' = s
  | Truthy =>
      outcomeOf w s' = Some Done
      ∧ listeners s' = spliceFirst (WaitListener w) (listeners s)
      ∧ checkingListeners s'
        = spliceFirst (WaitListener w) <$> checkingListeners s
      ∧ deviceTree s' = deviceTree s
  | Throws e =>
      outcomeOf w s' = Some (Failed e)
      ∧ listeners s' = spliceFirst (WaitListener w) (listeners s)
      ∧ checkingListeners s'
        = spliceFirst (WaitListener w) <$> checkingListeners s
      ∧ deviceTree s' = deviceTree s
  end.
Proof.
  intros Hw Hactive Hlistener s'. subst s'. unfold waitListener.
  rewrite Hw, Hactive.
  assert (waits (dettach w s) !! w = Some (set_w_listener None wt)
          ∧ listeners (dettach w s) = spliceFirst (WaitListener w) (listeners s)
          ∧ checkingListeners (dettach w s)
            = spliceFirst (WaitListener w) <$> checkingListeners s
          ∧ deviceTree (dettach w s) = deviceTree s)
    as (Hw' & Hl' & Hc' & Ht').
  { unfold dettach. rewrite Hw, Hlistener. simpl.
    rewrite lookup_insert_eq. unfold removeListener. simpl.
    destruct (checkingListeners s) eqn:Hcl; simpl; by rewrite ?Hcl. }
  destruct (w_predicate wt (deviceTree s) (dead s)); [done| |];
    unfold outcomeOf, settle; rewrite Hw'; simpl; rewrite Hactive; simpl;
    by rewrite lookup_insert_eq.
Qed.

Lemma wait_listener_settles_witness :
  let w := 0 in
  let s := (onMessage setConnection waitingForConnect).2 in
  let s' := waitListener w s in
  outcomeOf w s' = Some Done
  ∧ listeners s' = spliceFirst (WaitListener w) (listeners s)
  ∧ checkingListeners s'
    = spliceFirst (WaitListener w) <$> checkingListeners s
  ∧ deviceTree s' = deviceTree s.
Proof.
  intros w s s'.
  assert (∃ wt, waits s !! w = Some wt ∧ w_next wt = Active
                ∧ w_listener wt = Some (WaitListener w)
                ∧ w_predicate wt (deviceTree s) (dead s) = Truthy)
    as (wt & Hw & Hactive & Hlistener & Htrue)
    by (eexists; repeat split; vm_compute; reflexivity).
  pose proof (wait_listener_settles w wt s Hw Hactive Hlistener) as Hsettles.
  cbv zeta in Hsettles. rewrite Htrue in Hsettles. exact Hsettles.
Defined.

(** ** The registrations of a connection *)

Lemma removeListener_registry f s :
  waits (removeListener f s) = waits s
  ∧ waiterId (removeListener f s) = waiterId s.
Proof. unfold removeListener. simpl. by destruct (checkingListeners s). Qed.

Lemma checkListeners_registry s : registry (checkListeners s) = registry s.
Proof. unfold checkListeners. by destruct (listeners s). Qed.

Lemma onMessage_registry m s : registry (onMessage m s).2 = registry s.
Proof.
  unfold onMessage. change (deviceTree (bump s)) with (deviceTree s).
  destruct (m_tag m) as [k|k| |];
    [| | |simpl; by destruct (dispatchMessage_shape m (bump s))
                      as (l & d & ->)].
  - destruct (m_childs m); [|done]. simpl. by rewrite checkListeners_registry.
  - destruct (deviceTree s !! key (m_device m)) as [dev|]; [|done].
    destruct (dev !! key (m_name m)); [|done].
    destruct (m_childs m); [|done]. simpl. by rewrite checkListeners_registry.
  - destruct (deviceTree s !! key (m_device m)) as [dev|]; [|done].
    destruct (m_name m) as [name|].
    + destruct (dev !! name); [|done]. simpl.
      by rewrite checkListeners_registry.
    + simpl. by rewrite checkListeners_registry.
Qed.

Lemma setValues_registry device vectorId affectations s :
  registry (setValues device vectorId affectations s).2 = registry s.
Proof.
  unfold setValues. destruct (getExistingVectorInTree _ _ _); [|done].
  simpl. unfold queueMessage, flushQueue. simpl. by destruct (connected s).
Qed.

(** ** No listener is left behind *)

Lemma elem_of_spliceFirst (g f : Listener) l : g ∈ spliceFirst f l → g ∈ l.
Proof.
  induction l as [|h l IH]; simpl; [done|].
  destruct (decide (h = f)); intros Hin; [by right|].
  apply elem_of_cons in Hin as [->|Hin]; [by left|right; by apply IH].
Qed.

Lemma spliceFirst_filter_NoDup (P : Listener → Prop) `{∀ f, Decision (P f)}
  f l :
  NoDup (filter P l) → NoDup (filter P (spliceFirst f l)).
Proof.
  induction l as [|h l IH]; simpl; [done|].
  rewrite filter_cons. destruct (decide (h = f)) as [->|Hne].
  - destruct (decide (P f)); [|done]. by intros [_ ?]%NoDup_cons.
  - rewrite filter_cons. destruct (decide (P h)); [|done].
    intros [Hnot Hnodup]%NoDup_cons. apply NoDup_cons. split; [|by apply IH].
    intros Hin. apply Hnot. apply list_elem_of_filter in Hin as [? Hin].
    apply list_elem_of_filter. split; [done|]. by apply elem_of_spliceFirst in Hin.
Qed.

Lemma spliceFirst_wait_gone w l :
  NoDup (filter (λ f, isWaitListener f = true) l) →
  WaitListener w ∉ spliceFirst (WaitListener w) l.
Proof.
  induction l as [|h l IH]; simpl; [intros _; apply not_elem_of_nil|].
  destruct (decide (h = WaitListener w)) as [->|Hne].
  - rewrite filter_cons_True by done. intros [Hnot _]%NoDup_cons Hin.
    apply Hnot. apply list_elem_of_filter. by split.
  - rewrite filter_cons. intros Hnodup.
    apply not_elem_of_cons. split; [done|]. apply IH.
    destruct (decide (isWaitListener h = true)); [|done].
    by apply NoDup_cons in Hnodup as [_ ?].
Qed.

Lemma removeListener_listeners f s :
  listeners (removeListener f s) = spliceFirst f (listeners s).
Proof. unfold removeListener. simpl. by destruct (checkingListeners s). Qed.

Lemma registered_registry s s' :
  registry s' = registry s → waitsRegistered s → waitsRegistered s'.
Proof.
  unfold registry, waitsRegistered, ownListeners. intros [= Hl Hw Hid].
  by rewrite Hl, Hw, Hid.
Qed.

Lemma removeListener_registered f s :
  waitsRegistered s → waitsRegistered (removeListener f s).
Proof.
  intros (Hown & Hnodup & Hreg & Hbelow).
  destruct (removeListener_registry f s) as [Hw Hid].
  unfold waitsRegistered, ownListeners.
  rewrite Hw, Hid, removeListener_listeners.
  split; [done|]. split; [by apply spliceFirst_filter_NoDup|].
  split; [|done]. intros w Hin. apply Hreg. by apply elem_of_spliceFirst in Hin.
Qed.

Lemma addListener_registered f s :
  isWaitListener f = false →
  waitsRegistered s → waitsRegistered (addListener f s).
Proof.
  intros Hclient (Hown & Hnodup & Hreg & Hbelow).
  unfold waitsRegistered, ownListeners, addListener. simpl.
  split; [done|]. split; [|split; [|done]].
  - rewrite filter_app, filter_cons, decide_False by congruence.
    by rewrite filter_nil, app_nil_r.
  - intros w Hin. apply Hreg. apply elem_of_app in Hin as [Hin|Hin]; [done|].
    apply list_elem_of_singleton in Hin. subst f. discriminate.
Qed.

Lemma dettach_registered w s :
  waitsRegistered s →
  waitsRegistered (dettach w s) ∧ WaitListener w ∉ listeners (dettach w s).
Proof.
  intros Hregistered.
  pose proof Hregistered as (Hown & Hnodup & Hreg & Hbelow).
  assert (∀ wt, waits s !! w = Some wt → w_listener wt = None →
                WaitListener w ∉ listeners s) as Hnone.
  { intros wt Hw Hl Hin. destruct (Hreg w Hin) as (wt' & Hw' & _ & Hl').
    congruence. }
  unfold dettach. destruct (waits s !! w) as [wt|] eqn:Hw.
  2:{ split; [done|]. intros Hin. destruct (Hreg w Hin) as (wt' & Hw' & _).
      congruence. }
  destruct (w_listener wt) as [l|] eqn:Hl; [|split; [done|by eapply Hnone]].
  rewrite (Hown w wt l Hw Hl).
  destruct (removeListener_registry (WaitListener w) s) as [Hwaits Hid].
  split; [|simpl; rewrite removeListener_listeners;
           by apply spliceFirst_wait_gone].
  unfold waitsRegistered, ownListeners. simpl.
  rewrite Hwaits, Hid, removeListener_listeners.
  split; [|split; [by apply spliceFirst_filter_NoDup|split]].
  - intros w' wt' l'. destruct (decide (w = w')) as [<-|Hne].
    + rewrite lookup_insert_eq. by intros [= <-].
    + rewrite lookup_insert_ne by done. apply Hown.
  - intros w' Hin. assert (w ≠ w') as Hne.
    { intros <-. by apply (spliceFirst_wait_gone w (listeners s)). }
    rewrite lookup_insert_ne by done. apply Hreg.
    by apply elem_of_spliceFirst in Hin.
  - intros w'. destruct (decide (w = w')) as [<-|Hne].
    + intros _. apply Hbelow. eauto.
    + rewrite lookup_insert_ne by done. apply Hbelow.
Qed.

Lemma insert_registered w wt' s :
  waitsRegistered s →
  is_Some (waits s !! w) ∨ w < waiterId s →
  WaitListener w ∉ listeners s →
  (∀ l, w_listener wt' = Some l → l = WaitListener w) →
  waitsRegistered (set_waits (<[w := wt']> (waits s)) s).
Proof.
  intros (Hown & Hnodup & Hreg & Hbelow) Hknown Hnot Hl.
  unfold waitsRegistered, ownListeners. simpl.
  split; [|split; [done|split]].
  - intros w' wt l. destruct (decide (w = w')) as [<-|Hne].
    + rewrite lookup_insert_eq. intros [= <-]. apply Hl.
    + rewrite lookup_insert_ne by done. apply Hown.
  - intros w' Hin. assert (w ≠ w') as Hne by (by intros <-).
    rewrite lookup_insert_ne by done. by apply Hreg.
  - intros w'. destruct (decide (w = w')) as [<-|Hne].
    + intros _. destruct Hknown as [Hknown|Hknown]; [by apply Hbelow|done].
    + rewrite lookup_insert_ne by done. apply Hbelow.
Qed.

Lemma settle_registered w n s :
  waitsRegistered s → WaitListener w ∉ listeners s →
  waitsRegistered (settle w n s).
Proof.
  intros Hregistered Hnot. unfold settle.
  destruct (waits s !! w) as [wt|] eqn:Hw; [|done].
  destruct (w_next wt); try done.
  apply insert_registered; [done|eauto|done|].
  destruct Hregistered as (Hown & _). intros l. simpl. by apply Hown.
Qed.

Lemma cancel_registered w s : waitsRegistered s → waitsRegistered (cancel w s).
Proof.
  intros Hregistered. unfold cancel.
  destruct (dettach_registered w s Hregistered) as [Hregistered' Hnot].
  by apply settle_registered.
Qed.

Lemma waitListener_registered w s :
  waitsRegistered s → waitsRegistered (waitListener w s).
Proof.
  intros Hregistered. unfold waitListener.
  destruct (waits s !! w) as [wt|]; [|done].
  destruct (w_next wt); try done.
  destruct (dettach_registered w s Hregistered) as [Hregistered' Hnot].
  destruct (w_predicate wt _ _); try done; by apply settle_registered.
Qed.

Lemma clientCall_registered c s :
  (∀ f, c = CallAddListener f → isWaitListener f = false) →
  waitsRegistered s → waitsRegistered (clientCall c s).2.
Proof.
  intros Hadds Hregistered.
  destruct c as [f|f|o|o|device vectorId affectations|e]; simpl.
  - by apply removeListener_registered.
  - apply addListener_registered; [by apply Hadds|done].
  - by eapply registered_registry; [|exact Hregistered].
  - eapply registered_registry; [|exact Hregistered].
    unfold addConnectionListener. by case_bool_decide.
  - eapply registered_registry; [apply setValues_registry|done].
  - done.
Qed.

Lemma tick_registered clients s :
  addOnlyClients clients →
  waitsRegistered s → waitsRegistered (perform clients Tick s).
Proof.
  intros Hadds.
  apply (tick_preserved clients
           (λ s s', waitsRegistered s → waitsRegistered s')
           (λ c, ∀ f, c = CallAddListener f → isWaitListener f = false)).
  - done.
  - intros s1 s2 s3 H12 H23 H1. by apply H23, H12.
  - intros c s0 Hc. by apply clientCall_registered.
  - intros w s0. apply waitListener_registered.
  - intros st s0. by apply registered_registry.
  - intros s0 _. by apply registered_registry.
  - intros s0 cl _. by apply registered_registry.
  - intros u s0. by apply registered_registry.
  - intros n s0. by apply registered_registry.
  - intros cb s0 c Hin f ->. by eapply Hadds.
Qed.

Lemma call_registered clients cb s :
  addOnlyClients clients →
  waitsRegistered s → waitsRegistered (call clients cb s).2.
Proof.
  intros Hadds.
  apply (runCalls_preserved
           (λ s s', waitsRegistered s → waitsRegistered s')
           (λ c, ∀ f, c = CallAddListener f → isWaitListener f = false)).
  - done.
  - intros s1 s2 s3 H12 H23 H1. by apply H23, H12.
  - intros c s0 Hc. by apply clientCall_registered.
  - intros c Hin f ->. by eapply Hadds.
Qed.

Lemma thenChained_registered clients w s s' :
  addOnlyClients clients →
  waitsRegistered s' → waitsRegistered (thenChained clients w s s').
Proof.
  intros Hadds Hregistered. unfold thenChained.
  destruct (settledBy w s s'); [by apply call_registered|done].
Qed.

Lemma perform_registered clients e s :
  addOnlyClients clients →
  waitsRegistered s → waitsRegistered (perform clients e s).
Proof.
  intros Hadds Hregistered.
  destruct e as [| |m| |device vectorId affectations].
  - by eapply registered_registry; [|exact Hregistered].
  - eapply registered_registry; [|exact Hregistered]. simpl. unfold onClose.
    by rewrite checkListeners_registry.
  - eapply registered_registry; [apply onMessage_registry|done].
  - by apply tick_registered.
  - eapply registered_registry; [apply setValues_registry|done].
Qed.

Lemma wait_registered predicate allow s :
  waitsRegistered s →
  waitsRegistered (wait predicate allow s).2
  ∧ outcomeOf (waiterId s) (wait predicate allow s).2 = Some NotStarted.
Proof.
  intros (Hown & Hnodup & Hreg & Hbelow).
  assert (waits s !! waiterId s = None) as Hfresh.
  { destruct (waits s !! waiterId s) eqn:Hw; [|done].
    assert (waiterId s < waiterId s); [|lia]. apply Hbelow. eauto. }
  unfold wait, outcomeOf. simpl. split; [|by rewrite lookup_insert_eq].
  unfold waitsRegistered, ownListeners. simpl.
  split; [|split; [done|split]].
  - intros w wt l. destruct (decide (waiterId s = w)) as [<-|Hne].
    + rewrite lookup_insert_eq. by intros [= <-].
    + rewrite lookup_insert_ne by done. apply Hown.
  - intros w Hin. destruct (Hreg w Hin) as (wt & Hw & Hrest).
    assert (waiterId s ≠ w) as Hne by (intros <-; congruence).
    rewrite lookup_insert_ne by done. eauto.
  - intros w. destruct (decide (waiterId s = w)) as [<-|Hne]; [lia|].
    rewrite lookup_insert_ne by done. intros Hw. apply Hbelow in Hw. lia.
Qed.

Lemma addWaitListener_registered w s :
  waitsRegistered s →
  WaitListener w ∉ listeners s →
  (∃ wt, waits s !! w = Some wt ∧ w_next wt = Active
         ∧ w_listener wt = Some (WaitListener w)) →
  waitsRegistered (addListener (WaitListener w) s).
Proof.
  intros (Hown & Hnodup & Hreg & Hbelow) Hfresh Hentry.
  unfold waitsRegistered, ownListeners, addListener. simpl.
  split; [done|]. split; [|split; [|done]].
  - rewrite filter_app, filter_cons_True by done.
    rewrite filter_nil. apply NoDup_app. split; [done|].
    split; [|apply NoDup_singleton].
    intros f Hf Hin. apply list_elem_of_singleton in Hin as ->.
    apply list_elem_of_filter in Hf as [_ Hf]. by apply Hfresh.
  - intros w' Hin. apply elem_of_app in Hin as [Hin|Hin]; [by apply Hreg|].
    apply list_elem_of_singleton in Hin. by injection Hin as ->.
Qed.

Lemma start_registered w s :
  waitsRegistered s →
  outcomeOf w s = Some NotStarted →
  waitsRegistered (start w s).2.
Proof.
  intros Hregistered Hnew.
  pose proof Hregistered as (Hown & Hnodup & Hreg & Hbelow).
  assert (WaitListener w ∉ listeners s) as Hfresh.
  { intros Hin. destruct (Hreg _ Hin) as (wt & Hw & Hactive & _).
    unfold outcomeOf in Hnew. rewrite Hw in Hnew. simpl in Hnew. congruence. }
  unfold start. destruct (waits s !! w) as [wt|] eqn:Hw; [|done].
  set (s0 := set_waits (<[w := set_w_next Active wt]> (waits s)) s).
  assert (waitsRegistered s0) as Hregistered0.
  { apply insert_registered; [done|eauto|done|]. intros l. simpl.
    by apply Hown. }
  destruct (dead s0 && negb (w_allowDisconnectionState wt)); simpl.
  { by apply settle_registered. }
  destruct (w_predicate wt _ _); simpl.
  - apply addWaitListener_registered.
    + apply insert_registered; [done| |done|by intros l [= <-]].
      left. simpl. rewrite lookup_insert_eq. eauto.
    + done.
    + simpl. rewrite lookup_insert_eq. eauto.
  - by apply settle_registered.
  - done.
Qed.

Lemma waits_registered predicate allow s :
  waitsRegistered s →
  waitsRegistered (start (waiterId s) (wait predicate allow s).2).2.
Proof.
  intros Hregistered.
  destruct (wait_registered predicate allow s Hregistered) as [Hw Hnew].
  by apply start_registered.
Qed.

Lemma act_registered clients a s :
  addOnlyClients clients →
  waitsRegistered s → waitsRegistered (act clients a s).
Proof.
  intros Hadds Hregistered. destruct a as [e|predicate allow|w]; simpl.
  - by apply perform_registered.
  - apply thenChained_registered; [done|]. by apply waits_registered.
  - apply thenChained_registered; [done|]. by apply cancel_registered.
Qed.

(** X19. No wait leaves its listener behind.  On a connection used
    through [wait], the cancel function of the waits, events, passes and
    commands, where the callbacks of other modules register only
    callbacks of their own: a wait whose listener is among the listeners
    is active.  So once a wait is done, has failed or is cancelled, its
    listener is registered no more. *)
Theorem settled_waits_leave_no_listener clients l rev w :
  addOnlyClients clients →
  WaitListener w ∈ listeners (acts clients l (newIndiConnection rev)) →
  outcomeOf w (acts clients l (newIndiConnection rev)) = Some Active.
Proof.
  intros Hadds.
  assert (waitsRegistered (acts clients l (newIndiConnection rev)))
    as (_ & _ & Hreg & _).
  { induction l as [|a l IH] using rev_ind.
    - split; [by intros w' wt l'|]. split; [apply NoDup_nil_2|].
      split; [by intros w' Hin%elem_of_nil|].
      intros w' [wt Hw']. simpl in Hw'. by rewrite lookup_empty in Hw'.
    - unfold acts. rewrite foldl_app. by apply act_registered. }
  intros Hin. destruct (Hreg w Hin) as (wt & Hw & Hactive & _).
  unfold outcomeOf. by rewrite Hw, <- Hactive.
Qed.

Lemma settled_waits_leave_no_listener_witness :
  let l := [Happens SocketConnect; Happens (SocketMessage defConnection);
            Happens (Command "CCD" "CONNECTION"
                       [{| a_name := "CONNECT"; a_value := "On" |}]);
            Waits (notBusy "CCD" "CONNECTION") false] in
  listeners (acts noClients l (newIndiConnection 0)) = [WaitListener 0]
  ∧ outcomeOf 0 (acts noClients l (newIndiConnection 0)) = Some Active.
Proof.
  intros l.
  assert (listeners (acts noClients l (newIndiConnection 0))
          = [WaitListener 0]) as Hl by (vm_compute; reflexivity).
  split; [exact Hl|].
  apply (settled_waits_leave_no_listener noClients l 0 0).
  - intros cb s f Hin. by apply elem_of_nil in Hin.
  - rewrite Hl. by left.
Defined.

(** ** Disconnection *)

Lemma setValues_closed device vectorId affectations s :
  connected s = false →
  let s' := (setValues device vectorId affectations s).2 in
  connected s' = false ∧ socket s' = socket s
  ∧ (deviceTree s = ∅ → deviceTree s' = ∅).
Proof.
  intros Hclosed. unfold setValues, getExistingVectorInTree.
  destruct (getVectorInTree device vectorId s) as [vecDef|] eqn:Hv;
    simpl; [|done].
  unfold queueMessage, flushQueue. simpl. rewrite Hclosed. simpl.
  split; [done|]. split; [done|]. intros Hempty. exfalso. revert Hv.
  unfold getVectorInTree. rewrite Hempty, lookup_empty. done.
Qed.

(** While the connection is not connected, a dispatch pass writes
    nothing to the socket and keeps an empty tree empty. *)
Lemma closed_pass_preserved :
  let P := λ s s' : World,
    connected s = false →
    connected s' = false ∧ socket s' = socket s
    ∧ (deviceTree s = ∅ → deviceTree s' = ∅) in
  (∀ s, P s s)
  ∧ (∀ s1 s2 s3, P s1 s2 → P s2 s3 → P s1 s3)
  ∧ (∀ c s, P s (clientCall c s).2)
  ∧ (∀ w s, P s (waitListener w s)).
Proof.
  intros P. subst P. simpl. split; [done|]. split; [|split].
  - intros s1 s2 s3 H12 H23 H1. destruct (H12 H1) as (H2 & Hs2 & Ht2).
    destruct (H23 H2) as (H3 & Hs3 & Ht3).
    split; [done|]. split; [congruence|]. intros Ht1. by apply Ht3, Ht2.
  - intros c s Hclosed. destruct (isCommand c) eqn:Hc.
    + destruct c; try discriminate. by apply setValues_closed.
    + destruct (clientCall_frame c s Hc) as [Htree Ht].
      destruct (transport_eq _ _ Ht) as (Hco & _ & _ & Hs).
      rewrite Hco, Hs, Htree. done.
  - intros w s Hclosed. destruct (waitListener_frame w s) as [Htree Ht].
    destruct (transport_eq _ _ Ht) as (Hco & _ & _ & Hs).
    rewrite Hco, Hs, Htree. done.
Qed.

Lemma checkingLoop_closed clients fuel s called s' :
  checkingLoop clients fuel s = Some (called, s') →
  connected s = false →
  connected s' = false ∧ socket s' = socket s
  ∧ (deviceTree s = ∅ → deviceTree s' = ∅).
Proof.
  destruct closed_pass_preserved as (Hrefl & Htrans & Hcall & Hwait).
  intros Hrun. revert Hrun.
  apply (checkingLoop_preserved clients
           (λ s s', connected s = false →
                    connected s' = false ∧ socket s' = socket s
                    ∧ (deviceTree s = ∅ → deviceTree s' = ∅))
           (λ _, True)); try done.
  intros c s0 _. apply Hcall.
Qed.

(** The manager's listener empties the tree of a connection that is not
    connected, whatever the callbacks it notifies do. *)
Lemma refreshStatus_clears clients s :
  connected s = false →
  connected (refreshStatus clients true s) = false
  ∧ deviceTree (refreshStatus clients true s) = ∅.
Proof.
  intros Hclosed.
  destruct closed_pass_preserved as (Hrefl & Htrans & Hcall & Hwait).
  unfold refreshStatus. simpl. rewrite Hclosed. simpl.
  set (s1 := set_status "connecting" (set_deviceTree ∅ s)).
  destruct (connectionListeners_preserved clients
              (λ s s', connected s = false →
                       connected s' = false ∧ socket s' = socket s
                       ∧ (deviceTree s = ∅ → deviceTree s' = ∅))
              (λ _, True) Hrefl Htrans (λ c s0 _, Hcall c s0)
              (λ _ _ _ _, I) (connectionListener s1) s1 Hclosed)
    as (Hc & _ & Ht).
  split; [done|]. by apply Ht.
Qed.

Lemma checkingLoop_refresh_clears clients fuel s called s' :
  checkingLoop clients fuel s = Some (called, s') →
  connected s = false →
  RefreshStatus ∈ called →
  deviceTree s' = ∅.
Proof.
  revert s called s'. induction fuel as [|fuel IH];
    intros s called s' Hrun Hclosed Hin.
  - simpl in Hrun. destruct (checkingListeners s) as [cl|];
      [destruct (last cl); [discriminate|]|];
      simplify_eq; by apply elem_of_nil in Hin.
  - simpl in Hrun. destruct (checkingListeners s) as [cl|];
      [|simplify_eq; by apply elem_of_nil in Hin].
    destruct (last cl) as [todo|];
      [|simplify_eq; by apply elem_of_nil in Hin].
    set (s1 := set_checkingListeners (Some (removelast cl)) s) in *.
    destruct closed_pass_preserved
      as (Hrefl & Htrans & Hcall & Hwait).
    pose proof (invoke_preserved clients
                  (λ s s', connected s = false →
                           connected s' = false ∧ socket s' = socket s
                           ∧ (deviceTree s = ∅ → deviceTree s' = ∅))
                  (λ _, True) Hrefl Htrans (λ c s0 _, Hcall c s0) Hwait
                  (λ st s0 H, conj H (conj eq_refl (λ Ht, Ht)))
                  (λ s0 _ H, conj H (conj eq_refl (λ _, eq_refl)))
                  (λ _ _ _ _, I) todo s1 Hclosed) as (Hc2 & _ & _).
    destruct (invoke clients todo s1) as [[[]|e] s2] eqn:Hinv; simpl in Hc2.
    + destruct (checkingLoop clients fuel s2) as [[called' s3]|] eqn:Hrec;
        [|discriminate].
      inversion Hrun; subst called s3. clear Hrun.
      destruct (decide (RefreshStatus ∈ called')) as [Hin'|Hnot].
      * by eapply IH.
      * apply elem_of_cons in Hin as [<-|Hin]; [|done].
        simpl in Hinv. inversion Hinv as [Hs2].
        destruct (refreshStatus_clears clients s1 Hclosed) as [_ Hempty].
        rewrite Hs2 in Hempty.
        destruct (checkingLoop_closed _ _ _ _ _ Hrec Hc2) as (_ & _ & Ht).
        by apply Ht.
    + inversion Hrun; subst called s'. clear Hrun.
      apply list_elem_of_singleton in Hin as <-. discriminate.
Qed.

(** X20. Disconnection and the device tree of a managed connection.  Take
    the close handler and then the dispatch pass it schedules, on a
    connection where the manager's listener is registered, the listeners
    are distinct and no callback removes a listener of the snapshot other
    than the one it is called for.  Whatever the callbacks do (commands,
    exceptions, registrations), the connection ends dead and not
    connected and nothing is written to the socket.  When the pass
    recorded no exception of a callback, the manager's listener was
    called and the tree is empty.  When no callback issues a command, the
    queue is empty. *)
Theorem close_pass_clears_the_tree clients s :
  RefreshStatus ∈ listeners s →
  NoDup (listeners s) →
  ownListeners s →
  removeOnlyThemselves clients (listeners s) →
  let s' := run clients [SocketClose; Tick] s in
  dead s' = true
  ∧ connected s' = false
  ∧ socket s' = socket s
  ∧ (uncaught s' = uncaught s → deviceTree s' = ∅)
  ∧ (noCommands clients → queue s' = []).
Proof.
  intros Hin Hnodup Hown Hself s'. subst s'.
  change (run clients [SocketClose; Tick] s)
    with (perform clients Tick (onClose s)).
  assert (checkingListeners (onClose s) = Some (listeners s)) as Hsnap.
  { unfold onClose. by rewrite checkListeners_snapshot. }
  assert (nextTick (onClose s) = S (nextTick s)) as Htick.
  { unfold onClose. rewrite checkListeners_nextTick. simpl.
    destruct (listeners s); [by apply elem_of_nil in Hin|done]. }
  assert (transport (onClose s) = (false, true, [], socket s)) as Htransport.
  { unfold onClose. by rewrite checkListeners_transport. }
  assert (connected (onClose s) = false ∧ dead (onClose s) = true
          ∧ queue (onClose s) = [] ∧ socket (onClose s) = socket s)
    as (Hc0 & Hd0 & Hq0 & Hs0).
  { unfold transport in Htransport. by simplify_eq. }
  destruct (tick_outbox clients (onClose s)) as (_ & Hd & _).
  split; [by rewrite Hd|].
  split; [|split; [|split]].
  4:{ intros Hquiet.
      destruct (transport_eq _ _ (tick_transport clients (onClose s) Hquiet))
        as (_ & _ & Hq & _).
      by rewrite Hq. }
  all: unfold perform, runNextTick, snapshotSize; rewrite Hsnap, Htick; simpl.
  all: destruct (checkingLoop_ends clients (length (listeners s))
                   (set_nextTick (nextTick s) (onClose s)) (listeners s)
                   Hsnap (le_n _)) as [[called s'] Hrun].
  all: rewrite Hrun.
  all: destruct (checkingLoop_closed _ _ _ _ _ Hrun Hc0) as (Hc & Hs & _).
  - done.
  - by rewrite Hs.
  - intros Hquiet.
    destruct (checkingLoop_exact clients (length (listeners s))
                (set_nextTick (nextTick s) (onClose s)) (listeners s)
                called s' Hsnap Hnodup) as [_ Hall]; [| |exact Hrun|].
    { unfold onClose. intros w wt l Hw. apply Hown. revert Hw.
      unfold checkListeners. by destruct (listeners _). }
    { done. }
    eapply checkingLoop_refresh_clears; [exact Hrun|exact Hc0|].
    rewrite Hall; [by apply elem_of_reverse|].
    rewrite Hquiet. unfold onClose, checkListeners. by destruct (listeners _).
Qed.

Lemma close_pass_clears_the_tree_witness :
  let clients := noClients in
  let s := managed in
  let s' := run clients [SocketClose; Tick] s in
  dead s' = true
  ∧ connected s' = false
  ∧ socket s' = socket s
  ∧ (uncaught s' = uncaught s → deviceTree s' = ∅)
  ∧ (noCommands clients → queue s' = []).
Proof.
  intros clients s.
  assert (RefreshStatus ∈ listeners s) as Hin
    by (vm_compute; apply list_elem_of_here).
  assert (NoDup (listeners s)) as Hnodup
    by (vm_compute; apply NoDup_singleton).
  assert (ownListeners s) as Hown.
  { intros w wt l Hw. exfalso. revert Hw.
    change (waits s) with (∅ : gmap nat Waiter).
    by rewrite lookup_empty. }
  assert (removeOnlyThemselves clients (listeners s)) as Hself.
  { intros cb s0 f _ Hf. by apply elem_of_nil in Hf. }
  exact (close_pass_clears_the_tree clients s Hin Hnodup Hown Hself).
Defined.

(** ** Note uids *)

Lemma stampBefore_trans a b c :
  stampBefore a b → stampBefore b c → stampBefore a c.
Proof. unfold stampBefore. lia. Qed.

Lemma nextMessageUid_state toISOString clock stamp serial :
  ∃ serial',
    (nextMessageUid toISOString clock (Some (stamp, serial))).2
    = Some (Z.max stamp clock, serial')
    ∧ stampBefore (stamp, serial) (Z.max stamp clock, serial').
Proof.
  unfold nextMessageUid, stampBefore.
  destruct (stamp >? clock)%Z eqn:Hback.
  - apply Z.gtb_lt in Hback. rewrite Z.eqb_refl. simpl.
    exists (serial + 1)%N. rewrite Z.max_l by lia. split; [done|lia].
  - rewrite Z.gtb_ltb in Hback. apply Z.ltb_ge in Hback.
    destruct (stamp =? clock)%Z eqn:Hsame; simpl.
    + apply Z.eqb_eq in Hsame. exists (serial + 1)%N.
      rewrite Z.max_r by lia. split; [done|lia].
    + apply Z.eqb_neq in Hsame. exists 0%N.
      rewrite Z.max_r by lia. split; [done|lia].
Qed.

(** X21. The stamp of nextMessageUid never goes backward.  After any
    number of calls, whatever the clock returns (also a clock that was set
    back), the stored stamp is the largest of the stamp it started from
    and the clock readings, and the pair of stamp and serial is strictly
    larger than the one it started from. *)
Theorem uid_state_never_goes_backward toISOString clock clocks stamp serial :
  ∃ stamp' serial',
    uidStateAfter toISOString (clock :: clocks) (Some (stamp, serial))
    = Some (stamp', serial')
    ∧ stamp' = foldl Z.max stamp (clock :: clocks)
    ∧ stampBefore (stamp, serial) (stamp', serial').
Proof.
  revert clock stamp serial.
  induction clocks as [|clock2 clocks IH]; intros clock stamp serial.
  - destruct (nextMessageUid_state toISOString clock stamp serial)
      as (serial' & Hstep & Hlt).
    exists (Z.max stamp clock), serial'. by simpl.
  - destruct (nextMessageUid_state toISOString clock stamp serial)
      as (serial1 & Hstep & Hlt).
    destruct (IH clock2 (Z.max stamp clock) serial1)
      as (stamp' & serial' & Hrun & Hmax & Hlt').
    exists stamp', serial'.
    change (uidStateAfter toISOString (clock :: clock2 :: clocks)
              (Some (stamp, serial)))
      with (uidStateAfter toISOString (clock2 :: clocks)
              (nextMessageUid toISOString clock (Some (stamp, serial))).2).
    rewrite Hstep. split; [done|]. split; [done|].
    by eapply stampBefore_trans.
Qed.

Lemma uids_from_None toISOString clock n :
  uids toISOString (replicate n clock) None
  = map (λ i, formatUid toISOString clock (N.of_nat i)) (seq 0 n).
Proof.
  destruct n as [|n]; [reflexivity|].
  change (uids toISOString (replicate (S n) clock) None)
    with (formatUid toISOString clock 0
          :: uids toISOString (replicate n clock) (Some (clock, 0%N))).
  rewrite uids_same_clock. cbn [seq map]. f_equal.
  rewrite <- seq_shift, map_map. apply map_ext. intros i. f_equal. lia.
Qed.

Lemma formatUid_below_sixteen toISOString clock i j :
  i < j → j < 16 →
  str_lt (formatUid toISOString clock (N.of_nat i))
         (formatUid toISOString clock (N.of_nat j)) = true.
Proof.
  intros Hij Hj. unfold formatUid. rewrite str_lt_common_prefix.
  do 16 (destruct j as [|j];
         [do 16 (destruct i as [|i]; [try lia; reflexivity|]); lia|]).
  lia.
Qed.

(** X22. Within one millisecond the uids of the first sixteen notes are in
    order: of two of them the one returned later is the larger string. *)
Theorem uids_ordered_below_sixteen toISOString clock n i j a b :
  n ≤ 16 → i < j →
  uids toISOString (replicate n clock) None !! i = Some a →
  uids toISOString (replicate n clock) None !! j = Some b →
  str_lt a b = true.
Proof.
  intros Hn Hij. rewrite uids_from_None, !list_lookup_fmap.
  intros Ha Hb.
  destruct (seq 0 n !! i) as [i'|] eqn:Hi; [|discriminate].
  destruct (seq 0 n !! j) as [j'|] eqn:Hj; [|discriminate].
  apply lookup_seq in Hi as [-> ?]. apply lookup_seq in Hj as [-> ?].
  simpl in Ha, Hb. simplify_eq.
  apply formatUid_below_sixteen; lia.
Qed.

Lemma uids_ordered_below_sixteen_witness :
  let toISOString := λ _ : Z, "2020-02-02T20:20:20.020Z" in
  str_lt (toISOString 0%Z +:+ ":9") (toISOString 0%Z +:+ ":a") = true.
Proof.
  intros toISOString.
  assert (16 ≤ 16) as Hn by lia.
  assert (9 < 10) as Hij by lia.
  assert (uids toISOString (replicate 16 0%Z) None !! 9
          = Some (toISOString 0%Z +:+ ":9")) as Ha by reflexivity.
  assert (uids toISOString (replicate 16 0%Z) None !! 10
          = Some (toISOString 0%Z +:+ ":a")) as Hb by reflexivity.
  exact (uids_ordered_below_sixteen toISOString 0%Z 16 9 10 _ _
           Hn Hij Ha Hb).
Defined.

(** ** The notes of the status *)

Lemma deleteAll_lookup (l : list string) (m : gmap string Note) k :
  foldl (λ m k, delete k m) m l !! k
  = if bool_decide (k ∈ l) then None else m !! k.
Proof.
  revert m. induction l as [|k' l IH]; intros m; [done|].
  simpl. rewrite IH.
  destruct (decide (k = k')) as [->|Hne].
  - rewrite lookup_delete_eq, (bool_decide_eq_true_2 (k' ∈ k' :: l))
      by apply list_elem_of_here.
    by case_bool_decide.
  - rewrite lookup_delete_ne by done.
    case_bool_decide as Hin.
    + by rewrite bool_decide_eq_true_2 by by apply list_elem_of_further.
    + rewrite bool_decide_eq_false_2; [done|].
      intros Hin'. by apply elem_of_cons in Hin' as [?|?].
Qed.

Lemma deleteAll_size (l : list string) (m : gmap string Note) :
  NoDup l → (∀ k, k ∈ l → is_Some (m !! k)) →
  size (foldl (λ m k, delete k m) m l) + length l = size m.
Proof.
  revert m. induction l as [|k l IH]; intros m Hnodup Hin; simpl; [lia|].
  apply NoDup_cons in Hnodup as [Hk Hnodup].
  rewrite Nat.add_succ_r, IH; [|done|].
  - rewrite map_size_delete_Some by (apply Hin, list_elem_of_here).
    assert (size m ≠ 0); [|lia].
    intros Hempty. apply map_size_empty_inv in Hempty. subst m.
    destruct (Hin k) as [? Hx]; [apply list_elem_of_here|].
    by rewrite lookup_empty in Hx.
  - intros k' Hk'. rewrite lookup_delete_ne by (by intros ->).
    by apply Hin, list_elem_of_further.
Qed.

Lemma keys_sorted (m : gmap string Note) :
  let keys := merge_sort String.le (map_to_list m).*1 in
  NoDup keys
  ∧ length keys = size m
  ∧ (∀ k, k ∈ keys ↔ is_Some (m !! k))
  ∧ StronglySorted (λ a b, String.le a b ∧ a ≠ b) keys.
Proof.
  intros keys.
  assert (NoDup keys) as Hnodup.
  { unfold keys. rewrite merge_sort_Permutation.
    apply NoDup_fst_map_to_list. }
  split; [done|]. split; [|split].
  - unfold keys. by rewrite merge_sort_Permutation, length_fmap,
      length_map_to_list.
  - intros k. unfold keys. rewrite merge_sort_Permutation.
    rewrite list_elem_of_fmap. split.
    + intros [[k' v] [-> Hin]]. apply elem_of_map_to_list in Hin.
      simpl. eauto.
    + intros [v Hv]. exists (k, v). split; [done|].
      by apply elem_of_map_to_list.
  - assert (StronglySorted String.le keys) as Hsorted
      by apply (StronglySorted_merge_sort _).
    induction Hsorted as [|k l Hl IH Hall]; [constructor|].
    apply NoDup_cons in Hnodup as [Hk Hnodup].
    constructor; [by apply IH|].
    apply Forall_forall. intros k' Hk'. split.
    + by apply (proj1 (Forall_forall _ _) Hall).
    + intros ->. by apply Hk.
Qed.

Lemma cleanupMessages_lookup (m : gmap string Note) k :
  cleanupMessages m !! k
  = if bool_decide
         (k ∈ take (size m - maxMessages)
                (merge_sort String.le (map_to_list m).*1))
    then None else m !! k.
Proof.
  unfold cleanupMessages. rewrite length_fmap, length_map_to_list.
  destruct (maxMessages <? size m) eqn:Hmany.
  - apply deleteAll_lookup.
  - apply Nat.ltb_ge in Hmany.
    replace (size m - maxMessages) with 0 by lia.
    rewrite take_0. by rewrite bool_decide_eq_false_2 by apply not_elem_of_nil.
Qed.

Lemma cleanupMessages_subseteq (m : gmap string Note) :
  cleanupMessages m ⊆ m.
Proof.
  apply map_subseteq_spec. intros k x. rewrite cleanupMessages_lookup.
  by case_bool_decide.
Qed.

Lemma cleanupMessages_size (m : gmap string Note) :
  size (cleanupMessages m) = size m `min` maxMessages.
Proof.
  destruct (keys_sorted m) as (Hnodup & Hlen & Hin & _).
  unfold cleanupMessages. rewrite length_fmap, length_map_to_list.
  set (keys := merge_sort String.le (map_to_list m).*1) in *.
  destruct (maxMessages <? size m) eqn:Hmany.
  - apply Nat.ltb_lt in Hmany.
    set (n := size m - maxMessages).
    assert (keys = take n keys ++ drop n keys) as Hsplit
      by by rewrite take_drop.
    pose proof (deleteAll_size (take n keys) m) as Hsize.
    rewrite length_take in Hsize.
    rewrite <- (Nat.add_cancel_r _ _ (n `min` length keys)), Hsize.
    + unfold n. lia.
    + rewrite Hsplit in Hnodup. by apply NoDup_app in Hnodup as (? & _).
    + intros k Hk. apply Hin. rewrite Hsplit.
      apply elem_of_app. by left.
  - apply Nat.ltb_ge in Hmany. lia.
Qed.

(** X23. cleanupMessages keeps the hundred notes with the largest uids.
    What it leaves is part of what it was given and has the size of the
    given map or one hundred, whichever is less; every uid it removed is
    strictly below every uid it kept. *)
Theorem cleanupMessages_keeps_the_largest (m : gmap string Note) :
  cleanupMessages m ⊆ m
  ∧ size (cleanupMessages m) = size m `min` maxMessages
  ∧ ∀ k k', is_Some (m !! k) → cleanupMessages m !! k = None →
            is_Some (cleanupMessages m !! k') →
            String.le k k' ∧ k ≠ k'.
Proof.
  split; [apply cleanupMessages_subseteq|].
  split; [apply cleanupMessages_size|].
  destruct (keys_sorted m) as (_ & _ & Hin & Hsorted).
  intros k k' Hk. rewrite !cleanupMessages_lookup.
  set (keys := merge_sort String.le (map_to_list m).*1) in *.
  set (n := size m - maxMessages).
  case_bool_decide as Hdropped.
  2:{ intros Hnone. rewrite Hnone in Hk. by destruct Hk. }
  intros _. case_bool_decide as Hkept; [by intros [? ?]|].
  intros Hk'. apply Hin in Hk'.
  rewrite <- (take_drop n keys) in Hk', Hsorted.
  apply elem_of_app in Hk' as [?|Hk']; [done|].
  by apply (StronglySorted_app_1_elem_of _ _ _ _ _ Hsorted).
Qed.

Lemma cleanupMessages_again (m : gmap string Note) :
  cleanupMessages (cleanupMessages m) = cleanupMessages m.
Proof.
  pose proof (cleanupMessages_size m) as Hsize.
  unfold cleanupMessages at 1.
  rewrite length_fmap, length_map_to_list.
  destruct (maxMessages <? size (cleanupMessages m)) eqn:Hmany; [|done].
  apply Nat.ltb_lt in Hmany. lia.
Qed.

Lemma onNote_addMessage toISOString clock m st :
  onNote toISOString clock m st = addMessage toISOString clock m st.
Proof.
  unfold onNote, addMessage.
  destruct (nextMessageUid _ _ _) as [uid u]. simpl.
  by rewrite cleanupMessages_again.
Qed.

Lemma addMessage_notesOk toISOString clock m st :
  notesOk st → notesOk (addMessage toISOString clock m st).
Proof.
  intros [_ Hkeys]. unfold addMessage.
  destruct (nextMessageUid _ _ _) as [uid u]. split; simpl.
  - rewrite cleanupMessages_size. lia.
  - intros k n Hk.
    eapply lookup_weaken in Hk as Hk'; [|apply cleanupMessages_subseteq].
    destruct (decide (k = uid)) as [->|Hne].
    + rewrite lookup_insert_eq in Hk'. by simplify_eq.
    + rewrite lookup_insert_ne in Hk' by done. by apply Hkeys.
Qed.

(** X24. The status never holds more than a hundred notes.  From the
    manager's initial state, after any notes received at any clock
    readings, byUid has at most maxMessages entries, each filed under the
    uid it carries; and the cleanupMessages call the message listener
    makes after addMessage changes nothing. *)
Theorem notes_stay_bounded toISOString (received : list (Z * IndiMessage)) :
  let st := foldl (λ st cm, onNote toISOString cm.1 cm.2 st) noNotes received
  in
  size (byUid st) ≤ maxMessages
  ∧ (∀ k n, byUid st !! k = Some n → n_uid n = k)
  ∧ ∀ clock m, onNote toISOString clock m st
               = addMessage toISOString clock m st.
Proof.
  intros st.
  assert (notesOk st) as [Hsize Hkeys].
  { subst st. induction received as [|[clock m] received IH] using rev_ind.
    - split; [simpl; unfold maxMessages; rewrite map_size_empty; lia|].
      intros k n Hk. simpl in Hk. by rewrite lookup_empty in Hk.
    - rewrite foldl_app. simpl. rewrite onNote_addMessage.
      by apply addMessage_notesOk. }
  split; [done|]. split; [done|].
  intros clock m. apply onNote_addMessage.
Qed.

(** ** The sequencer, further *)

Lemma resumeAll_Settled {S A} (r : Completion A) (s : S) inputs :
  resumeAll (Settled r s) inputs = Settled r s.
Proof. induction inputs as [|i inputs IH]; [done|]. exact IH. Qed.

Lemma resumeAll_cons {S A} (st : Step S A) i inputs :
  resumeAll st (i :: inputs) = resumeAll (resume st i.1 i.2) inputs.
Proof. reflexivity. Qed.

(** X25. pulseParam never resolves.  Whatever the outcomes of its waits
    and whatever the states it is resumed in, its promise, once settled,
    is rejected; and it is settled at the latest when it has been resumed
    four times. *)
Theorem pulseParam_never_resolves connection devId vectorId propId s
  (inputs : list (WaitOutcome * World)) :
  match resumeAll (pulseParam connection devId vectorId propId s) inputs with
  | Settled (Normal _) _ => False
  | Settled (Thrown _) _ => True
  | Await _ _ _ => length inputs < 4
  end.
Proof.
  unfold pulseParam.
  destruct (getValidConnection connection);
    [|by rewrite resumeAll_Settled].
  destruct (getVec devId vectorId s); [|by rewrite resumeAll_Settled].
  destruct inputs as [|[o1 s1] inputs]; [simpl; lia|].
  rewrite resumeAll_cons. cbn [resume fst snd].
  destruct o1; [|by rewrite resumeAll_Settled].
  destruct inputs as [|[o2 s2] inputs]; [simpl; lia|].
  rewrite resumeAll_cons. cbn [resume fst snd].
  destruct o2; [|by rewrite resumeAll_Settled].
  destruct (getVec devId vectorId s2); [|by rewrite resumeAll_Settled].
  destruct (getState devId vectorId s2); [|by rewrite resumeAll_Settled].
  destruct (isBusy _); [by rewrite resumeAll_Settled|].
  destruct (setValues devId vectorId _ s2) as [[[]|e] s3];
    [|by rewrite resumeAll_Settled].
  destruct inputs as [|[o3 s4] inputs]; [simpl; lia|].
  rewrite resumeAll_cons. cbn [resume fst snd]. unfold pulseParam_try.
  destruct o3 as [|e]; [by rewrite resumeAll_Settled|].
  destruct (setValues devId vectorId _ s4) as [[[]|e'] s5];
    [|by rewrite resumeAll_Settled].
  destruct inputs as [|[o4 s6] inputs]; [simpl; lia|].
  rewrite resumeAll_cons. cbn [resume fst snd].
  destruct o4; by rewrite resumeAll_Settled.
Qed.

Lemma todoOf_force devId vectorId value s :
  ascending (todoOf true devId vectorId value s)
  ∧ ∀ a, a ∈ todoOf true devId vectorId value s
         ↔ value !! a_name a = Some (Some (a_value a)).
Proof.
  unfold todoOf. split.
  - apply omap_ascending; [|apply sortedKeys_ascending].
    intros k a Hk. destruct (value !! k) as [[v|]|]; try discriminate.
    simpl in Hk. by inversion Hk.
  - intros [name v]. rewrite list_elem_of_omap. simpl. split.
    + intros (k & _ & Hk).
      destruct (value !! k) as [[v'|]|] eqn:Hvalue; try discriminate.
      simpl in Hk. by inversion Hk; subst.
    + intros Hvalue. exists name. split.
      * apply sortedKeys_elem_of. by rewrite Hvalue.
      * by rewrite Hvalue.
Qed.

(** X26. setParam with force writes every provided entry.  When the call
    has passed its waits and finds the vector in the tree and not Busy,
    todo holds exactly the entries provided with a string, by strictly
    ascending key, whatever the vector holds (also keys the vector does
    not have).  With todo empty the call returns the empty list and sends
    nothing; otherwise it sends one command of the vector's type with todo
    and waits for the vector to leave Busy. *)
Theorem setParam_force_writes_all devId vectorId value
  (nowait cancelator : bool) st0 st1 s ct vecDef :
  let call := setParam true devId vectorId (Static value) true nowait
                cancelator st0 in
  let reached := if nowait then resume call Resolved (s, ct)
                 else resume (resume call Resolved st1) Resolved (s, ct) in
  let todo := todoOf true devId vectorId value s in
  getVec devId vectorId st0.1 = Normal tt →
  getVec devId vectorId s = Normal tt →
  getVectorInTree devId vectorId s = Some vecDef →
  isBusy (v_state vecDef) = false →
  cancelator && isCancelled ct = false →
  ascending todo
  ∧ (∀ a, a ∈ todo ↔ value !! a_name a = Some (Some (a_value a)))
  ∧ match reached with
    | Settled r st' => todo = [] ∧ r = Normal [] ∧ st' = (s, ct)
    | Await what (s1, ct1) k =>
        todo ≠ []
        ∧ what = WaitNotBusy true devId vectorId
        ∧ outbox s1
          = outbox s ++ [toXml {| o_kind := v_type vecDef;
                                  o_device := devId; o_name := vectorId;
                                  o_ones := todo |}]
        ∧ getState devId vectorId s1 = Normal (Some "Busy")
    end.
Proof.
  intros call reached todo HgetVec0 HgetVec Hvec Hbusy Hct.
  destruct (todoOf_force devId vectorId value s) as [Hasc Hin].
  split; [done|]. split; [done|].
  assert (reached
          = setParam_set devId vectorId (Static value) true cancelator (s, ct))
    as ->.
  { subst reached call. unfold setParam. simpl getValidConnection.
    rewrite HgetVec0. by destruct nowait. }
  unfold setParam_set. rewrite HgetVec.
  unfold getState, getExistingVectorInTree. rewrite Hvec, Hbusy.
  simpl valueOf. fold todo. destruct todo as [|a todo'] eqn:Htodo; [done|].
  destruct (setValues_present devId vectorId (a :: todo') s vecDef Hvec)
    as (s1 & -> & Hout & Hstate).
  rewrite Hct. by destruct cancelator.
Qed.

Lemma setParam_force_writes_all_witness :
  let devId := "CCD" in
  let vectorId := "CONNECTION" in
  let value := connectValues in
  let nowait := false in
  let cancelator := false in
  let st0 := (ccdOnly, freshToken) in
  let st1 := st0 in
  let s := ccdOnly in
  let ct := freshToken in
  let vecDef := ccdConnection in
  let call := setParam true devId vectorId (Static value) true nowait
                cancelator st0 in
  let reached := if nowait then resume call Resolved (s, ct)
                 else resume (resume call Resolved st1) Resolved (s, ct) in
  let todo := todoOf true devId vectorId value s in
  ascending todo
  ∧ (∀ a, a ∈ todo ↔ value !! a_name a = Some (Some (a_value a)))
  ∧ match reached with
    | Settled r st' => todo = [] ∧ r = Normal [] ∧ st' = (s, ct)
    | Await what (s1, ct1) k =>
        todo ≠ []
        ∧ what = WaitNotBusy true devId vectorId
        ∧ outbox s1
          = outbox s ++ [toXml {| o_kind := v_type vecDef;
                                  o_device := devId; o_name := vectorId;
                                  o_ones := todo |}]
        ∧ getState devId vectorId s1 = Normal (Some "Busy")
    end.
Proof.
  intros devId vectorId value nowait cancelator st0 st1 s ct vecDef.
  assert (getVec devId vectorId st0.1 = Normal tt) as H0 by reflexivity.
  assert (getVec devId vectorId s = Normal tt) as H1 by reflexivity.
  assert (getVectorInTree devId vectorId s = Some vecDef) as H2
    by reflexivity.
  assert (isBusy (v_state vecDef) = false) as H3 by reflexivity.
  assert (cancelator && isCancelled ct = false) as H4 by reflexivity.
  exact (setParam_force_writes_all devId vectorId value nowait cancelator
           st0 st1 s ct vecDef H0 H1 H2 H3 H4).
Defined.

(** ** connectDevice and disconnectDevice *)

Lemma sortedKeys_singleton name v : sortedKeys {[ name := v ]} = [name].
Proof. unfold sortedKeys. by rewrite map_to_list_singleton. Qed.

(** [setParam] asked for the single entry [name]: "On", resumed twice in a
    state where the vector is there, not Busy, and [name] is not "On". *)
Lemma switch_order device name s ct vecDef st0 st1 :
  getVectorInTree device "CONNECTION" s = Some vecDef →
  isBusy (v_state vecDef) = false →
  getPropertyValueIfExists device "CONNECTION" name s ≠ Some (Some "On") →
  ∃ s1 k,
    resume (resume (setParam true device "CONNECTION"
                      (Static {[ name := Some "On" ]}) false false false st0)
              Resolved st1) Resolved (s, ct)
    = Await (WaitNotBusy true device "CONNECTION") (s1, ct) k
    ∧ outbox s1 = outbox s ++ [connectionCommand (v_type vecDef) device name]
    ∧ getState device "CONNECTION" s1 = Normal (Some "Busy").
Proof.
  intros Hvec Hbusy Hvalue.
  unfold setParam. simpl getValidConnection.
  change (getVec device "CONNECTION" st0.1) with (Normal tt : Completion unit).
  cbn [resume]. unfold setParam_set.
  change (getVec device "CONNECTION" s) with (Normal tt : Completion unit).
  cbv iota. unfold getState at 1, getExistingVectorInTree.
  rewrite Hvec, Hbusy. simpl valueOf.
  unfold todoOf. rewrite sortedKeys_singleton. simpl omap.
  rewrite lookup_singleton_eq. simpl.
  rewrite bool_decide_eq_true_2 by done.
  destruct (setValues_present device "CONNECTION"
              [{| a_name := name; a_value := "On" |}] s vecDef Hvec)
    as (s1 & -> & Hout & Hstate).
  simpl. eexists _, _. split; [reflexivity|]. by split.
Qed.

Lemma pending_refuses device s ct :
  getState device "CONNECTION" s = Normal (Some "Busy") →
  connectDevice true device (s, ct) = Refused (Raw "Connection already pending")
  ∧ disconnectDevice true device (s, ct)
    = Refused (Raw "Connection already pending").
Proof.
  intros Hstate. unfold connectDevice, disconnectDevice, isReadyForOrder.
  simpl. by rewrite Hstate.
Qed.

(** X27. An accepted connectDevice makes further orders pending.  When
    CONNECTION is in the tree, not Busy, and CONNECT is not "On",
    connectDevice calls setParam; if the waits of that call resolve in the
    same state, it sends the one command CONNECT "On" and waits for the
    vector to leave Busy.  In the state this leaves, a further
    connectDevice or disconnectDevice is refused with "Connection already
    pending". *)
Theorem connectDevice_makes_orders_pending device s ct vecDef c :
  getVectorInTree device "CONNECTION" s = Some vecDef →
  isBusy (v_state vecDef) = false →
  childs vecDef !! "CONNECT" = Some c →
  c_text c ≠ Some "On" →
  ∃ call s1 k,
    connectDevice true device (s, ct) = Calls call
    ∧ resume (resume call Resolved (s, ct)) Resolved (s, ct)
      = Await (WaitNotBusy true device "CONNECTION") (s1, ct) k
    ∧ outbox s1
      = outbox s ++ [connectionCommand (v_type vecDef) device "CONNECT"]
    ∧ connectDevice true device (s1, ct)
      = Refused (Raw "Connection already pending")
    ∧ disconnectDevice true device (s1, ct)
      = Refused (Raw "Connection already pending").
Proof.
  intros Hvec Hbusy Hc Hoff.
  destruct (switch_order device "CONNECT" s ct vecDef (s, ct) (s, ct))
    as (s1 & k & Hrun & Hout & Hstate); [done|done| |].
  { unfold getPropertyValueIfExists. rewrite Hvec, Hc. by intros [= ?]. }
  eexists _, s1, k. split; [|split; [exact Hrun|split; [done|]]].
  - unfold connectDevice, isReadyForOrder, getState, getPropertyValue,
      getExistingVectorInTree. simpl. rewrite Hvec, Hbusy, Hc. simpl.
    by rewrite bool_decide_eq_false_2.
  - by apply pending_refuses.
Qed.

Lemma connectDevice_makes_orders_pending_witness :
  ∃ call s1 k,
    connectDevice true "CCD" (ccdOnly, freshToken) = Calls call
    ∧ resume (resume call Resolved (ccdOnly, freshToken)) Resolved
        (ccdOnly, freshToken)
      = Await (WaitNotBusy true "CCD" "CONNECTION") (s1, freshToken) k
    ∧ outbox s1
      = outbox ccdOnly
        ++ [connectionCommand (v_type ccdConnection) "CCD" "CONNECT"]
    ∧ connectDevice true "CCD" (s1, freshToken)
      = Refused (Raw "Connection already pending")
    ∧ disconnectDevice true "CCD" (s1, freshToken)
      = Refused (Raw "Connection already pending").
Proof.
  assert (getVectorInTree "CCD" "CONNECTION" ccdOnly = Some ccdConnection)
    as Hvec by reflexivity.
  assert (isBusy (v_state ccdConnection) = false) as Hbusy by reflexivity.
  assert (childs ccdConnection !! "CONNECT"
          = Some {| c_name := Some "CONNECT"; c_label := None;
                    c_text := Some "Off" |}) as Hc by reflexivity.
  assert (c_text {| c_name := Some "CONNECT"; c_label := None;
                    c_text := Some "Off" |} ≠ Some "On") as Hoff by done.
  exact (connectDevice_makes_orders_pending "CCD" ccdOnly freshToken
           ccdConnection _ Hvec Hbusy Hc Hoff).
Defined.

(** X28. disconnectDevice asks for DISCONNECT "On".  When CONNECTION is in
    the tree, not Busy, CONNECT is not "Off" and DISCONNECT is not "On"
    already, disconnectDevice calls setParam; if the waits of that call
    resolve in the same state, it sends the one command DISCONNECT "On"
    and leaves the vector Busy.  When CONNECT is "Off" it returns at once;
    when the vector is Busy it is refused. *)
Theorem disconnectDevice_orders_DISCONNECT device s ct vecDef c :
  getVectorInTree device "CONNECTION" s = Some vecDef →
  childs vecDef !! "CONNECT" = Some c →
  match disconnectDevice true device (s, ct) with
  | Refused e =>
      isBusy (v_state vecDef) = true ∧ e = Raw "Connection already pending"
  | NothingToDo => isBusy (v_state vecDef) = false ∧ c_text c = Some "Off"
  | Calls call =>
      isBusy (v_state vecDef) = false ∧ c_text c ≠ Some "Off"
      ∧ (getPropertyValueIfExists device "CONNECTION" "DISCONNECT" s
         ≠ Some (Some "On") →
         ∃ s1 k,
           resume (resume call Resolved (s, ct)) Resolved (s, ct)
           = Await (WaitNotBusy true device "CONNECTION") (s1, ct) k
           ∧ outbox s1
             = outbox s
               ++ [connectionCommand (v_type vecDef) device "DISCONNECT"]
           ∧ getState device "CONNECTION" s1 = Normal (Some "Busy"))
  end.
Proof.
  intros Hvec Hc.
  unfold disconnectDevice, isReadyForOrder, getState, getPropertyValue,
    getExistingVectorInTree. simpl getValidConnection. cbv iota.
  simpl fst. rewrite Hvec. cbv iota.
  destruct (isBusy (v_state vecDef)) eqn:Hbusy; simpl negb; cbv iota;
    [done|].
  rewrite Hc. case_bool_decide as Hoff; [done|].
  split; [done|]. split; [done|]. intros Hvalue.
  destruct (switch_order device "DISCONNECT" s ct vecDef (s, ct) (s, ct))
    as (s1 & k & Hrun & Hout & Hstate); try done.
  by exists s1, k.
Qed.

Lemma disconnectDevice_orders_DISCONNECT_witness :
  let device := "CCD" in
  let s := ccdConnected in
  let ct := freshToken in
  let vecDef := ccdConnectionOn in
  let c := connectOn in
  match disconnectDevice true device (s, ct) with
  | Refused e =>
      isBusy (v_state vecDef) = true ∧ e = Raw "Connection already pending"
  | NothingToDo => isBusy (v_state vecDef) = false ∧ c_text c = Some "Off"
  | Calls call =>
      isBusy (v_state vecDef) = false ∧ c_text c ≠ Some "Off"
      ∧ (getPropertyValueIfExists device "CONNECTION" "DISCONNECT" s
         ≠ Some (Some "On") →
         ∃ s1 k,
           resume (resume call Resolved (s, ct)) Resolved (s, ct)
           = Await (WaitNotBusy true device "CONNECTION") (s1, ct) k
           ∧ outbox s1
             = outbox s
               ++ [connectionCommand (v_type vecDef) device "DISCONNECT"]
           ∧ getState device "CONNECTION" s1 = Normal (Some "Busy"))
  end.
Proof.
  intros device s ct vecDef c.
  assert (getVectorInTree device "CONNECTION" s = Some vecDef) as Hvec
    by reflexivity.
  assert (childs vecDef !! "CONNECT" = Some c) as Hc by reflexivity.
  exact (disconnectDevice_orders_DISCONNECT device s ct vecDef c Hvec Hc).
Defined.

(** ** The preferred device selector *)

(** X29. update never selects a device that is not available, and it
    settles in one step.  From any status, the current device it leaves is
    null or one of the available ones, and the available and prefered
    fields of the object are not touched.  When set stores the fields it
    is given, the stored current is the one update left, the stored
    prefered is the old one or the current device, and a further update on
    the stored status calls set no more. *)
Theorem update_selects_available status :
  ∃ status' call,
    update (Some status) = Some (status', call)
    ∧ available status' = available status
    ∧ prefered status' = prefered status
    ∧ (current status' = None
       ∨ ∃ c, current status' = Some c ∧ c ∈ available status)
    ∧ current (stored call status) = current status'
    ∧ (prefered (stored call status) = prefered status
       ∨ (prefered (stored call status) = current status
          ∧ current status = current status'))
    ∧ update (Some (stored call status)) = Some (stored call status, None).
Proof.
  destruct status as [avail [c|] [p|]]; unfold update; simpl;
    repeat (case_bool_decide; simpl);
    (eexists _, _; split; [reflexivity|]); simpl;
    repeat (case_bool_decide; simpl);
    try (intuition (eauto; congruence)).
Qed.

(** ** Message listeners *)

Lemma checkListeners_inbox s : inbox (checkListeners s) = inbox s.
Proof. unfold checkListeners. by destruct (listeners s). Qed.

Lemma flushQueue_inbox s : inbox (flushQueue s) = inbox s.
Proof. unfold flushQueue. by destruct (connected s). Qed.

Lemma removeListener_inbox f s : inbox (removeListener f s) = inbox s.
Proof. unfold removeListener. simpl. by destruct (checkingListeners s). Qed.

Lemma settle_inbox w n s : inbox (settle w n s) = inbox s.
Proof.
  unfold settle. destruct (waits s !! w) as [wt|]; [|done].
  by destruct (w_next wt).
Qed.

Lemma dettach_inbox w s : inbox (dettach w s) = inbox s.
Proof.
  unfold dettach. destruct (waits s !! w) as [wt|]; [|done].
  destruct (w_listener wt) as [l|]; [|done].
  apply (removeListener_inbox l s).
Qed.

Lemma waitListener_inbox w s : inbox (waitListener w s) = inbox s.
Proof.
  unfold waitListener. destruct (waits s !! w) as [wt|]; [|done].
  destruct (w_next wt); try done.
  destruct (w_predicate wt _ _); try done;
    by rewrite settle_inbox, dettach_inbox.
Qed.

Lemma clientCall_inbox c s : inbox (clientCall c s).2 = inbox s.
Proof.
  destruct c as [f|f|o|o|device vectorId affectations|e]; simpl; try done.
  - apply removeListener_inbox.
  - unfold addConnectionListener. by case_bool_decide.
  - unfold setValues. destruct (getExistingVectorInTree _ _ _); [|done].
    simpl. unfold queueMessage. by rewrite flushQueue_inbox.
Qed.

Lemma tick_inbox clients s : inbox (perform clients Tick s) = inbox s.
Proof.
  apply (tick_preserved clients (λ s s', inbox s' = inbox s) (λ _, True));
    try done.
  - intros s1 s2 s3 H12 H23. by rewrite H23.
  - intros c s0 _. apply clientCall_inbox.
  - apply waitListener_inbox.
Qed.

(** The loop from the index [i] on, when the listeners from there on
    unregister nothing: each is called once, in the order of the array. *)
Lemma dispatchFrom_quiet n i m s :
  Forall (λ l, ml_unregisters l = []) (drop i (messageListeners s)) →
  length (messageListeners s) ≤ n + i →
  inbox (dispatchFrom n i m s)
  = (messageListeners s,
     delivered s ++ map (λ l, (ml_id l, m)) (drop i (messageListeners s))).
Proof.
  revert i s. induction n as [|n IH]; intros i s Hquiet Hlen; simpl.
  - rewrite drop_ge by done. simpl. by rewrite app_nil_r.
  - destruct (messageListeners s !! i) as [l|] eqn:Hl.
    + rewrite (drop_S _ _ _ Hl) in *. apply Forall_cons in Hquiet as [-> Hrest].
      simpl. rewrite IH; simpl; [|done|lia].
      by rewrite <- app_assoc.
    + apply lookup_ge_None in Hl. rewrite drop_ge by done. simpl.
      by rewrite app_nil_r.
Qed.

Lemma dispatchMessage_quiet m s :
  Forall (λ l, ml_unregisters l = []) (messageListeners s) →
  inbox (dispatchMessage m s)
  = (messageListeners s,
     delivered s ++ map (λ l, (ml_id l, m)) (messageListeners s)).
Proof.
  intros Hquiet. unfold dispatchMessage.
  rewrite dispatchFrom_quiet; [done|done|lia].
Qed.

Lemma perform_inbox clients e s :
  Forall (λ l, ml_unregisters l = []) (messageListeners s) →
  inbox (perform clients e s)
  = (messageListeners s, delivered s ++ notesOf (messageListeners s) e).
Proof.
  intros Hquiet.
  destruct e as [| |m| |device vectorId affectations];
    [| | |by rewrite tick_inbox; simpl; rewrite app_nil_r|]; simpl;
    rewrite ?app_nil_r.
  - unfold onConnect. simpl.
    change (inbox (bump ?s)) with (inbox s).
    by rewrite flushQueue_inbox.
  - unfold onClose. by rewrite checkListeners_inbox.
  - unfold onMessage. change (deviceTree (bump s)) with (deviceTree s).
    destruct (m_tag m) as [k|k| |]; rewrite ?app_nil_r;
      [| | |simpl; by rewrite (dispatchMessage_quiet m (bump s))].
    + destruct (m_childs m); [|done]. simpl. by rewrite checkListeners_inbox.
    + destruct (deviceTree s !! key (m_device m)) as [dev|]; [|done].
      destruct (dev !! key (m_name m)); [|done].
      destruct (m_childs m); [|done]. simpl. by rewrite checkListeners_inbox.
    + destruct (deviceTree s !! key (m_device m)) as [dev|]; [|done].
      destruct (m_name m) as [name|].
      * destruct (dev !! name); [|done]. simpl.
        by rewrite checkListeners_inbox.
      * simpl. by rewrite checkListeners_inbox.
  - unfold setValues. destruct (getExistingVectorInTree _ _ _); [|done].
    simpl. unfold queueMessage. by rewrite flushQueue_inbox.
Qed.

Lemma addMessageListeners_inbox ls s :
  inbox (foldl (λ s l, addMessageListener l s) s ls)
  = (messageListeners s ++ ls, delivered s).
Proof.
  revert s. induction ls as [|l ls IH]; intros s; simpl.
  - by rewrite app_nil_r.
  - rewrite IH. simpl. by rewrite <- app_assoc.
Qed.

(** X30. Notes and the message listeners.  On a new connection with the
    message listeners [ls] registered, none of which unregisters a
    message listener when it is called: after any run the calls made to
    message listeners are exactly, for each decoded [message] element in
    the order received, one call of each listener in the order of
    registration, and the listeners stay registered; no other message, no
    dispatch pass and no command calls a message listener.  The loop
    reads the array as it is at each step: when a listener registered
    before them unregisters itself as a [message] element reaches it, the
    first of [ls] is not called for that element, and the others are. *)
Theorem notes_reach_the_message_listeners clients ls evs rev :
  Forall (λ l, ml_unregisters l = []) ls →
  let s0 := newIndiConnection rev in
  let s := run clients evs (foldl (λ s l, addMessageListener l s) s0 ls) in
  delivered s = flat_map (notesOf ls) evs
  ∧ messageListeners s = ls
  ∧ ∀ a m, m_tag m = message → ml_unregisters a = [ml_id a] →
      let s1 := perform clients (SocketMessage m)
                  (foldl (λ s l, addMessageListener l s) s0 (a :: ls)) in
      delivered s1 = (ml_id a, m) :: map (λ l, (ml_id l, m)) (tail ls)
      ∧ messageListeners s1 = ls.
Proof.
  intros Hquiet s0 s.
  assert (∀ s, Forall (λ l, ml_unregisters l = []) (messageListeners s) →
               inbox (run clients evs s)
               = (messageListeners s,
                  delivered s ++ flat_map (notesOf (messageListeners s)) evs))
    as Hrun.
  { clear s. induction evs as [|e evs IH] using rev_ind; intros s Hs.
    - simpl. by rewrite app_nil_r.
    - unfold run in *. rewrite foldl_app. simpl.
      pose proof (IH s Hs) as Hinbox. unfold inbox in Hinbox.
      injection Hinbox as Hl Hd.
      rewrite perform_inbox by (by rewrite Hl).
      rewrite Hl, Hd, flat_map_app. simpl.
      by rewrite app_nil_r, app_assoc. }
  assert (inbox s = (ls, flat_map (notesOf ls) evs)) as Hinbox.
  { subst s. pose proof (addMessageListeners_inbox ls s0) as Hadd.
    unfold inbox in Hadd. injection Hadd as Hl Hd. simpl in Hl, Hd.
    rewrite Hrun; by rewrite Hl, ?Hd. }
  unfold inbox in Hinbox. injection Hinbox as Hl Hd.
  split; [done|]. split; [done|].
  intros a m Htag Hself.
  set (s2 := foldl (λ s l, addMessageListener l s) s0 (a :: ls)).
  intros s1. subst s1.
  change (perform clients (SocketMessage m) s2) with (onMessage m s2).2.
  assert (inbox s2 = (a :: ls, [])) as Hinbox2
    by apply (addMessageListeners_inbox (a :: ls) s0).
  unfold inbox in Hinbox2. injection Hinbox2 as Hl2 Hd2.
  unfold onMessage. rewrite Htag. simpl. unfold dispatchMessage.
  change (messageListeners (bump s2)) with (messageListeners s2).
  rewrite Hl2. simpl. rewrite Hl2. simpl. rewrite Hself. simpl.
  unfold removeMessageListener. simpl. rewrite Hl2. simpl.
  rewrite decide_True by done.
  match goal with
  | |- context [dispatchFrom ?n 1 m ?s3] =>
      assert (inbox (dispatchFrom n 1 m s3)
              = (ls, [(ml_id a, m)] ++ map (λ l, (ml_id l, m)) (tail ls)))
        as Hloop
  end.
  { rewrite dispatchFrom_quiet; simpl; rewrite ?Hd2; [|  |lia].
    - by destruct ls.
    - destruct ls as [|b ls']; [done|].
      by apply Forall_cons in Hquiet as [_ ?]. }
  unfold inbox in Hloop. by injection Hloop as -> ->.
Qed.

Lemma notes_reach_the_message_listeners_witness :
  let clients := noClients in
  let ls := loggers in
  let evs := [SocketConnect; SocketMessage ccdNote] in
  let s0 := newIndiConnection 0 in
  let s := run clients evs (foldl (λ s l, addMessageListener l s) s0 ls) in
  delivered s = flat_map (notesOf ls) evs
  ∧ messageListeners s = ls
  ∧ ∀ a m, m_tag m = message → ml_unregisters a = [ml_id a] →
      let s1 := perform clients (SocketMessage m)
                  (foldl (λ s l, addMessageListener l s) s0 (a :: ls)) in
      delivered s1 = (ml_id a, m) :: map (λ l, (ml_id l, m)) (tail ls)
      ∧ messageListeners s1 = ls.
Proof.
  intros clients ls evs.
  assert (Forall (λ l, ml_unregisters l = []) ls) as Hquiet
    by (repeat constructor).
  exact (notes_reach_the_message_listeners clients ls evs 0 Hquiet).
Defined.
